(** * NPuzzle: a shallow embedding of the sliding-tile solver

    The development follows the layout of the Python sources:
    [helpers.py], [actions.py], [heuristics.py], [search_strategies.py]
    and [main.py].
    Python integers are [Z]; list indices produced by [enumerate] and the
    results of [len] are [nat]; tile labels are strings (the blank is the
    label "0"); a state is a list of columns, each column a list of labels.
    Exceptions are values of [exn] carried by the error monad [res].  The
    [while] loop of [_search] is driven by a fuel argument; the loops of the
    library modules [bisect] and [heapq] are bounded by the length of the
    list they work on. *)

From stdpp Require Import base option list strings gmap sorting.
From Stdlib Require Import ZArith Lia Ascii.

Open Scope Z_scope.

(** ** Exceptions and the error monad *)

Inductive exn : Type :=
  | ValueError (msg : string)
  | AssertionError (msg : string)
  | IndexError
  | KeyError (key : string)
  | AttributeError
  | UnboundLocalError.

Inductive res (A : Type) : Type :=
  | Ok (a : A)
  | Raise (e : exn).
Arguments Ok {A} a.
Arguments Raise {A} e.

Global Instance res_ret : MRet res := λ A a, Ok a.
Global Instance res_bind : MBind res := λ A B f m,
  match m with
  | Ok a => f a
  | Raise e => Raise e
  end.

(** A [for] loop whose body may raise, threading an accumulator. *)
Fixpoint for_each {A S : Type} (body : S → A → res S) (acc : S) (l : list A)
  : res S :=
  match l with
  | [] => Ok acc
  | a :: l' => acc' ← body acc a; for_each body acc' l'
  end.

(** Python's [enumerate]. *)
Definition enumerate {A : Type} (l : list A) : list (nat * A) :=
  imap (λ i a, (i, a)) l.

(** [v in range(n)] for an integer [v]. *)
Definition in_range (v : Z) (n : nat) : bool :=
  (0 <=? v) && (v <? Z.of_nat n).

(** [l[i]] for an index known to be non-negative. *)
Definition getitem {A : Type} (l : list A) (i : nat) : res A :=
  match l !! i with
  | Some a => Ok a
  | None => Raise IndexError
  end.

(** [l[i] = v] for an index known to be non-negative. *)
Definition setitem {A : Type} (l : list A) (i : nat) (v : A) : res (list A) :=
  if decide (i < length l)%nat then Ok (<[i:=v]> l) else Raise IndexError.

(** ** Grid states *)

Abbreviation tile := string.
Abbreviation State := (list (list tile)).

Definition blank : tile := "0".

(** [str] of a list of strings and of a state, for labels that need no
    escaping. *)
Definition repr_str (s : string) : string := "'" +:+ s +:+ "'".

Fixpoint join (sep : string) (l : list string) : string :=
  match l with
  | [] => ""
  | [s] => s
  | s :: l' => s +:+ sep +:+ join sep l'
  end.

Definition str_list (l : list string) : string :=
  "[" +:+ join ", " l +:+ "]".

Definition str_column (c : list tile) : string := str_list (repr_str <$> c).
Definition str_state (s : State) : string := str_list (str_column <$> s).

(** ** helpers.py *)

Fixpoint index_in_column (column : list tile) (tile_to_find : tile) (y : nat)
  : option nat :=
  match column with
  | [] => None
  | t :: column' =>
      if String.eqb t tile_to_find then Some y
      else index_in_column column' tile_to_find (S y)
  end.

Fixpoint coords_from (state : State) (tile_to_find : tile) (x : nat)
  : option (nat * nat) :=
  match state with
  | [] => None
  | column :: state' =>
      match index_in_column column tile_to_find 0 with
      | Some y => Some (x, y)
      | None => coords_from state' tile_to_find (S x)
      end
  end.

Definition coords_of_tile (state : State) (tile_to_find : tile)
  : res (nat * nat) :=
  match coords_from state tile_to_find 0 with
  | Some c => Ok c
  | None =>
      Raise (ValueError ("tile " +:+ tile_to_find +:+
                         " does not exist in state " +:+ str_state state))
  end.

(** ** actions.py *)

Definition getitem2 (state : State) (x y : nat) : res tile :=
  column ← getitem state x; getitem column y.

Definition setitem2 (state : State) (x y : nat) (v : tile) : res State :=
  column ← getitem state x;
  column' ← setitem column y v;
  setitem state x column'.

(** [_move]: the value-level reading, where [deepcopy] is the identity on
    values.  The object-level reading, with the copy and the in-place swap,
    is [Store.move] below.  The first assertion, [state != None], holds of
    every [State]. *)
Definition _move (state : State) (tile_to_swap : Z * Z) : res (option State) :=
  if negb ((tile_to_swap.1 =? 0) || (tile_to_swap.2 =? 0)) then
    Raise (AssertionError "Can't move diagonally.")
  else if negb ((Z.abs tile_to_swap.1 =? 1) || (Z.abs tile_to_swap.2 =? 1)) then
    Raise (AssertionError "Can't move more than one space.")
  else
    '(x, y) ← coords_of_tile state blank;
    let x2 := Z.of_nat x + tile_to_swap.1 in
    let y2 := Z.of_nat y + tile_to_swap.2 in
    if negb (in_range x2 (length state)) then Ok None
    else
      column0 ← getitem state 0;
      if negb (in_range y2 (length column0)) then Ok None
      else
        let new_state := state in
        a ← getitem2 new_state (Z.to_nat x2) (Z.to_nat y2);
        b ← getitem2 new_state x y;
        new_state ← setitem2 new_state x y a;
        new_state ← setitem2 new_state (Z.to_nat x2) (Z.to_nat y2) b;
        Ok (Some new_state).

Definition up (state : State) : res (option State) := _move state (0, -1).
Definition left (state : State) : res (option State) := _move state (-1, 0).
Definition down (state : State) : res (option State) := _move state (0, 1).
Definition right (state : State) : res (option State) := _move state (1, 0).

(** ** heuristics.py *)

Definition number_of_misplaced_tiles (current_state desired_state : State)
  : res Z :=
  for_each (λ misplaced '(x, column),
    for_each (λ misplaced '(y, t),
      d ← getitem2 desired_state x y;
      if negb (String.eqb t d) then Ok (misplaced + 1) else Ok misplaced)
      misplaced (enumerate column))
    0 (enumerate current_state).

Definition manhattan_distance (current_state desired_state : State) : res Z :=
  for_each (λ total_distance column,
    for_each (λ total_distance t,
      current_coords ← coords_of_tile current_state t;
      desired_coords ← coords_of_tile desired_state t;
      Ok (total_distance
          + (Z.abs (Z.of_nat current_coords.1 - Z.of_nat desired_coords.1)
             + Z.abs (Z.of_nat current_coords.2 - Z.of_nat desired_coords.2))))
      total_distance column)
    0 current_state.

(** ** Comparison of states

    Python compares lists lexicographically: the first position where the
    elements differ decides, and a proper prefix is smaller.  Strings compare
    by code point. *)

Fixpoint list_ltb {A : Type} (eqb ltb : A → A → bool) (a b : list A) : bool :=
  match a, b with
  | [], [] => false
  | [], _ :: _ => true
  | _ :: _, [] => false
  | x :: a', y :: b' => if eqb x y then list_ltb eqb ltb a' b' else ltb x y
  end.

Definition column_eqb (a b : list tile) : bool := bool_decide (a = b).
Definition column_ltb : list tile → list tile → bool :=
  list_ltb String.eqb String.ltb.
Definition state_eqb (a b : State) : bool := bool_decide (a = b).
Definition state_ltb : State → State → bool := list_ltb column_eqb column_ltb.

(** ** The [bisect] module, on lists of states *)

Fixpoint bisect_left_loop (fuel : nat) (a : list State) (x : State)
    (lo hi : nat) : nat :=
  match fuel with
  | O => lo
  | S fuel' =>
      if (lo <? hi)%nat then
        let mid := ((lo + hi) / 2)%nat in
        match a !! mid with
        | Some am =>
            if state_ltb am x then bisect_left_loop fuel' a x (mid + 1)%nat hi
            else bisect_left_loop fuel' a x lo mid
        | None => lo
        end
      else lo
  end.

Definition bisect_left (a : list State) (x : State) : nat :=
  bisect_left_loop (length a) a x 0%nat (length a).

Fixpoint bisect_right_loop (fuel : nat) (a : list State) (x : State)
    (lo hi : nat) : nat :=
  match fuel with
  | O => lo
  | S fuel' =>
      if (lo <? hi)%nat then
        let mid := ((lo + hi) / 2)%nat in
        match a !! mid with
        | Some am =>
            if state_ltb x am then bisect_right_loop fuel' a x lo mid
            else bisect_right_loop fuel' a x (mid + 1)%nat hi
        | None => lo
        end
      else lo
  end.

Definition bisect_right (a : list State) (x : State) : nat :=
  bisect_right_loop (length a) a x 0%nat (length a).

(** [a.insert(i, x)] for [0 <= i <= len(a)]. *)
Definition list_insert_at {A : Type} (a : list A) (i : nat) (x : A) : list A :=
  take i a ++ x :: drop i a.

(** [insort] is [insort_right]. *)
Definition insort (a : list State) (x : State) : list State :=
  list_insert_at a (bisect_right a x) x.

(** ** search_strategies.py *)

#[warnings="-register-all"]
Inductive Node : Type := mkNode {
  state : State;
  parent : option Node;
  action_taken : option string;
  num_parents : Z
}.

(** [Node.__init__]. *)
Definition Node_init (s : State) (p : option Node) (a : option string) : Node :=
  mkNode s p a (match p with None => 0 | Some p' => num_parents p' + 1 end).

Definition _bisect_index (collection : list State) (value : State)
  : option nat :=
  let i := bisect_left collection value in
  if bool_decide (i ≠ length collection) then
    match collection !! i with
    | Some c => if state_eqb c value then Some i else None
    | None => None
    end
  else None.

Definition _state_is_valid (s : option State) (closed_set : list State) : bool :=
  match s with
  | None => false
  | Some s' =>
      match _bisect_index closed_set s' with
      | None => true
      | Some _ => false
      end
  end.

(** [reconstruct_actions]: the labels from the given node up to the root, in
    the order the walk meets them. *)
Fixpoint reconstruct_actions (node : Node) : res (list string) :=
  match action_taken node with
  | None => Ok []
  | Some a =>
      match parent node with
      | Some p => actions ← reconstruct_actions p; Ok (a :: actions)
      | None => Raise AttributeError
      end
  end.

(** *** The [heapq] module and [queue.PriorityQueue]

    The queue holds pairs [(priority, node)].  Tuples compare by their first
    differing component; two nodes are never equal unless identical and
    [Node.__lt__] answers [False], so one entry is below another exactly when
    its priority is. *)

Definition item : Type := Z * Node.

Definition item_lt (a b : item) : bool := a.1 <? b.1.

Fixpoint _siftdown_loop (fuel : nat) (heap : list item) (newitem : item)
    (startpos pos : nat) : list item :=
  match fuel with
  | O => <[pos:=newitem]> heap
  | S fuel' =>
      if (startpos <? pos)%nat then
        let parentpos := ((pos - 1) / 2)%nat in
        match heap !! parentpos with
        | Some parent_item =>
            if item_lt newitem parent_item then
              _siftdown_loop fuel' (<[pos:=parent_item]> heap) newitem
                startpos parentpos
            else <[pos:=newitem]> heap
        | None => <[pos:=newitem]> heap
        end
      else <[pos:=newitem]> heap
  end.

Definition _siftdown (heap : list item) (startpos pos : nat) : list item :=
  match heap !! pos with
  | Some newitem => _siftdown_loop pos heap newitem startpos pos
  | None => heap
  end.

Fixpoint _siftup_loop (fuel : nat) (heap : list item) (endpos pos childpos : nat)
  : list item * nat :=
  match fuel with
  | O => (heap, pos)
  | S fuel' =>
      if (childpos <? endpos)%nat then
        let rightpos := (childpos + 1)%nat in
        let childpos :=
          match heap !! childpos, heap !! rightpos with
          | Some c, Some r =>
              if (rightpos <? endpos)%nat && negb (item_lt c r) then rightpos
              else childpos
          | _, _ => childpos
          end in
        match heap !! childpos with
        | Some c =>
            _siftup_loop fuel' (<[pos:=c]> heap) endpos childpos
              (2 * childpos + 1)%nat
        | None => (heap, pos)
        end
      else (heap, pos)
  end.

Definition _siftup (heap : list item) (pos : nat) : list item :=
  match heap !! pos with
  | Some newitem =>
      let endpos := length heap in
      let startpos := pos in
      let '(heap, pos) :=
        _siftup_loop endpos heap endpos pos (2 * pos + 1)%nat in
      _siftdown (<[pos:=newitem]> heap) startpos pos
  | None => heap
  end.

Definition heappush (heap : list item) (it : item) : list item :=
  _siftdown (heap ++ [it]) 0 (length heap).

(** [list.pop()]: the last element and the list without it. *)
Definition list_pop {A : Type} (l : list A) : option (A * list A) :=
  match last l with
  | Some a => Some (a, removelast l)
  | None => None
  end.

Definition heappop (heap : list item) : option (item * list item) :=
  match list_pop heap with
  | None => None
  | Some (lastelt, heap) =>
      match heap with
      | returnitem :: _ => Some (returnitem, _siftup (<[0%nat:=lastelt]> heap) 0)
      | [] => Some (lastelt, heap)
      end
  end.

(** *** The generic search loop

    A strategy gives [_search] a frontier: the open set, [open_set_get]
    (answering [None] where Python raises [IndexError] or [Empty]) and
    [open_set_add]. *)

Record Frontier : Type := {
  open_set : Type;
  open_set_new : open_set;
  open_set_get : open_set → option (Node * open_set);
  open_set_add : Node → open_set → res open_set
}.

Definition search_result : Type := option (res (nat * option (list string))).

Section Search.
Context (fr : Frontier) (desired_state : State).

Definition open_set_add_if_new (closed_set : list State) (current_node : Node)
    (successor_state : option State) (action : string) (os : open_set fr)
  : res (open_set fr) :=
  match successor_state with
  | Some s =>
      if _state_is_valid successor_state closed_set then
        open_set_add fr (Node_init s (Some current_node) (Some action)) os
      else Ok os
  | None => Ok os
  end.

(** The four successor lines of the loop body. *)
Definition expand (closed_set : list State) (current_node : Node)
    (os : open_set fr) : res (open_set fr) :=
  s ← up (state current_node);
  os ← open_set_add_if_new closed_set current_node s "Up;" os;
  s ← left (state current_node);
  os ← open_set_add_if_new closed_set current_node s "Left;" os;
  s ← down (state current_node);
  os ← open_set_add_if_new closed_set current_node s "Down;" os;
  s ← right (state current_node);
  open_set_add_if_new closed_set current_node s "Right;" os.

(** The [while] loop; [None] when the fuel runs out.  The result keeps the
    closed set and the node the loop stopped at ([None] when the open set
    was empty). *)
Fixpoint search_loop (fuel : nat) (closed_set : list State)
    (current_node : Node) (os : open_set fr)
  : option (res (list State * option Node)) :=
  if bool_decide (state current_node ≠ desired_state) then
    match fuel with
    | O => None
    | S fuel' =>
        let closed_set := insort closed_set (state current_node) in
        match expand closed_set current_node os with
        | Raise e => Some (Raise e)
        | Ok os =>
            match open_set_get fr os with
            | None => Some (Ok (closed_set, None))
            | Some (node, os) => search_loop fuel' closed_set node os
            end
        end
    end
  else Some (Ok (closed_set, Some current_node)).

Definition search_trace (fuel : nat) (initial_state : State)
  : option (res (list State * option Node)) :=
  search_loop fuel [] (Node_init initial_state None None) (open_set_new fr).

Definition _search (fuel : nat) (initial_state : State) : search_result :=
  match search_trace fuel initial_state with
  | None => None
  | Some (Raise e) => Some (Raise e)
  | Some (Ok (closed_set, None)) => Some (Ok (length closed_set, None))
  | Some (Ok (closed_set, Some node)) =>
      Some (actions ← reconstruct_actions node;
            Ok (length closed_set, Some actions))
  end.
End Search.

(** *** The seven strategies *)

Definition heuristic_fn : Type := State → State → res Z.

Definition strategy : Type := nat → State → State → search_result.

(** Each strategy's open set with its two closures, [open_set_get] and
    [open_set_add]. *)

Definition depth_first_frontier : Frontier :=
  {| open_set := list Node;
     open_set_new := [];
     open_set_get := list_pop;
     open_set_add := λ node os, Ok (os ++ [node]) |}.

Definition depth_first : strategy := λ fuel initial_state desired_state,
  _search depth_first_frontier desired_state fuel initial_state.

(** [deque.popleft()]. *)
Definition popleft {A : Type} (l : list A) : option (A * list A) :=
  match l with
  | a :: l' => Some (a, l')
  | [] => None
  end.

Definition breadth_first_frontier : Frontier :=
  {| open_set := list Node;
     open_set_new := [];
     open_set_get := popleft;
     open_set_add := λ node os, Ok (os ++ [node]) |}.

Definition breadth_first : strategy := λ fuel initial_state desired_state,
  _search breadth_first_frontier desired_state fuel initial_state.

(** [get_nowait] of a priority queue, keeping the node of the entry. *)
Definition pq_get (os : list item) : option (Node * list item) :=
  match heappop os with
  | Some ((_, node), os') => Some (node, os')
  | None => None
  end.

Definition greedy_best_first_frontier (heuristic : heuristic_fn)
    (desired_state : State) : Frontier :=
  {| open_set := list item;
     open_set_new := [];
     open_set_get := pq_get;
     open_set_add := λ node os,
       priority ← heuristic (state node) desired_state;
       Ok (heappush os (priority, node)) |}.

Definition greedy_best_first (heuristic : heuristic_fn) : strategy :=
  λ fuel initial_state desired_state,
  _search (greedy_best_first_frontier heuristic desired_state)
    desired_state fuel initial_state.

Definition a_star_frontier (heuristic : heuristic_fn) (desired_state : State)
  : Frontier :=
  {| open_set := list item;
     open_set_new := [];
     open_set_get := pq_get;
     open_set_add := λ node os,
       h ← heuristic (state node) desired_state;
       let priority := num_parents node + h in
       Ok (heappush os (priority, node)) |}.

Definition a_star (heuristic : heuristic_fn) : strategy :=
  λ fuel initial_state desired_state,
  _search (a_star_frontier heuristic desired_state)
    desired_state fuel initial_state.

Definition dijkstra : strategy :=
  a_star (λ current_state desired_state, Ok 0).

(** The open set of [depth_limited]: the stack, the paused nodes and the
    iteration counter. *)
Definition max_depth : Z := 3.

Definition depth_limited_frontier : Frontier :=
  {| open_set := list Node * list Node * Z;
     open_set_new := ([], [], 1);
     open_set_get := λ '(os, paused_set, iteration),
       let '(os, paused_set, iteration) :=
         if bool_decide (length os = 0%nat)
         then (paused_set, [], iteration + 1)
         else (os, paused_set, iteration) in
       match list_pop os with
       | Some (node, os) => Some (node, (os, paused_set, iteration))
       | None => None
       end;
     open_set_add := λ node '(os, paused_set, iteration),
       if num_parents node <? max_depth * iteration
       then Ok (os ++ [node], paused_set, iteration)
       else Ok (os, paused_set ++ [node], iteration) |}.

Definition depth_limited : strategy := λ fuel initial_state desired_state,
  _search depth_limited_frontier desired_state fuel initial_state.

(** [hill_climb], with the local constant [backtracking_allowed] as a
    parameter; the source fixes it to 2. *)
Definition hill_climb_frontier (backtracking_allowed : Z)
    (heuristic : heuristic_fn) (desired_state : State) : Frontier :=
  {| open_set := list item;
     open_set_new := [];
     open_set_get := pq_get;
     open_set_add := λ node os,
       if 0 <? num_parents node then
         p ← match parent node with
             | Some p => Ok p
             | None => Raise AttributeError
             end;
         hp ← heuristic (state p) desired_state;
         let parent_priority := num_parents node - 1 + hp in
         h ← heuristic (state node) desired_state;
         let current_priority := num_parents node + h in
         if parent_priority + backtracking_allowed <? current_priority
         then Ok os
         else Ok (heappush os (current_priority, node))
       else Raise UnboundLocalError |}.

Definition hill_climb_with (backtracking_allowed : Z) (heuristic : heuristic_fn)
  : strategy := λ fuel initial_state desired_state,
  _search (hill_climb_frontier backtracking_allowed heuristic desired_state)
    desired_state fuel initial_state.

Definition hill_climb (heuristic : heuristic_fn) : strategy :=
  hill_climb_with 2 heuristic.

(** *** [strategy_by_name] *)

(** [sorted] on a list of strings. *)
Fixpoint sorted_insert (s : string) (l : list string) : list string :=
  match l with
  | [] => [s]
  | t :: l' => if String.ltb s t then s :: l else t :: sorted_insert s l'
  end.

Definition sorted (l : list string) : list string :=
  foldr sorted_insert [] l.

(** [s[1:-1]]. *)
Definition strip_ends (s : string) : string :=
  String.substring 1 (String.length s - 2) s.

(** [s.replace(c, '')] for a one-character [c]. *)
Fixpoint remove_char (c : Ascii.ascii) (s : string) : string :=
  match s with
  | EmptyString => EmptyString
  | String d s' =>
      if Ascii.eqb c d then remove_char c s' else String d (remove_char c s')
  end.

(** [s.upper()] on ASCII text. *)
Definition upper_char (c : Ascii.ascii) : Ascii.ascii :=
  let n := Ascii.nat_of_ascii c in
  if ((97 <=? n) && (n <=? 122))%nat then Ascii.ascii_of_nat (n - 32) else c.

Fixpoint upper (s : string) : string :=
  match s with
  | EmptyString => EmptyString
  | String c s' => String (upper_char c) (upper s')
  end.

Definition methods : list (string * strategy) :=
  [ ("DFS", depth_first);
    ("BFS", breadth_first);
    ("GBFS", greedy_best_first manhattan_distance);
    ("AS", a_star manhattan_distance);
    ("DIJ", dijkstra);
    ("DL", depth_limited);
    ("HC", hill_climb manhattan_distance) ].

Definition methods_get (name : string) : option strategy :=
  snd <$> List.find (λ kv, String.eqb kv.1 name) methods.

Definition available_strategies : string :=
  remove_char "'"%char (strip_ends (str_list (repr_str <$> sorted (fst <$> methods)))).

Definition strategy_by_name (name : string) : res strategy :=
  if negb (bool_decide (is_Some (methods_get name))) then
    Raise (AssertionError ("Search strategy '" +:+ name +:+
                           "' is not implemented. Available: " +:+
                           available_strategies))
  else
    match methods_get (upper name) with
    | Some f => Ok f
    | None => Raise (KeyError (upper name))
    end.

(** ** Vocabulary of the properties *)

(** The four moves, their offsets, and the labels [_search] attaches. *)
Inductive direction : Type := Up | Left | Down | Right.

Definition offset (d : direction) : Z * Z :=
  match d with
  | Up => (0, -1)
  | Left => (-1, 0)
  | Down => (0, 1)
  | Right => (1, 0)
  end.

Definition move_in (d : direction) : State → res (option State) :=
  match d with
  | Up => up
  | Left => left
  | Down => down
  | Right => right
  end.

Definition label (d : direction) : string :=
  match d with
  | Up => "Up;"
  | Left => "Left;"
  | Down => "Down;"
  | Right => "Right;"
  end.

(** The labels as [_search] writes them, and without the separator. *)
Definition code_labels : list string := ["Up;"; "Left;"; "Down;"; "Right;"].
Definition bare_labels : list string := ["Up"; "Left"; "Down"; "Right"].

(** Reading a label back, with or without its separator. *)
Definition direction_of_label (a : string) : option direction :=
  if String.eqb a "Up;" || String.eqb a "Up" then Some Up
  else if String.eqb a "Left;" || String.eqb a "Left" then Some Left
  else if String.eqb a "Down;" || String.eqb a "Down" then Some Down
  else if String.eqb a "Right;" || String.eqb a "Right" then Some Right
  else None.

(** Replaying a sequence of labels in order with the move generator; [None]
    when a label is unknown or a move is refused. *)
Fixpoint replay (s : State) (actions : list string) : option State :=
  match actions with
  | [] => Some s
  | a :: actions' =>
      match direction_of_label a with
      | Some d =>
          match move_in d s with
          | Ok (Some s') => replay s' actions'
          | _ => None
          end
      | None => None
      end
  end.

(** The label at column [x], row [y], and the grid with that cell replaced. *)
Definition cell (s : State) (x y : nat) : option tile :=
  column ← s !! x; column !! y.

Definition set_cell (s : State) (x y : nat) (v : tile) : State :=
  alter (λ column, <[y:=v]> column) x s.

(** The grid with the labels of two cells exchanged, by the two writes of
    [_move]. *)
Definition swap_cells (s : State) (x y x2 y2 : nat) : State :=
  match cell s x2 y2, cell s x y with
  | Some a, Some b => set_cell (set_cell s x y a) x2 y2 b
  | _, _ => s
  end.

(** No label sits in two cells. *)
Definition cells_injective (s : State) : Prop :=
  ∀ x y x' y' t, cell s x y = Some t → cell s x' y' = Some t → x = x' ∧ y = y'.

(** A grid of [w] columns and [h] rows in which no label occurs twice and
    the blank occurs. *)
Definition well_formed (w h : nat) (s : State) : Prop :=
  length s = w ∧ Forall (λ column, length column = h) s ∧
  NoDup (concat s) ∧ blank ∈ concat s.

Global Instance well_formed_dec w h s : Decision (well_formed w h s).
Proof. unfold well_formed. apply _. Defined.


(** [ltb] is a strict total order. *)
Class StrictTotal {A : Type} (ltb : A → A → bool) : Prop := {
  ltb_irrefl : ∀ a, ltb a a = false;
  ltb_trans : ∀ a b c, ltb a b = true → ltb b c = true → ltb a c = true;
  ltb_connex : ∀ a b, ltb a b = false → ltb b a = false → a = b
}.

(** A list of states in non-decreasing order, as [insort] keeps the closed
    set. *)
Definition ordered (a : list State) : Prop :=
  ∀ i j s t, (i < j)%nat → a !! i = Some s → a !! j = Some t →
             state_ltb t s = false.

(** A frontier keeps nodes: whatever holds of every node added holds of
    every node it hands back.  [holds P os] reads: every node in the open set
    [os] satisfies [P]. *)
Class Sound (fr : Frontier) : Type := {
  holds : (Node → Prop) → open_set fr → Prop;
  holds_new : ∀ P, holds P (open_set_new fr);
  holds_add : ∀ P node os os',
    P node → holds P os → open_set_add fr node os = Ok os' → holds P os';
  holds_get : ∀ P os node os',
    holds P os → open_set_get fr os = Some (node, os') → P node ∧ holds P os'
}.

(** The node [_search] builds for the successor [s] of [current_node] in
    direction [d]. *)
Definition child (current_node : Node) (d : direction) (s : State) : Node :=
  Node_init s (Some current_node) (Some (label d)).

(** What the search loop maintains of its nodes: the labels on the way to
    the root are those of the four directions; and, read from the root, they
    lead from the initial state to the state of the node. *)
Definition labelled (node : Node) : Prop :=
  ∃ actions, reconstruct_actions node = Ok actions
             ∧ Forall (λ a, a ∈ code_labels) actions.

Definition retraces (initial_state : State) (node : Node) : Prop :=
  ∃ actions, reconstruct_actions node = Ok actions
             ∧ replay initial_state (rev actions) = Some (state node).

(** The share of one label in the Manhattan distance, and the sum of a list
    of integers. *)
Definition tile_distance (current_state desired_state : State) (t : tile) : Z :=
  match coords_of_tile current_state t, coords_of_tile desired_state t with
  | Ok c, Ok c' =>
      Z.abs (Z.of_nat c.1 - Z.of_nat c'.1) + Z.abs (Z.of_nat c.2 - Z.of_nat c'.2)
  | _, _ => 0
  end.

Definition sumZ (l : list Z) : Z := foldr Z.add 0 l.

(** ** The object-level reading of [_move]

    Python lists are mutable objects.  A heap maps addresses to list
    objects: a column holds labels, a grid holds the addresses of its
    columns.  [deepcopy] allocates fresh objects (sharing a copy between
    aliased columns through its memo), and the swap of [_move] writes into
    the copy in place. *)
Module Store.

Definition addr : Type := nat.

Inductive obj : Type :=
  | Column (tiles : list tile)
  | Grid (columns : list addr).

Abbreviation heap := (gmap addr obj).

(** A computation on the heap that may raise. *)
Definition M (A : Type) : Type := heap → heap * res A.

Definition ret {A : Type} (a : A) : M A := λ σ, (σ, Ok a).
Definition raise {A : Type} (e : exn) : M A := λ σ, (σ, Raise e).
Definition bind {A B : Type} (m : M A) (k : A → M B) : M B := λ σ,
  match m σ with
  | (σ', Ok a) => k a σ'
  | (σ', Raise e) => (σ', Raise e)
  end.
Definition lift {A : Type} (r : res A) : M A := λ σ, (σ, r).

Global Instance M_ret : MRet M := @ret.
Global Instance M_bind : MBind M := λ A B k m, bind m k.

(** The contents of the list objects at an address; a reference that does
    not denote an object of the expected kind reads as the empty list. *)
Definition column_at (σ : heap) (c : addr) : list tile :=
  match σ !! c with
  | Some (Column tiles) => tiles
  | _ => []
  end.

Definition grid_at (σ : heap) (p : addr) : list addr :=
  match σ !! p with
  | Some (Grid columns) => columns
  | _ => []
  end.

(** The value a grid object denotes. *)
Definition value (σ : heap) (p : addr) : State :=
  column_at σ <$> grid_at σ p.

Definition read_grid (p : addr) : M (list addr) := λ σ, (σ, Ok (grid_at σ p)).
Definition read_column (c : addr) : M (list tile) :=
  λ σ, (σ, Ok (column_at σ c)).
Definition read_value (p : addr) : M State := λ σ, (σ, Ok (value σ p)).

Definition alloc (o : obj) : M addr := λ σ,
  let a := fresh (dom σ) in (<[a:=o]> σ, Ok a).

Definition store (a : addr) (o : obj) : M unit := λ σ, (<[a:=o]> σ, Ok ()).

(** [deepcopy] of a column met while copying a grid. *)
Definition deepcopy_column (memo : gmap addr addr) (c : addr)
  : M (gmap addr addr * addr) :=
  match memo !! c with
  | Some y => ret (memo, y)
  | None =>
      tiles ← read_column c;
      y ← alloc (Column tiles);
      ret (<[c:=y]> memo, y)
  end.

Fixpoint deepcopy_columns (memo : gmap addr addr) (columns : list addr)
  : M (list addr) :=
  match columns with
  | [] => ret []
  | c :: columns' =>
      '(memo, y) ← deepcopy_column memo c;
      ys ← deepcopy_columns memo columns';
      ret (y :: ys)
  end.

(** [deepcopy(state)]: the new outer list is created first and entered in
    the memo, then filled with the copies of the columns. *)
Definition deepcopy (p : addr) : M addr :=
  columns ← read_grid p;
  y ← alloc (Grid []);
  ys ← deepcopy_columns {[p := y]} columns;
  _ ← store y (Grid ys);
  ret y.

(** [state[x][y]] and [state[x][y] = v] on the heap. *)
Definition load2 (p : addr) (x y : nat) : M tile :=
  columns ← read_grid p;
  c ← lift (getitem columns x);
  tiles ← read_column c;
  lift (getitem tiles y).

Definition store2 (p : addr) (x y : nat) (v : tile) : M unit :=
  columns ← read_grid p;
  c ← lift (getitem columns x);
  tiles ← read_column c;
  tiles' ← lift (setitem tiles y v);
  store c (Column tiles').

Definition move (p : addr) (tile_to_swap : Z * Z) : M (option addr) :=
  if negb ((tile_to_swap.1 =? 0) || (tile_to_swap.2 =? 0)) then
    raise (AssertionError "Can't move diagonally.")
  else if negb ((Z.abs tile_to_swap.1 =? 1) || (Z.abs tile_to_swap.2 =? 1)) then
    raise (AssertionError "Can't move more than one space.")
  else
    s ← read_value p;
    '(x, y) ← lift (coords_of_tile s blank);
    let x2 := Z.of_nat x + tile_to_swap.1 in
    let y2 := Z.of_nat y + tile_to_swap.2 in
    columns ← read_grid p;
    if negb (in_range x2 (length columns)) then ret None
    else
      c0 ← lift (getitem columns 0);
      column0 ← read_column c0;
      if negb (in_range y2 (length column0)) then ret None
      else
        new_state ← deepcopy p;
        a ← load2 new_state (Z.to_nat x2) (Z.to_nat y2);
        b ← load2 new_state x y;
        _ ← store2 new_state x y a;
        _ ← store2 new_state (Z.to_nat x2) (Z.to_nat y2) b;
        ret (Some new_state).

(** The object at [p] is a grid whose columns are distinct column objects. *)
Definition grid_of (σ : heap) (p : addr) (columns : list addr) : Prop :=
  σ !! p = Some (Grid columns) ∧ NoDup columns ∧
  ∀ c, c ∈ columns → ∃ tiles, σ !! c = Some (Column tiles).

End Store.

(** ** main.py

    [puzzle_from_file] reads its text through the file system and converts
    the two dimensions with [int]: the file system is the function [files]
    from a name to the text [read] returns ([None] when [path.isfile] says
    no), and [int] is the conversion, both taken as arguments. *)

(** [range(n)] for an integer [n]. *)
Definition range (n : Z) : list nat := seq 0 (Z.to_nat n).

(** [state_from_line], the local function of [puzzle_from_file], with the
    [width] and [height] it closes over. *)
Definition state_from_line (width height : Z) (line : list string)
  : res State :=
  let state := (λ _ : nat, @nil tile) <$> range width in
  for_each (λ state x,
    for_each (λ state y,
      column ← getitem state x;
      t ← getitem line (Z.to_nat (Z.of_nat x + Z.of_nat y * width));
      setitem state x (column ++ [t]))
      state (range height))
    state (range width).

(** [s.split(sep)] for a one-character [sep]. *)
Fixpoint split (sep : Ascii.ascii) (s : string) : list string :=
  match s with
  | EmptyString => [EmptyString]
  | String c s' =>
      if Ascii.eqb c sep then EmptyString :: split sep s'
      else match split sep s' with
           | word :: words => String c word :: words
           | [] => [String c EmptyString]
           end
  end.

Definition newline : Ascii.ascii := "010"%char.

Definition puzzle_from_file (int : string → res Z)
    (files : string → option string) (filename : string)
  : res (State * State) :=
  match files filename with
  | None =>
      Raise (AssertionError ("File '" +:+ filename +:+ "' does not exist!"))
  | Some text =>
      let contents := split newline text in
      line0 ← getitem contents 0;
      let dimensions := split "x" line0 in
      d0 ← getitem dimensions 0;
      width ← int d0;
      d1 ← getitem dimensions 1;
      height ← int d1;
      line1 ← getitem contents 1;
      initial_state ← state_from_line width height (split " " line1);
      line2 ← getitem contents 2;
      desired_state ← state_from_line width height (split " " line2);
      Ok (initial_state, desired_state)
  end.

(** ** Further vocabulary *)

(** The direction that undoes a move. *)
Definition opposite (d : direction) : direction :=
  match d with
  | Up => Down
  | Left => Right
  | Down => Up
  | Right => Left
  end.

(** The index [x + y*width] at which [state_from_line] reads a line. *)
Definition line_index (width : Z) (x y : nat) : nat :=
  Z.to_nat (Z.of_nat x + Z.of_nat y * width).

(** [c in s]. *)
Fixpoint occurs (c : Ascii.ascii) (s : string) : bool :=
  match s with
  | EmptyString => false
  | String d s' => Ascii.eqb d c || occurs c s'
  end.

(** The error [coords_of_tile] raises for a label the state lacks. *)
Definition missing_tile (s : State) (t : tile) : exn :=
  ValueError ("tile " +:+ t +:+ " does not exist in state " +:+ str_state s).

(** Every successor of [s] is in [closed_set] or is the state of a node of
    [l]. *)
Definition covered (closed_set : list State) (l : list Node) (s : State)
  : Prop :=
  ∀ d s', move_in d s = Ok (Some s') →
          s' ∈ closed_set ∨ ∃ node, node ∈ l ∧ state node = s'.

(** A frontier that loses no node: [nodes os] lists the nodes of the open
    set [os], in some order. *)
Class Lossless (fr : Frontier) : Type := {
  nodes : open_set fr → list Node;
  nodes_new : nodes (open_set_new fr) = [];
  nodes_add : ∀ node os os',
    open_set_add fr node os = Ok os' → nodes os' ≡ₚ node :: nodes os;
  nodes_get : ∀ os node os',
    open_set_get fr os = Some (node, os') → nodes os ≡ₚ node :: nodes os';
  nodes_empty : ∀ os, open_set_get fr os = None → nodes os = []
}.

(** A lossless frontier whose [open_set_get] hands back a node of least
    depth, as long as no node is added that is less deep than a node of the
    open set.  [tidy os] is what the open set keeps to do so. *)
Class Least (fr : Frontier) `{!Lossless fr} : Type := {
  tidy : open_set fr → Prop;
  tidy_new : tidy (open_set_new fr);
  tidy_add : ∀ node os os',
    tidy os → (∀ m, m ∈ nodes os → num_parents m ≤ num_parents node) →
    open_set_add fr node os = Ok os' → tidy os';
  tidy_get : ∀ os node os',
    tidy os → open_set_get fr os = Some (node, os') →
    tidy os' ∧ ∀ m, m ∈ nodes os' → num_parents node ≤ num_parents m
}.

(** [s] is reached from [initial_state] by [k] moves. *)
Definition reach (initial_state : State) (k : nat) (s : State) : Prop :=
  ∃ actions, length actions = k ∧ replay initial_state actions = Some s.

(** The labels of the node lead from the initial state to its state, and
    its depth counts them. *)
Definition traced (initial_state : State) (node : Node) : Prop :=
  ∃ actions, reconstruct_actions node = Ok actions
             ∧ replay initial_state (rev actions) = Some (state node)
             ∧ num_parents node = Z.of_nat (length actions).

(** The heap invariant of [heapq]: no entry is below its parent. *)
Definition heap_ordered (heap : list item) : Prop :=
  ∀ i (a b : item), (0 < i)%nat → heap !! i = Some a →
                    heap !! ((i - 1) / 2)%nat = Some b → b.1 ≤ a.1.

(** The list is a heap except for the entry at [pos], which [newitem] is to
    take: the entries around [pos] are in order with each other, and the
    children of [pos] are not below [newitem]. *)
Definition hole_up (heap : list item) (pos : nat) (newitem : item) : Prop :=
  (pos < length heap)%nat
  ∧ (∀ i (a b : item), (0 < i)%nat → i ≠ pos → ((i - 1) / 2)%nat ≠ pos →
       heap !! i = Some a → heap !! ((i - 1) / 2)%nat = Some b → b.1 ≤ a.1)
  ∧ (∀ c (a b : item), (0 < pos)%nat → (0 < c)%nat →
       ((c - 1) / 2)%nat = pos →
       heap !! c = Some a → heap !! ((pos - 1) / 2)%nat = Some b → b.1 ≤ a.1)
  ∧ (∀ c (a : item), (0 < c)%nat → ((c - 1) / 2)%nat = pos →
       heap !! c = Some a → newitem.1 ≤ a.1).

(** The list is a heap except for the entry at [pos], whose children are to
    move up: every entry is in order with its parent unless the parent is at
    [pos], and the children of [pos] are not below its parent. *)
Definition hole_down (heap : list item) (pos : nat) : Prop :=
  (pos < length heap)%nat
  ∧ (∀ i (a b : item), (0 < i)%nat → ((i - 1) / 2)%nat ≠ pos →
       heap !! i = Some a → heap !! ((i - 1) / 2)%nat = Some b → b.1 ≤ a.1)
  ∧ (∀ c (a b : item), (0 < pos)%nat → (0 < c)%nat →
       ((c - 1) / 2)%nat = pos →
       heap !! c = Some a → heap !! ((pos - 1) / 2)%nat = Some b → b.1 ≤ a.1).

(** The instances used as examples below; columns first, as in the source. *)
Module Examples.
(** The 2x3 scenario of the specification. *)
Definition initial_a : State := [["1"; "2"]; ["3"; "4"]; ["0"; "5"]].
Definition desired_a : State := [["3"; "1"]; ["2"; "4"]; ["5"; "0"]].
(** One move, and two moves, away from [initial_a]. *)
Definition one_down : State := [["1"; "2"]; ["3"; "4"]; ["5"; "0"]].
Definition down_left : State := [["1"; "2"]; ["3"; "0"]; ["5"; "4"]].
(** An instance fourteen moves apart. *)
Definition initial_b : State := [["3"; "4"]; ["5"; "2"]; ["0"; "1"]].
Definition desired_b : State := [["1"; "2"]; ["3"; "0"]; ["4"; "5"]].
(** An instance nine moves apart; its desired state is [one_down]. *)
Definition initial_c : State := [["3"; "1"]; ["4"; "5"]; ["0"; "2"]].
(** A 2x2 instance whose desired state cannot be reached. *)
Definition initial_d : State := [["1"; "0"]; ["2"; "3"]].
Definition desired_d : State := [["1"; "2"]; ["0"; "3"]].
(** A heap holding [initial_a]: the grid object at address 0 and its three
    column objects. *)
Definition heap_a : Store.heap :=
  <[0%nat:=Store.Grid [1; 2; 3]%nat]>
    (<[1%nat:=Store.Column ["1"; "2"]]>
       (<[2%nat:=Store.Column ["3"; "4"]]>
          (<[3%nat:=Store.Column ["0"; "5"]]> ∅))).
(** A grid whose second column is shorter than its first. *)
Definition ragged : State := [["1"; "0"]; ["2"]].
(** The line of the example file of [puzzle_from_file], and the file. *)
Definition line_a : list string := ["1"; "2"; "3"; "4"; "0"; "5"].
Definition line_b : list string := ["3"; "1"; "2"; "4"; "5"; "0"].
Definition file_a : string :=
  join (String newline "") ["2x3"; "1 2 3 4 0 5"; "3 1 2 4 5 0"].
(** [int] on the two dimensions of [file_a]. *)
Definition int_a (s : string) : res Z :=
  if String.eqb s "2" then Ok 2
  else if String.eqb s "3" then Ok 3
  else Raise (ValueError ("invalid literal for int() with base 10: "
                          +:+ repr_str s)).
(** A file that lacks its third line. *)
Definition file_short : string :=
  join (String newline "") ["2x3"; "1 2 3 4 0 5"].
End Examples.

(** * Properties *)

Lemma bind_Ok {A B} (a : A) (k : A → res B) : (x ← Ok a; k x) = k a.
Proof. reflexivity. Qed.

(** ** The bounded loops run to their end

    The loops of [bisect] and [heapq] are written with a fuel argument; the
    fuel their callers give is enough: any larger amount gives the same
    result. *)

Lemma midpoint_bounds (lo hi : nat) :
  (lo < hi)%nat → (lo ≤ (lo + hi) / 2 < hi)%nat.
Proof.
  intros H. pose proof (Nat.div_mod_eq (lo + hi) 2).
  pose proof (Nat.mod_upper_bound (lo + hi) 2). lia.
Qed.

Lemma parent_bound (pos : nat) : (0 < pos)%nat → ((pos - 1) / 2 < pos)%nat.
Proof.
  intros H. pose proof (Nat.div_mod_eq (pos - 1) 2).
  pose proof (Nat.mod_upper_bound (pos - 1) 2). lia.
Qed.

Section Fuel.
#[local] Arguments Nat.div : simpl never.

Lemma bisect_left_loop_fuel a x fuel : ∀ fuel' lo hi,
  (hi - lo ≤ fuel)%nat → (hi - lo ≤ fuel')%nat →
  bisect_left_loop fuel a x lo hi = bisect_left_loop fuel' a x lo hi.
Proof.
  induction fuel as [| fuel IH]; intros [| fuel'] lo hi Hf Hf'; simpl;
    try reflexivity;
    destruct (Nat.ltb_spec lo hi) as [Hlt | Hge]; try reflexivity; try lia.
  pose proof (midpoint_bounds lo hi Hlt).
  destruct (a !! _) as [am |]; [| reflexivity].
  destruct (state_ltb am x); apply IH; lia.
Qed.

Lemma bisect_right_loop_fuel a x fuel : ∀ fuel' lo hi,
  (hi - lo ≤ fuel)%nat → (hi - lo ≤ fuel')%nat →
  bisect_right_loop fuel a x lo hi = bisect_right_loop fuel' a x lo hi.
Proof.
  induction fuel as [| fuel IH]; intros [| fuel'] lo hi Hf Hf'; simpl;
    try reflexivity;
    destruct (Nat.ltb_spec lo hi) as [Hlt | Hge]; try reflexivity; try lia.
  pose proof (midpoint_bounds lo hi Hlt).
  destruct (a !! _) as [am |]; [| reflexivity].
  destruct (state_ltb x am); apply IH; lia.
Qed.

Lemma _siftdown_loop_fuel newitem startpos fuel : ∀ fuel' heap pos,
  (pos ≤ fuel)%nat → (pos ≤ fuel')%nat →
  _siftdown_loop fuel heap newitem startpos pos
  = _siftdown_loop fuel' heap newitem startpos pos.
Proof.
  induction fuel as [| fuel IH]; intros [| fuel'] heap pos Hf Hf'; simpl;
    try reflexivity;
    destruct (Nat.ltb_spec startpos pos) as [Hlt | Hge]; try reflexivity;
    try lia.
  pose proof (parent_bound pos ltac:(lia)).
  destruct (heap !! _) as [parent_item |]; [| reflexivity].
  destruct (item_lt newitem parent_item); [| reflexivity]. apply IH; lia.
Qed.

Lemma _siftup_loop_fuel endpos fuel : ∀ fuel' heap pos childpos,
  (endpos - childpos ≤ fuel)%nat → (endpos - childpos ≤ fuel')%nat →
  _siftup_loop fuel heap endpos pos childpos
  = _siftup_loop fuel' heap endpos pos childpos.
Proof.
  induction fuel as [| fuel IH]; intros [| fuel'] heap pos childpos Hf Hf';
    simpl; try reflexivity;
    destruct (Nat.ltb_spec childpos endpos) as [Hlt | Hge]; try reflexivity;
    try lia.
  set (c := match heap !! childpos with
            | Some c =>
                match heap !! (childpos + 1)%nat with
                | Some r =>
                    if (childpos + 1 <? endpos)%nat && negb (item_lt c r)
                    then (childpos + 1)%nat else childpos
                | None => childpos
                end
            | None => childpos
            end).
  assert (childpos ≤ c)%nat as Hc.
  { unfold c. destruct (heap !! childpos); [| lia].
    destruct (heap !! (childpos + 1)%nat); [| lia].
    destruct (_ && _); lia. }
  destruct (heap !! c) as [ch |]; [| reflexivity]. apply IH; lia.
Qed.
End Fuel.

(** ** The order on states *)

Section StrictTotalFacts.
Context {A : Type} (ltb : A → A → bool) `{!StrictTotal ltb}.

Lemma ltb_asym a b : ltb a b = true → ltb b a = false.
Proof.
  intros H. destruct (ltb b a) eqn:H'; [| reflexivity].
  pose proof (ltb_trans _ _ _ H H') as Hc. now rewrite ltb_irrefl in Hc.
Qed.

Lemma ltb_le_lt a b c : ltb b a = false → ltb b c = true → ltb a c = true.
Proof.
  intros Hab Hbc. destruct (ltb a b) eqn:H.
  - eapply ltb_trans; eauto.
  - now rewrite (ltb_connex _ _ H Hab).
Qed.

Lemma ltb_lt_le a b c : ltb a b = true → ltb c b = false → ltb a c = true.
Proof.
  intros Hab Hbc. destruct (ltb b c) eqn:H.
  - eapply ltb_trans; eauto.
  - now rewrite <- (ltb_connex _ _ H Hbc).
Qed.
End StrictTotalFacts.

Lemma ascii_compare_cases (a b : ascii) :
  match Ascii.compare a b with
  | Eq => a = b
  | Lt => (N_of_ascii a < N_of_ascii b)%N
  | Gt => (N_of_ascii b < N_of_ascii a)%N
  end.
Proof.
  destruct (Ascii.compare a b) eqn:H.
  - now apply Ascii.compare_eq_iff.
  - now apply N.compare_lt_iff.
  - now apply N.compare_gt_iff.
Qed.

Lemma string_compare_refl (s : string) : String.compare s s = Eq.
Proof.
  induction s as [| c s IH]; [reflexivity |]. simpl.
  pose proof (ascii_compare_cases c c) as H.
  destruct (Ascii.compare c c); [exact IH | lia..].
Qed.

Lemma string_compare_trans (s1 s2 s3 : string) :
  String.compare s1 s2 = Lt → String.compare s2 s3 = Lt →
  String.compare s1 s3 = Lt.
Proof.
  revert s2 s3. induction s1 as [| c1 s1 IH]; intros [| c2 s2] [| c3 s3];
    simpl; try discriminate; try reflexivity.
  pose proof (ascii_compare_cases c1 c2) as H12.
  pose proof (ascii_compare_cases c2 c3) as H23.
  pose proof (ascii_compare_cases c1 c3) as H13.
  destruct (Ascii.compare c1 c2), (Ascii.compare c2 c3),
    (Ascii.compare c1 c3); subst; try discriminate; try reflexivity;
    try lia; try apply IH.
Qed.

Global Instance string_ltb_strict_total : StrictTotal String.ltb.
Proof.
  split; unfold String.ltb.
  - intros s. now rewrite string_compare_refl.
  - intros s1 s2 s3 H12 H23.
    destruct (String.compare s1 s2) eqn:E12; try discriminate.
    destruct (String.compare s2 s3) eqn:E23; try discriminate.
    now rewrite (string_compare_trans _ _ _ E12 E23).
  - intros s1 s2 H12 H21. rewrite String.compare_antisym in H21.
    destruct (String.compare s1 s2) eqn:E; try discriminate.
    now apply String.compare_eq_iff.
Qed.

Section ListOrder.
Context {A : Type} (eqb ltb : A → A → bool) `{!StrictTotal ltb}.
Hypothesis eqb_eq : ∀ a b, eqb a b = true ↔ a = b.

Lemma eqb_same a : eqb a a = true.
Proof. now apply eqb_eq. Qed.

Global Instance list_ltb_strict_total : StrictTotal (list_ltb eqb ltb).
Proof.
  split.
  - induction a as [| x a IH]; [reflexivity |]. simpl. now rewrite eqb_same.
  - induction a as [| x a IH]; intros [| y b] [| z c]; simpl;
      try discriminate; try reflexivity.
    destruct (eqb x y) eqn:Exy, (eqb y z) eqn:Eyz;
      try apply eqb_eq in Exy; try apply eqb_eq in Eyz; subst.
    + rewrite eqb_same. apply IH.
    + rewrite Eyz. tauto.
    + rewrite Exy. tauto.
    + intros Hxy Hyz. pose proof (ltb_trans _ _ _ Hxy Hyz) as Hxz.
      destruct (eqb x z) eqn:Exz; [| exact Hxz].
      apply eqb_eq in Exz. subst. now rewrite ltb_irrefl in Hxz.
  - induction a as [| x a IH]; intros [| y b]; simpl; try discriminate;
      try reflexivity.
    destruct (eqb x y) eqn:Exy.
    + apply eqb_eq in Exy. subst. rewrite eqb_same. intros H1 H2.
      f_equal. now apply IH.
    + destruct (eqb y x) eqn:Eyx.
      { apply eqb_eq in Eyx. subst. now rewrite eqb_same in Exy. }
      intros H1 H2. pose proof (ltb_connex _ _ H1 H2) as ->.
      now rewrite eqb_same in Exy.
Qed.
End ListOrder.

Global Instance column_ltb_strict_total : StrictTotal column_ltb.
Proof. apply list_ltb_strict_total; [apply _ | apply String.eqb_eq]. Qed.

Global Instance state_ltb_strict_total : StrictTotal state_ltb.
Proof.
  apply list_ltb_strict_total; [apply _ |].
  intros a b. unfold column_eqb. apply bool_decide_eq_true.
Qed.

(** ** The closed set is kept in order, and searched exactly *)

Section Bisect.
#[local] Arguments Nat.div : simpl never.
Context (a : list State) (x : State).
Hypothesis a_ordered : ordered a.

(** [bisect_left]: everything before the index is below [x], nothing from
    the index on is. *)
Lemma bisect_left_loop_spec fuel : ∀ lo hi,
  (lo ≤ hi ≤ length a)%nat → (hi - lo ≤ fuel)%nat →
  (∀ j s, (j < lo)%nat → a !! j = Some s → state_ltb s x = true) →
  (∀ j s, (hi ≤ j)%nat → a !! j = Some s → state_ltb s x = false) →
  let i := bisect_left_loop fuel a x lo hi in
  (i ≤ length a)%nat ∧
  (∀ j s, (j < i)%nat → a !! j = Some s → state_ltb s x = true) ∧
  (∀ j s, (i ≤ j)%nat → a !! j = Some s → state_ltb s x = false).
Proof.
  induction fuel as [| fuel IH]; intros lo hi Hb Hf Hlo Hhi; simpl.
  - assert (lo = hi) as -> by lia. repeat split; [lia | exact Hlo | exact Hhi].
  - destruct (Nat.ltb_spec lo hi) as [Hlt | Hge].
    2: { assert (lo = hi) as -> by lia.
         repeat split; [lia | exact Hlo | exact Hhi]. }
    pose proof (midpoint_bounds lo hi Hlt) as Hmid.
    set (mid := ((lo + hi) / 2)%nat) in *.
    destruct (lookup_lt_is_Some_2 a mid) as [am Ham]; [lia |]. rewrite Ham.
    destruct (state_ltb am x) eqn:Hcmp.
    + apply IH; [lia | lia | | exact Hhi].
      intros j s Hj Hs. destruct (decide (j = mid)) as [-> |].
      * congruence.
      * eapply (ltb_le_lt state_ltb); [| exact Hcmp].
        apply (a_ordered j mid); [lia | exact Hs | exact Ham].
    + apply IH; [lia | lia | exact Hlo |].
      intros j s Hj Hs. destruct (decide (j = mid)) as [-> |].
      * congruence.
      * destruct (state_ltb s x) eqn:Hsx; [| reflexivity].
        assert (state_ltb am x = true) as Hc; [| congruence].
        eapply (ltb_le_lt state_ltb); [| exact Hsx].
        apply (a_ordered mid j); [lia | exact Ham | exact Hs].
Qed.

(** [bisect_right]: nothing before the index is above [x], everything from
    the index on is. *)
Lemma bisect_right_loop_spec fuel : ∀ lo hi,
  (lo ≤ hi ≤ length a)%nat → (hi - lo ≤ fuel)%nat →
  (∀ j s, (j < lo)%nat → a !! j = Some s → state_ltb x s = false) →
  (∀ j s, (hi ≤ j)%nat → a !! j = Some s → state_ltb x s = true) →
  let i := bisect_right_loop fuel a x lo hi in
  (i ≤ length a)%nat ∧
  (∀ j s, (j < i)%nat → a !! j = Some s → state_ltb x s = false) ∧
  (∀ j s, (i ≤ j)%nat → a !! j = Some s → state_ltb x s = true).
Proof.
  induction fuel as [| fuel IH]; intros lo hi Hb Hf Hlo Hhi; simpl.
  - assert (lo = hi) as -> by lia. repeat split; [lia | exact Hlo | exact Hhi].
  - destruct (Nat.ltb_spec lo hi) as [Hlt | Hge].
    2: { assert (lo = hi) as -> by lia.
         repeat split; [lia | exact Hlo | exact Hhi]. }
    pose proof (midpoint_bounds lo hi Hlt) as Hmid.
    set (mid := ((lo + hi) / 2)%nat) in *.
    destruct (lookup_lt_is_Some_2 a mid) as [am Ham]; [lia |]. rewrite Ham.
    destruct (state_ltb x am) eqn:Hcmp.
    + apply IH; [lia | lia | exact Hlo |].
      intros j s Hj Hs. destruct (decide (j = mid)) as [-> |].
      * congruence.
      * eapply (ltb_lt_le state_ltb); [exact Hcmp |].
        apply (a_ordered mid j); [lia | exact Ham | exact Hs].
    + apply IH; [lia | lia | | exact Hhi].
      intros j s Hj Hs. destruct (decide (j = mid)) as [-> |].
      * congruence.
      * destruct (state_ltb x s) eqn:Hxs; [| reflexivity].
        assert (state_ltb x am = true) as Hc; [| congruence].
        eapply (ltb_lt_le state_ltb); [exact Hxs |].
        apply (a_ordered j mid); [lia | exact Hs | exact Ham].
Qed.

(** [_bisect_index] finds [x] exactly when it is in the list. *)
Lemma _bisect_index_Some : is_Some (_bisect_index a x) ↔ x ∈ a.
Proof.
  unfold _bisect_index.
  destruct (bisect_left_loop_spec (length a) 0 (length a))
    as (Hi & Hbelow & Habove); [lia | lia | intros; lia | |].
  { intros j s Hj Hs. apply lookup_lt_Some in Hs. lia. }
  fold (bisect_left a x) in *. set (i := bisect_left a x) in *.
  split.
  - case_bool_decide as Hne; [| now intros [? [=]]].
    destruct (a !! i) as [c |] eqn:Hc; [| now intros [? [=]]].
    unfold state_eqb. case_bool_decide as Heq; [| now intros [? [=]]].
    subst c. intros _. eapply list_elem_of_lookup_2; eauto.
  - intros [j Hj]%list_elem_of_lookup.
    assert (i ≤ j)%nat as Hij.
    { destruct (Nat.le_gt_cases i j) as [? | Hlt]; [done |].
      pose proof (Hbelow j x Hlt Hj) as Hc.
      now rewrite (ltb_irrefl (ltb := state_ltb)) in Hc. }
    pose proof (lookup_lt_Some _ _ _ Hj) as Hjlen.
    rewrite bool_decide_eq_true_2 by lia.
    destruct (lookup_lt_is_Some_2 a i) as [c Hc]; [lia |]. rewrite Hc.
    assert (c = x) as ->.
    { apply (ltb_connex (ltb := state_ltb)); [now apply (Habove i) |].
      destruct (decide (i = j)) as [-> |].
      - assert (c = x) as -> by congruence.
        apply (ltb_irrefl (ltb := state_ltb)).
      - apply (a_ordered i j); [lia | exact Hc | exact Hj]. }
    unfold state_eqb. rewrite bool_decide_eq_true_2 by done. eauto.
Qed.

Lemma _state_is_valid_spec : _state_is_valid (Some x) a = true ↔ x ∉ a.
Proof.
  unfold _state_is_valid. pose proof _bisect_index_Some as H.
  destruct (_bisect_index a x) as [i |].
  - split; [discriminate |]. intros Hn. exfalso. apply Hn, H. eauto.
  - split; [| reflexivity]. intros _ Hin. apply H in Hin as [? [=]].
Qed.
End Bisect.

Lemma lookup_list_insert_at {A} (a : list A) i x j :
  (i ≤ length a)%nat →
  list_insert_at a i x !! j
  = if decide (j < i)%nat then a !! j
    else if decide (j = i) then Some x else a !! (j - 1)%nat.
Proof.
  intros Hi. unfold list_insert_at.
  destruct (decide (j < i)%nat) as [Hlt | Hge].
  - rewrite lookup_app_l by (rewrite length_take; lia).
    now apply lookup_take_lt.
  - rewrite lookup_app_r by (rewrite length_take; lia).
    rewrite length_take, Nat.min_l by lia.
    destruct (decide (j = i)) as [-> | Hne].
    + now rewrite Nat.sub_diag.
    + destruct (j - i)%nat as [| k] eqn:Hk; [lia |]. simpl.
      rewrite lookup_drop. f_equal. lia.
Qed.

Lemma insort_ordered (a : list State) (x : State) :
  ordered a → ordered (insort a x).
Proof.
  intros Ha. unfold insort, bisect_right.
  destruct (bisect_right_loop_spec a x Ha (length a) 0 (length a))
    as (Hi & Hbelow & Habove); [lia | lia | intros; lia | |].
  { intros j s Hj Hs. apply lookup_lt_Some in Hs. lia. }
  set (i := bisect_right_loop (length a) a x 0 (length a)) in *.
  intros p q s t Hpq. rewrite !lookup_list_insert_at by exact Hi.
  repeat case_decide; try lia; intros Hs Ht; simplify_eq.
  - now apply (Ha p q).
  - now apply (Hbelow p).
  - apply (Ha p (q - 1)%nat); [lia | done..].
  - apply (ltb_asym state_ltb). apply (Habove (q - 1)%nat); [lia | done].
  - apply (Ha (p - 1)%nat (q - 1)%nat); [lia | done..].
Qed.

Lemma elem_of_insort (a : list State) (x y : State) :
  y ∈ insort a x ↔ y = x ∨ y ∈ a.
Proof.
  unfold insort, list_insert_at.
  assert (y ∈ a ↔ y ∈ take (bisect_right a x) a ∨ y ∈ drop (bisect_right a x) a)
    as -> by now rewrite <- elem_of_app, take_drop.
  rewrite elem_of_app, elem_of_cons. tauto.
Qed.

Lemma length_insort (a : list State) (x : State) :
  length (insort a x) = S (length a).
Proof.
  unfold insort, list_insert_at. rewrite length_app. simpl.
  pose proof (f_equal length (take_drop (bisect_right a x) a)) as H.
  rewrite length_app in H. lia.
Qed.

(** The closed set of the search loop stays in order, so the test
    [_state_is_valid] is the test "not in the closed set" throughout. *)
Lemma search_loop_ordered fr desired_state fuel :
  ∀ closed_set current_node os closed_set' node,
  ordered closed_set →
  search_loop fr desired_state fuel closed_set current_node os
  = Some (Ok (closed_set', node)) →
  ordered closed_set'.
Proof.
  induction fuel as [| fuel IH]; intros closed_set current_node os closed_set'
    node Hord; simpl; case_bool_decide; try discriminate;
    try (now intros [= <- <-]).
  destruct (expand _ _ _ _) as [os1 | e]; [| discriminate].
  destruct (open_set_get fr os1) as [[n os2] |].
  - apply IH. now apply insort_ordered.
  - intros [= <- <-]. now apply insort_ordered.
Qed.

Lemma search_trace_ordered fr desired_state fuel initial_state closed_set node :
  search_trace fr desired_state fuel initial_state
  = Some (Ok (closed_set, node)) →
  ordered closed_set.
Proof.
  apply search_loop_ordered. intros i j s t _ Hi. discriminate.
Qed.

(** ** The search loop stops at once on a solved instance *)

Lemma search_trace_solved (fr : Frontier) (s : State) (fuel : nat) :
  search_trace fr s fuel s = Some (Ok ([], Some (Node_init s None None))).
Proof.
  unfold search_trace. destruct fuel; simpl;
    rewrite bool_decide_eq_false_2; auto.
Qed.

Lemma _search_solved (fr : Frontier) (s : State) (fuel : nat) :
  _search fr s fuel s = Some (Ok (0%nat, Some [])).
Proof. unfold _search. now rewrite search_trace_solved. Qed.

(** C9: when [initial_state] equals [desired_state], each of the seven
    strategies of [methods] returns the count 0 and the empty action
    sequence, whatever the fuel; the loop body is never entered: the closed
    set is still empty and the node returned is the root. *)
Theorem C9_solved_instance_returns_at_once :
  Forall (λ m : string * strategy,
            ∀ fuel s, m.2 fuel s s = Some (Ok (0%nat, Some []))) methods
  ∧ ∀ (fr : Frontier) fuel s,
      search_trace fr s fuel s = Some (Ok ([], Some (Node_init s None None))).
Proof.
  split; [| intros; apply search_trace_solved].
  unfold methods. repeat constructor; intros fuel s; simpl;
    apply _search_solved.
Qed.

(** ** [strategy_by_name] *)

Lemma strategy_by_name_unknown name :
  methods_get name = None →
  strategy_by_name name
  = Raise (AssertionError ("Search strategy '" +:+ name +:+
      "' is not implemented. Available: AS, BFS, DFS, DIJ, DL, GBFS, HC")).
Proof.
  intros H. unfold strategy_by_name. rewrite H.
  rewrite bool_decide_eq_false_2 by (intros [? ?]; discriminate).
  reflexivity.
Qed.

Lemma strategy_by_name_known name f :
  (name, f) ∈ methods → strategy_by_name name = Ok f.
Proof.
  unfold methods. rewrite !elem_of_cons, elem_of_nil.
  intros [H | [H | [H | [H | [H | [H | [H | []]]]]]]]; injection H as -> ->;
    reflexivity.
Qed.

(** C7: the membership test of [strategy_by_name] looks the name up as it
    is given, before it is upper-cased: the lower-case "dfs" is refused with
    the assertion message, which lists the codes in alphabetical order,
    while "DFS" selects depth-first. *)
Theorem C7_lowercase_name_is_refused :
  strategy_by_name "dfs"
  = Raise (AssertionError
      "Search strategy 'dfs' is not implemented. Available: AS, BFS, DFS, DIJ, DL, GBFS, HC")
  ∧ upper "dfs" = "DFS"
  ∧ strategy_by_name "DFS" = Ok depth_first.
Proof. repeat split; reflexivity. Qed.

(** ** Cells of a grid *)

Lemma cell_cons_0 c (s : State) j : cell (c :: s) 0 j = c !! j.
Proof. reflexivity. Qed.

Lemma cell_cons_S c (s : State) i j : cell (c :: s) (S i) j = cell s i j.
Proof. reflexivity. Qed.

Lemma cell_Some (s : State) x y t :
  cell s x y = Some t ↔ ∃ column, s !! x = Some column ∧ column !! y = Some t.
Proof.
  unfold cell. destruct (s !! x) as [column |]; simpl; split.
  - eauto.
  - now intros (? & [= <-] & ?).
  - discriminate.
  - now intros (? & [=] & _).
Qed.

Lemma elem_of_concat_cell (s : State) t :
  t ∈ concat s ↔ ∃ x y, cell s x y = Some t.
Proof.
  induction s as [| c s IH]; simpl.
  - rewrite elem_of_nil. split; [tauto |]. intros (x & y & H). discriminate.
  - rewrite elem_of_app, IH, list_elem_of_lookup. split.
    + intros [[j Hj] | (x & y & H)].
      * now exists 0%nat, j.
      * now exists (S x), y.
    + intros ([| x] & y & H); [left; exists y; exact H | right; eauto].
Qed.

Lemma NoDup_concat_cells (s : State) : NoDup (concat s) ↔ cells_injective s.
Proof.
  unfold cells_injective. induction s as [| c s IH]; simpl.
  - split; [| constructor]. intros _ x y x' y' t H. discriminate.
  - rewrite NoDup_app, IH. split.
    + intros (Hc & Hdisj & Hs) x y x' y' t H H'.
      destruct x as [| x], x' as [| x']; rewrite ?cell_cons_0, ?cell_cons_S in *.
      * split; [reflexivity |]. eapply NoDup_lookup; eauto.
      * exfalso. eapply Hdisj; [eapply list_elem_of_lookup_2; eauto |].
        apply elem_of_concat_cell; eauto.
      * exfalso. eapply Hdisj; [eapply list_elem_of_lookup_2; eauto |].
        apply elem_of_concat_cell; eauto.
      * destruct (Hs _ _ _ _ _ H H'). split; congruence.
    + intros Hinj. split; [| split].
      * apply NoDup_alt. intros i j t Hi Hj.
        now destruct (Hinj 0%nat i 0%nat j t Hi Hj).
      * intros t [j Hj]%list_elem_of_lookup (x & y & H)%elem_of_concat_cell.
        now destruct (Hinj 0%nat j (S x) y t Hj H).
      * intros x y x' y' t H H'.
        destruct (Hinj (S x) y (S x') y' t H H'). split; congruence.
Qed.

(** ** [coords_of_tile] *)

Lemma index_in_column_spec column t y0 :
  match index_in_column column t y0 with
  | Some y => ∃ k, y = (y0 + k)%nat ∧ column !! k = Some t
  | None => t ∉ column
  end.
Proof.
  revert y0. induction column as [| u column IH]; intros y0; simpl.
  - apply not_elem_of_nil.
  - destruct (String.eqb_spec u t) as [-> | Hne].
    + exists 0%nat. split; [lia | reflexivity].
    + specialize (IH (S y0)). destruct (index_in_column column t (S y0)).
      * destruct IH as (k & -> & Hk). exists (S k). split; [lia | exact Hk].
      * rewrite elem_of_cons. intros [-> | H]; [now apply Hne | now apply IH].
Qed.

Lemma coords_from_spec (s : State) t x0 :
  match coords_from s t x0 with
  | Some (x, y) => ∃ k, x = (x0 + k)%nat ∧ cell s k y = Some t
  | None => t ∉ concat s
  end.
Proof.
  revert x0. induction s as [| c s IH]; intros x0; simpl.
  - apply not_elem_of_nil.
  - pose proof (index_in_column_spec c t 0) as Hc.
    destruct (index_in_column c t 0) as [y |].
    + destruct Hc as (k & -> & Hk). exists 0%nat. split; [lia | exact Hk].
    + specialize (IH (S x0)). destruct (coords_from s t (S x0)) as [[x y] |].
      * destruct IH as (k & -> & Hk). exists (S k). split; [lia | exact Hk].
      * rewrite elem_of_app. tauto.
Qed.

Lemma coords_of_tile_Ok (s : State) t x y :
  coords_of_tile s t = Ok (x, y) → cell s x y = Some t.
Proof.
  unfold coords_of_tile. pose proof (coords_from_spec s t 0) as H.
  destruct (coords_from s t 0) as [[x' y'] |]; [| discriminate].
  intros [= -> ->]. now destruct H as (k & -> & Hk).
Qed.

Lemma coords_of_tile_elem (s : State) t :
  t ∈ concat s → ∃ x y, coords_of_tile s t = Ok (x, y).
Proof.
  unfold coords_of_tile. pose proof (coords_from_spec s t 0) as H.
  destruct (coords_from s t 0) as [[x' y'] |]; [eauto | tauto].
Qed.

Lemma coords_of_tile_Raise (s : State) t e :
  coords_of_tile s t = Raise e → t ∉ concat s.
Proof.
  unfold coords_of_tile. pose proof (coords_from_spec s t 0) as H.
  destruct (coords_from s t 0) as [[x' y'] |]; [discriminate | tauto].
Qed.

Lemma coords_of_tile_cell (s : State) t x y :
  NoDup (concat s) → cell s x y = Some t → coords_of_tile s t = Ok (x, y).
Proof.
  intros Hnd%NoDup_concat_cells Hc.
  destruct (coords_of_tile_elem s t) as (x' & y' & H).
  { apply elem_of_concat_cell. eauto. }
  rewrite H. apply coords_of_tile_Ok in H.
  destruct (Hnd _ _ _ _ _ H Hc) as [-> ->]. reflexivity.
Qed.

(** ** Writing one cell, and swapping two *)

Lemma length_set_cell (s : State) x y v : length (set_cell s x y v) = length s.
Proof. apply length_alter. Qed.

Lemma shape_set_cell (s : State) x y v :
  length <$> set_cell s x y v = length <$> s.
Proof.
  unfold set_cell. apply list_eq. intros i. rewrite !list_lookup_fmap.
  destruct (decide (x = i)) as [-> |].
  - rewrite list_lookup_alter_eq. destruct (s !! i); simpl; [| reflexivity].
    now rewrite length_insert.
  - now rewrite list_lookup_alter_ne.
Qed.

Lemma cell_set_cell (s : State) x y v i j :
  is_Some (cell s x y) →
  cell (set_cell s x y v) i j
  = if decide (i = x ∧ j = y) then Some v else cell s i j.
Proof.
  intros [old (c & Hx & Hy)%cell_Some]. unfold cell, set_cell.
  destruct (decide (x = i)) as [-> |].
  - rewrite list_lookup_alter_eq, Hx. simpl.
    destruct (decide (y = j)) as [-> |].
    + rewrite decide_True by done.
      apply list_lookup_insert_eq. eapply lookup_lt_Some; eauto.
    + rewrite decide_False by (intros [_ ?]; congruence).
      now apply list_lookup_insert_ne.
  - rewrite list_lookup_alter_ne by done.
    now rewrite decide_False by (intros [? _]; congruence).
Qed.

Lemma setitem2_Ok (s : State) x y v :
  is_Some (cell s x y) → setitem2 s x y v = Ok (set_cell s x y v).
Proof.
  intros [old (c & Hx & Hy)%cell_Some]. unfold setitem2, getitem, setitem.
  rewrite Hx. simpl.
  rewrite decide_True by (eapply lookup_lt_Some; eauto). simpl.
  rewrite decide_True by (eapply lookup_lt_Some; eauto).
  f_equal. unfold set_cell. apply list_eq. intros i.
  destruct (decide (x = i)) as [-> |].
  - rewrite list_lookup_alter_eq, Hx. simpl.
    apply list_lookup_insert_eq. eapply lookup_lt_Some; eauto.
  - now rewrite list_lookup_alter_ne, list_lookup_insert_ne by done.
Qed.

Lemma setitem2_Raise (s : State) x y v :
  cell s x y = None → ∃ e, setitem2 s x y v = Raise e.
Proof.
  unfold cell, setitem2, getitem, setitem. destruct (s !! x) as [c |]; simpl.
  - intros H%lookup_ge_None. rewrite decide_False by lia. simpl. eauto.
  - eauto.
Qed.

Lemma getitem2_cell (s : State) x y :
  getitem2 s x y = match cell s x y with Some t => Ok t | None => Raise IndexError end.
Proof.
  unfold getitem2, getitem, cell. destruct (s !! x) as [c |]; reflexivity.
Qed.

Lemma cell_swap_cells (s : State) x y x2 y2 a b i j :
  cell s x y = Some b → cell s x2 y2 = Some a →
  cell (swap_cells s x y x2 y2) i j
  = if decide (i = x2 ∧ j = y2) then Some b
    else if decide (i = x ∧ j = y) then Some a else cell s i j.
Proof.
  intros Hb Ha. unfold swap_cells. rewrite Ha, Hb.
  assert (is_Some (cell s x y)) as Hs by eauto.
  rewrite cell_set_cell.
  - destruct (decide (i = x2 ∧ j = y2)); [reflexivity |].
    now apply cell_set_cell.
  - rewrite cell_set_cell by exact Hs. destruct (decide _); eauto.
Qed.

Lemma shape_swap_cells (s : State) x y x2 y2 :
  length <$> swap_cells s x y x2 y2 = length <$> s.
Proof.
  unfold swap_cells. destruct (cell s x2 y2), (cell s x y); try reflexivity.
  now rewrite !shape_set_cell.
Qed.

Lemma length_swap_cells (s : State) x y x2 y2 :
  length (swap_cells s x y x2 y2) = length s.
Proof.
  rewrite <- (length_fmap length), shape_swap_cells. apply length_fmap.
Qed.

Lemma swap_cells_elem (s : State) x y x2 y2 a b t :
  cell s x y = Some b → cell s x2 y2 = Some a →
  t ∈ concat (swap_cells s x y x2 y2) ↔ t ∈ concat s.
Proof.
  intros Hb Ha. rewrite !elem_of_concat_cell. split.
  - intros (i & j & H). rewrite (cell_swap_cells _ _ _ _ _ a b) in H by done.
    repeat case_decide; simplify_eq; eauto.
  - intros (i & j & H).
    destruct (decide (i = x ∧ j = y)) as [[-> ->] |].
    { exists x2, y2. rewrite (cell_swap_cells _ _ _ _ _ a b) by done.
      rewrite decide_True by done. congruence. }
    destruct (decide (i = x2 ∧ j = y2)) as [[-> ->] |].
    { exists x, y. rewrite (cell_swap_cells _ _ _ _ _ a b) by done.
      rewrite decide_False by (intros [? ?]; subst; tauto).
      rewrite decide_True by done. congruence. }
    exists i, j. rewrite (cell_swap_cells _ _ _ _ _ a b) by done.
    now rewrite !decide_False by done.
Qed.

Lemma swap_cells_injective (s : State) x y x2 y2 a b :
  cell s x y = Some b → cell s x2 y2 = Some a →
  cells_injective s → cells_injective (swap_cells s x y x2 y2).
Proof.
  intros Hb Ha Hinj i j i' j' t H H'.
  rewrite (cell_swap_cells _ _ _ _ _ a b) in H, H' by done.
  repeat case_decide; simplify_eq;
    repeat match goal with
    | H1 : cell s ?p ?q = Some ?t, H2 : cell s ?p' ?q' = Some ?t |- _ =>
        lazymatch p with
        | p' => lazymatch q with q' => fail | _ => idtac end
        | _ => idtac
        end;
        destruct (Hinj _ _ _ _ _ H1 H2) as [? ?]; clear H2; subst
    end; first [tauto | lia].
Qed.

(** ** [_move] *)

Lemma move_in_offset d (s : State) : move_in d s = _move s (offset d).
Proof. now destruct d. Qed.

(** The offsets [_move] accepts are those of the four directions. *)
Lemma offset_unit d :
  ((offset d).1 = 0 ∨ (offset d).2 = 0)
  ∧ Z.abs (offset d).1 + Z.abs (offset d).2 = 1.
Proof. destruct d; simpl; lia. Qed.

(** What [_move] does once the blank is found, for the offsets of the four
    directions. *)
Lemma move_in_run d (s : State) x y :
  coords_of_tile s blank = Ok (x, y) →
  let x2 := Z.of_nat x + (offset d).1 in
  let y2 := Z.of_nat y + (offset d).2 in
  move_in d s
  = if negb (in_range x2 (length s)) then Ok None
    else match s !! 0%nat with
         | None => Raise IndexError
         | Some column0 =>
             if negb (in_range y2 (length column0)) then Ok None
             else match cell s (Z.to_nat x2) (Z.to_nat y2) with
                  | Some _ =>
                      Ok (Some (swap_cells s x y (Z.to_nat x2) (Z.to_nat y2)))
                  | None => Raise IndexError
                  end
         end.
Proof.
  intros Hc x2 y2. rewrite move_in_offset. unfold _move.
  replace (negb (((offset d).1 =? 0) || ((offset d).2 =? 0))) with false
    by now destruct d.
  replace (negb ((Z.abs (offset d).1 =? 1) || (Z.abs (offset d).2 =? 1)))
    with false by now destruct d.
  rewrite Hc. simpl. fold x2 y2.
  destruct (negb (in_range x2 (length s))); [reflexivity |].
  unfold getitem at 1. destruct (s !! 0%nat) as [column0 |]; [| reflexivity].
  simpl. destruct (negb (in_range y2 (length column0))); [reflexivity |].
  rewrite !getitem2_cell. pose proof (coords_of_tile_Ok _ _ _ _ Hc) as Hb.
  unfold swap_cells. rewrite Hb.
  destruct (cell s (Z.to_nat x2) (Z.to_nat y2)) as [a |] eqn:Ha;
    [| reflexivity].
  simpl. rewrite setitem2_Ok by eauto. simpl.
  rewrite setitem2_Ok; [reflexivity |].
  rewrite cell_set_cell by eauto. destruct (decide _); eauto.
Qed.

(** A move that returns a state returns the input with the blank and a
    neighbouring cell exchanged. *)
Lemma move_in_Some d (s s' : State) :
  move_in d s = Ok (Some s') →
  ∃ x y x2 y2 a,
    coords_of_tile s blank = Ok (x, y) ∧
    Z.of_nat x2 = Z.of_nat x + (offset d).1 ∧
    Z.of_nat y2 = Z.of_nat y + (offset d).2 ∧
    cell s x y = Some blank ∧ cell s x2 y2 = Some a ∧
    s' = swap_cells s x y x2 y2.
Proof.
  intros H. destruct (coords_of_tile s blank) as [[x y] | e] eqn:Hc.
  - rewrite (move_in_run d s x y Hc) in H. simpl in H.
    set (x2 := Z.of_nat x + (offset d).1) in *.
    set (y2 := Z.of_nat y + (offset d).2) in *.
    destruct (in_range x2 (length s)) eqn:Hx; [| discriminate]. simpl in H.
    destruct (s !! 0%nat) as [column0 |]; [| discriminate].
    destruct (in_range y2 (length column0)) eqn:Hy; [| discriminate].
    simpl in H.
    destruct (cell s (Z.to_nat x2) (Z.to_nat y2)) as [a |] eqn:Ha;
      [| discriminate].
    injection H as <-. unfold in_range in Hx, Hy.
    exists x, y, (Z.to_nat x2), (Z.to_nat y2), a.
    repeat split; try done; try lia. now apply coords_of_tile_Ok.
  - rewrite move_in_offset in H. unfold _move in H.
    destruct (negb _); [discriminate |]. destruct (negb _); [discriminate |].
    rewrite Hc in H. discriminate.
Qed.

(** A move exchanges two cells, so the labels of the result are those of
    the input, in another order. *)
Lemma move_in_labels d (s s' : State) :
  NoDup (concat s) → move_in d s = Ok (Some s') →
  concat s' ≡ₚ concat s ∧ NoDup (concat s').
Proof.
  intros Hnd (x & y & x2 & y2 & a & _ & _ & _ & Hb & Ha & ->)%move_in_Some.
  assert (NoDup (concat (swap_cells s x y x2 y2))) as Hnd'.
  { apply NoDup_concat_cells. eapply swap_cells_injective; eauto.
    now apply NoDup_concat_cells. }
  split; [| exact Hnd'].
  apply NoDup_Permutation; [exact Hnd' | exact Hnd |].
  intros t. eapply swap_cells_elem; eauto.
Qed.

(** ** The move generator on well-formed grids *)

Lemma well_formed_cell w h (s : State) i j :
  well_formed w h s → (i < w)%nat → (j < h)%nat → is_Some (cell s i j).
Proof.
  intros (Hw & Hh & _) Hi Hj. unfold cell.
  destruct (lookup_lt_is_Some_2 s i) as [column Hc]; [lia |].
  rewrite Hc. simpl. apply lookup_lt_is_Some_2.
  rewrite (Forall_lookup_1 _ _ _ _ Hh Hc). exact Hj.
Qed.

Lemma well_formed_cell_bounds w h (s : State) i j t :
  well_formed w h s → cell s i j = Some t → (i < w)%nat ∧ (j < h)%nat.
Proof.
  intros (Hw & Hh & _) (column & Hc & Ht)%cell_Some. split.
  - rewrite <- Hw. eapply lookup_lt_Some; eauto.
  - rewrite <- (Forall_lookup_1 _ _ _ _ Hh Hc). eapply lookup_lt_Some; eauto.
Qed.

Lemma well_formed_blank w h (s : State) :
  well_formed w h s →
  ∃ x y, coords_of_tile s blank = Ok (x, y) ∧ (x < w)%nat ∧ (y < h)%nat.
Proof.
  intros Hwf. destruct Hwf as (Hw & Hh & Hnd & Hb).
  destruct (coords_of_tile_elem s blank Hb) as (x & y & Hc).
  exists x, y. split; [exact Hc |].
  eapply well_formed_cell_bounds; [| eapply coords_of_tile_Ok; eauto].
  repeat split; eauto.
Qed.

Lemma move_in_well_formed w h d (s : State) x y :
  well_formed w h s → coords_of_tile s blank = Ok (x, y) →
  let x2 := Z.of_nat x + (offset d).1 in
  let y2 := Z.of_nat y + (offset d).2 in
  move_in d s
  = if in_range x2 w && in_range y2 h
    then Ok (Some (swap_cells s x y (Z.to_nat x2) (Z.to_nat y2)))
    else Ok None.
Proof.
  intros Hwf Hc x2 y2. rewrite (move_in_run d s x y Hc). fold x2 y2.
  pose proof Hwf as (Hw & Hh & _). rewrite Hw.
  destruct (in_range x2 w) eqn:Hx; [| reflexivity]. simpl.
  destruct (well_formed_cell_bounds w h s x y blank Hwf
              (coords_of_tile_Ok _ _ _ _ Hc)) as [Hxw Hyh].
  destruct (lookup_lt_is_Some_2 s 0) as [column0 H0]; [lia |].
  rewrite H0, (Forall_lookup_1 _ _ _ _ Hh H0).
  destruct (in_range y2 h) eqn:Hy; [| reflexivity]. simpl.
  unfold in_range in Hx, Hy.
  destruct (well_formed_cell w h s (Z.to_nat x2) (Z.to_nat y2) Hwf)
    as [a ->]; [lia.. |].
  reflexivity.
Qed.

Lemma swap_cells_well_formed w h (s : State) x y x2 y2 :
  well_formed w h s → is_Some (cell s x y) → is_Some (cell s x2 y2) →
  well_formed w h (swap_cells s x y x2 y2).
Proof.
  intros (Hw & Hh & Hnd & Hb) [b Hcb] [a Hca]. repeat split.
  - now rewrite length_swap_cells.
  - apply Forall_lookup_2. intros i column Hi.
    pose proof (f_equal (λ l, l !! i) (shape_swap_cells s x y x2 y2)) as E.
    simpl in E. rewrite !list_lookup_fmap, Hi in E.
    destruct (s !! i) as [column0 |] eqn:Hs; [| discriminate].
    injection E as ->. exact (Forall_lookup_1 _ _ _ _ Hh Hs).
  - apply NoDup_concat_cells. eapply swap_cells_injective; eauto.
    now apply NoDup_concat_cells.
  - eapply swap_cells_elem; eauto.
Qed.

(** C10: a move returns a state with exactly the labels of its input: when
    no label occurs twice in [s], the labels of any state [s'] returned by
    [up], [left], [down] or [right] are a permutation of those of [s], and
    again no label occurs twice. *)
Theorem C10_move_preserves_labels d (s s' : State) :
  NoDup (concat s) → move_in d s = Ok (Some s') →
  concat s' ≡ₚ concat s ∧ NoDup (concat s').
Proof. apply move_in_labels. Qed.

Lemma C10_move_preserves_labels_witness :
  NoDup (concat Examples.initial_a)
  ∧ move_in Down Examples.initial_a = Ok (Some Examples.one_down)
  ∧ concat Examples.one_down ≡ₚ concat Examples.initial_a
  ∧ NoDup (concat Examples.one_down).
Proof.
  assert (NoDup (concat Examples.initial_a)) as Hnd
    by (apply (bool_decide_unpack _); vm_compute; exact I).
  assert (move_in Down Examples.initial_a = Ok (Some Examples.one_down))
    as Hmove by reflexivity.
  split; [exact Hnd |]. split; [exact Hmove |].
  exact (C10_move_preserves_labels Down _ _ Hnd Hmove).
Defined.

(** ** The object-level [_move] *)

Module StoreFacts.
Import Store.

Ltac run := unfold mbind, M_bind, bind, ret, raise, lift, read_grid,
  read_column, read_value, alloc, store.

Lemma value_lookup (σ : heap) p i :
  value σ p !! i = column_at σ <$> grid_at σ p !! i.
Proof. unfold value. apply list_lookup_fmap. Qed.

Lemma grid_of_grid_at σ p columns : grid_of σ p columns → grid_at σ p = columns.
Proof. intros (Hp & _). unfold grid_at. now rewrite Hp. Qed.

Lemma grid_of_ne σ p columns c : grid_of σ p columns → c ∈ columns → c ≠ p.
Proof. intros (Hp & _ & Hc) [tiles Ht]%Hc ->. congruence. Qed.

(** Objects that stay where they are keep the value of the grid. *)
Lemma value_subseteq (σ σ' : heap) p columns :
  grid_of σ p columns → σ ⊆ σ' → grid_of σ' p columns ∧ value σ' p = value σ p.
Proof.
  intros (Hp & Hnd & Hc) Hsub.
  assert (σ' !! p = Some (Grid columns)) as Hp'
    by (eapply lookup_weaken; eauto).
  split.
  - repeat split; [exact Hp' | exact Hnd |]. intros c [tiles Ht]%Hc.
    exists tiles. eapply lookup_weaken; eauto.
  - unfold value, grid_at. rewrite Hp, Hp'. apply list_fmap_ext.
    intros i c Hi. destruct (Hc c) as [tiles Ht];
      [eapply list_elem_of_lookup_2; eauto |].
    unfold column_at. now rewrite Ht, (lookup_weaken _ _ _ _ Ht Hsub).
Qed.

Lemma load2_run p x y (σ : heap) :
  load2 p x y σ = (σ, getitem2 (value σ p) x y).
Proof.
  unfold load2, getitem2, getitem. run. rewrite value_lookup.
  destruct (grid_at σ p !! x) as [c |]; reflexivity.
Qed.

(** Writing one cell of a grid changes one column object. *)
Lemma store2_run p columns x y v (σ : heap) :
  grid_of σ p columns → is_Some (cell (value σ p) x y) →
  ∃ c tiles,
    columns !! x = Some c ∧
    store2 p x y v σ = (<[c:=Column tiles]> σ, Ok ()) ∧
    grid_of (<[c:=Column tiles]> σ) p columns ∧
    value (<[c:=Column tiles]> σ) p = set_cell (value σ p) x y v.
Proof.
  intros Hgrid [old (column & Hx & Hy)%cell_Some].
  pose proof Hgrid as (Hp & Hnd & Hc).
  rewrite value_lookup, (grid_of_grid_at _ _ _ Hgrid) in Hx.
  destruct (columns !! x) as [c |] eqn:Hcx; [| discriminate].
  injection Hx as <-.
  assert (c ∈ columns) as Hin by (eapply list_elem_of_lookup_2; eauto).
  assert (c ≠ p) as Hne by (eapply grid_of_ne; eauto).
  exists c, (<[y:=v]> (column_at σ c)). split; [reflexivity |].
  assert (grid_of (<[c:=Column (<[y:=v]> (column_at σ c))]> σ) p columns)
    as Hgrid'.
  { repeat split; [now rewrite lookup_insert_ne | exact Hnd |].
    intros c' Hc'. destruct (decide (c = c')) as [<- |].
    - rewrite lookup_insert_eq. eauto.
    - rewrite lookup_insert_ne by done. now apply Hc. }
  split; [| split; [exact Hgrid' |]].
  - unfold store2, getitem, setitem. run.
    rewrite (grid_of_grid_at _ _ _ Hgrid), Hcx.
    now rewrite decide_True by (eapply lookup_lt_Some; eauto).
  - unfold value. rewrite (grid_of_grid_at _ _ _ Hgrid),
      (grid_of_grid_at _ _ _ Hgrid'). unfold set_cell.
    apply list_eq. intros i. rewrite list_lookup_fmap.
    destruct (decide (x = i)) as [<- |].
    + rewrite list_lookup_alter_eq, list_lookup_fmap, Hcx. simpl.
      unfold column_at at 1. now rewrite lookup_insert_eq.
    + rewrite list_lookup_alter_ne, list_lookup_fmap by done.
      destruct (columns !! i) as [c' |] eqn:Hci; [| reflexivity]. simpl.
      f_equal. unfold column_at. rewrite lookup_insert_ne; [reflexivity |].
      intros <-. now apply n, (NoDup_lookup columns x i c).
Qed.

(** [deepcopy_column] on a column not yet in the memo allocates a copy. *)
Lemma deepcopy_column_run memo c (σ : heap) :
  memo !! c = None →
  deepcopy_column memo c σ
  = (<[fresh (dom σ):=Column (column_at σ c)]> σ,
     Ok (<[c:=fresh (dom σ)]> memo, fresh (dom σ))).
Proof. intros Hm. unfold deepcopy_column. rewrite Hm. reflexivity. Qed.

Lemma fresh_None (σ : heap) : σ !! fresh (dom σ) = None.
Proof. apply not_elem_of_dom, is_fresh. Qed.

Lemma deepcopy_columns_run columns : ∀ memo (σ : heap),
  NoDup columns →
  (∀ c, c ∈ columns → memo !! c = None) →
  (∀ c, c ∈ columns → is_Some (σ !! c)) →
  ∃ σ' ys,
    deepcopy_columns memo columns σ = (σ', Ok ys) ∧
    σ ⊆ σ' ∧ NoDup ys ∧
    (∀ y, y ∈ ys → σ !! y = None) ∧
    (∀ a, σ !! a = None → a ∉ ys → σ' !! a = None) ∧
    Forall2 (λ c y, σ' !! y = Some (Column (column_at σ c))) columns ys.
Proof.
  induction columns as [| c columns IH]; intros memo σ Hnd Hmemo Hdom.
  - exists σ, []. split; [reflexivity |]. split; [done |].
    split; [constructor |].
    split; [intros y Hy; now apply elem_of_nil in Hy |].
    split; [auto | constructor].
  - apply NoDup_cons in Hnd as [Hc Hnd].
    set (y := fresh (dom σ)).
    set (σ1 := <[y:=Column (column_at σ c)]> σ).
    assert (σ ⊆ σ1) as Hsub1 by (apply insert_subseteq, fresh_None).
    destruct (IH (<[c:=y]> memo) σ1 Hnd) as
      (σ' & ys & Hrun & Hsub & Hnd' & Hfresh & Hothers & Hcols).
    { intros c' Hc'. rewrite lookup_insert_ne by (intros ->; done).
      apply Hmemo. now right. }
    { intros c' Hc'. destruct (Hdom c') as [o Ho]; [now right |].
      exists o. eapply lookup_weaken; eauto. }
    exists σ', (y :: ys).
    assert (σ1 !! y = Some (Column (column_at σ c))) as Hy
      by apply lookup_insert_eq.
    assert (y ∉ ys) as Hyys.
    { intros Hin. apply Hfresh in Hin. congruence. }
    repeat split.
    + cbn [deepcopy_columns]. unfold mbind, M_bind, bind at 1.
      rewrite deepcopy_column_run by (apply Hmemo; left).
      fold y σ1. unfold bind, ret. now rewrite Hrun.
    + now transitivity σ1.
    + now constructor.
    + intros y' [-> | Hin]%elem_of_cons; [apply fresh_None |].
      apply Hfresh in Hin. destruct (σ !! y') as [o |] eqn:Ho; [| done].
      now rewrite (lookup_weaken _ _ _ _ Ho Hsub1) in Hin.
    + intros a Ha Hnotin. apply not_elem_of_cons in Hnotin as [Hne Hnotin].
      apply Hothers; [| exact Hnotin]. unfold σ1.
      now rewrite lookup_insert_ne.
    + constructor; [eapply lookup_weaken; eauto |].
      apply Forall2_same_length_lookup in Hcols as [Hlen Hcols].
      apply Forall2_same_length_lookup. split; [exact Hlen |].
      intros i c' y' Hc' Hy'. rewrite (Hcols i c' y' Hc' Hy').
      f_equal. f_equal. unfold column_at.
      destruct (Hdom c') as [o Ho];
        [right; eapply list_elem_of_lookup_2; eauto |].
      now rewrite Ho, (lookup_weaken _ _ _ _ Ho Hsub1).
Qed.

(** [deepcopy] of a grid: a fresh grid of fresh columns with the value of
    the original; no object that existed is touched. *)
Lemma deepcopy_run p columns (σ : heap) :
  grid_of σ p columns →
  ∃ σ' ys,
    deepcopy p σ = (σ', Ok (fresh (dom σ))) ∧
    σ ⊆ σ' ∧ σ !! fresh (dom σ) = None ∧
    (∀ y, y ∈ ys → σ !! y = None) ∧
    grid_of σ' (fresh (dom σ)) ys ∧
    value σ' (fresh (dom σ)) = value σ p.
Proof.
  intros Hgrid. pose proof Hgrid as (Hp & Hnd & Hc).
  set (y0 := fresh (dom σ)). set (σ0 := <[y0:=Grid []]> σ).
  assert (σ !! y0 = None) as Hy0 by apply fresh_None.
  assert (σ ⊆ σ0) as Hsub0 by now apply insert_subseteq.
  destruct (deepcopy_columns_run columns {[p := y0]} σ0 Hnd)
    as (σ' & ys & Hrun & Hsub & Hnd' & Hfresh & Hothers & Hcols).
  { intros c Hin. apply lookup_singleton_ne. intros <-.
    now apply (grid_of_ne _ _ _ _ Hgrid Hin). }
  { intros c [tiles Ht]%Hc. exists (Column tiles). eapply lookup_weaken; eauto. }
  assert (y0 ∉ ys) as Hy0ys.
  { intros Hin%Hfresh. unfold σ0 in Hin. now rewrite lookup_insert_eq in Hin. }
  exists (<[y0:=Grid ys]> σ'), ys. repeat split.
  - unfold deepcopy. run. rewrite (grid_of_grid_at _ _ _ Hgrid).
    fold y0 σ0. now rewrite Hrun.
  - apply insert_subseteq_r; [exact Hy0 |]. now transitivity σ0.
  - exact Hy0.
  - intros y Hin. pose proof (Hfresh y Hin) as Hy.
    destruct (σ !! y) as [o |] eqn:Ho; [| done].
    now rewrite (lookup_weaken _ _ _ _ Ho Hsub0) in Hy.
  - apply lookup_insert_eq.
  - exact Hnd'.
  - intros y Hin. apply Forall2_same_length_lookup in Hcols as [Hlen Hcols].
    apply list_elem_of_lookup in Hin as [i Hi].
    destruct (lookup_lt_is_Some_2 columns i) as [c Hci].
    { rewrite Hlen. eapply lookup_lt_Some; eauto. }
    exists (column_at σ0 c). rewrite lookup_insert_ne; [exact (Hcols i c y Hci Hi) |].
    intros <-. apply Hy0ys. eapply list_elem_of_lookup_2; eauto.
  - unfold value, grid_at. rewrite lookup_insert_eq, Hp.
    apply Forall2_same_length_lookup in Hcols as [Hlen Hcols].
    apply list_eq. intros i. rewrite !list_lookup_fmap.
    destruct (ys !! i) as [y |] eqn:Hyi.
    + destruct (lookup_lt_is_Some_2 columns i) as [c Hci].
      { rewrite Hlen. eapply lookup_lt_Some; eauto. }
      rewrite Hci. simpl. f_equal. unfold column_at at 1.
      rewrite lookup_insert_ne
        by (intros <-; apply Hy0ys; eapply list_elem_of_lookup_2; eauto).
      rewrite (Hcols i c y Hci Hyi).
      destruct (Hc c) as [tiles Ht]; [eapply list_elem_of_lookup_2; eauto |].
      unfold column_at. now rewrite Ht, (lookup_weaken _ _ _ _ Ht Hsub0).
    + apply lookup_ge_None in Hyi. rewrite <- Hlen in Hyi.
      apply lookup_ge_None in Hyi. now rewrite Hyi.
Qed.

(** A well-formed value can only be read off a grid of distinct column
    objects: aliased columns would repeat their labels. *)
Lemma well_formed_grid_of w h (σ : heap) p :
  well_formed w h (value σ p) → grid_of σ p (grid_at σ p).
Proof.
  intros Hwf. destruct (well_formed_blank _ _ _ Hwf) as (x & y & Hc & Hx & Hy).
  pose proof Hwf as (Hw & Hh & Hnd & _).
  assert (∀ i c, grid_at σ p !! i = Some c →
            ∃ t tiles, σ !! c = Some (Column tiles) ∧ tiles !! 0%nat = Some t
                       ∧ cell (value σ p) i 0 = Some t) as Hcol.
  { intros i c Hi.
    assert (value σ p !! i = Some (column_at σ c)) as Hv
      by now rewrite value_lookup, Hi.
    pose proof (Forall_lookup_1 _ _ _ _ Hh Hv) as Hlen. simpl in Hlen.
    destruct (lookup_lt_is_Some_2 (column_at σ c) 0) as [t Ht]; [lia |].
    exists t, (column_at σ c). unfold cell. rewrite Hv. simpl.
    split; [| now split]. unfold column_at in *.
    destruct (σ !! c) as [[tiles | ?] |]; try discriminate. reflexivity. }
  repeat split.
  - clear Hcol Hc Hh Hnd Hwf. unfold value, grid_at in *.
    destruct (σ !! p) as [[? | columns] |]; try reflexivity;
      simpl in Hw; lia.
  - apply NoDup_alt. intros i j c Hi Hj.
    destruct (Hcol i c Hi) as (t & tiles & Ht & Ht0 & Hci).
    destruct (Hcol j c Hj) as (t' & tiles' & Ht' & Ht0' & Hcj).
    assert (t' = t) as -> by congruence.
    apply NoDup_concat_cells in Hnd. now destruct (Hnd _ _ _ _ _ Hci Hcj).
  - intros c [i Hi]%list_elem_of_lookup.
    destruct (Hcol i c Hi) as (t & tiles & Ht & _). eauto.
Qed.

Lemma bind_run {A B} (m : M A) (k : A → M B) (σ σ' : heap) a :
  m σ = (σ', Ok a) → (m ≫= k) σ = k a σ'.
Proof. intros H. unfold mbind, M_bind, bind. now rewrite H. Qed.

(** [Store.move] on a grid object with a well-formed value. *)
Ltac step tac :=
  match goal with
  | H : _ = (_, _) |- _ => erewrite bind_run in H by tac; cbv beta iota in H
  end.

Lemma move_run w h d (σ : heap) p x y :
  well_formed w h (value σ p) →
  coords_of_tile (value σ p) blank = Ok (x, y) →
  let x2 := Z.of_nat x + (offset d).1 in
  let y2 := Z.of_nat y + (offset d).2 in
  ∃ σ' r,
    move p (offset d) σ = (σ', r) ∧ σ ⊆ σ' ∧ value σ' p = value σ p ∧
    if in_range x2 w && in_range y2 h
    then ∃ p', r = Ok (Some p') ∧ σ !! p' = None ∧
               value σ' p'
               = swap_cells (value σ p) x y (Z.to_nat x2) (Z.to_nat y2)
    else r = Ok None ∧ σ' = σ.
Proof.
  intros Hwf Hc x2 y2. set (s := value σ p) in *.
  pose proof (well_formed_grid_of _ _ _ _ Hwf) as Hgrid.
  pose proof Hwf as (Hw & Hh & Hnd & _).
  destruct (well_formed_cell_bounds w h s x y blank Hwf
              (coords_of_tile_Ok _ _ _ _ Hc)) as [Hxw Hyh].
  destruct (move p (offset d) σ) as [σ' r] eqn:Hmove. exists σ', r.
  split; [reflexivity |]. unfold move in Hmove.
  replace (negb (((offset d).1 =? 0) || ((offset d).2 =? 0))) with false
    in Hmove by now destruct d.
  replace (negb ((Z.abs (offset d).1 =? 1) || (Z.abs (offset d).2 =? 1)))
    with false in Hmove by now destruct d.
  cbv beta iota in Hmove.
  step ltac:(reflexivity). fold s in Hmove.
  step ltac:(unfold lift; rewrite Hc; reflexivity).
  fold x2 y2 in Hmove. step ltac:(reflexivity).
  assert (length (grid_at σ p) = w) as Hlen
    by (rewrite <- Hw; unfold s, value; now rewrite length_fmap).
  rewrite Hlen in Hmove.
  destruct (in_range x2 w) eqn:Hx; cbn [negb andb] in *;
    [| injection Hmove as <- <-; repeat split; done].
  destruct (lookup_lt_is_Some_2 (grid_at σ p) 0) as [c0 H0]; [lia |].
  step ltac:(unfold lift, getitem; rewrite H0; reflexivity).
  step ltac:(reflexivity).
  assert (length (column_at σ c0) = h) as Hlen0.
  { apply (Forall_lookup_1 _ _ 0%nat _ Hh). unfold s.
    now rewrite value_lookup, H0. }
  rewrite Hlen0 in Hmove.
  destruct (in_range y2 h) eqn:Hy; cbn [negb] in *;
    [| injection Hmove as <- <-; repeat split; done].
  unfold in_range in Hx, Hy.
  destruct (well_formed_cell w h s (Z.to_nat x2) (Z.to_nat y2) Hwf)
    as [a Ha]; [lia.. |].
  pose proof (coords_of_tile_Ok _ _ _ _ Hc) as Hb.
  destruct (deepcopy_run p _ σ Hgrid)
    as (σ1 & ys & Hcopy & Hsub1 & Hnew & Hfresh & Hgrid1 & Hval1).
  set (y0 := fresh (dom σ)) in *. fold s in Hval1.
  step ltac:(exact Hcopy).
  step ltac:(rewrite load2_run, Hval1, getitem2_cell, Ha; reflexivity).
  step ltac:(rewrite load2_run, Hval1, getitem2_cell, Hb; reflexivity).
  destruct (store2_run y0 ys x y a σ1 Hgrid1)
    as (c & tiles & Hcx & Hst & Hgrid2 & Hval2); [rewrite Hval1; eauto |].
  step ltac:(exact Hst).
  destruct (store2_run y0 ys (Z.to_nat x2) (Z.to_nat y2) blank _ Hgrid2)
    as (c' & tiles' & Hcx' & Hst' & Hgrid3 & Hval3).
  { rewrite Hval2, Hval1, cell_set_cell by eauto. destruct (decide _); eauto. }
  step ltac:(exact Hst').
  injection Hmove as <- <-.
  assert (σ ⊆ <[c':=Column tiles']> (<[c:=Column tiles]> σ1)) as Hsub.
  { apply insert_subseteq_r;
      [apply Hfresh; eapply list_elem_of_lookup_2; eauto |].
    apply insert_subseteq_r;
      [apply Hfresh; eapply list_elem_of_lookup_2; eauto | exact Hsub1]. }
  split; [exact Hsub |].
  split; [exact (proj2 (value_subseteq _ _ _ _ Hgrid Hsub)) |].
  exists y0. split; [reflexivity |]. split; [exact Hnew |].
  rewrite Hval3, Hval2, Hval1. unfold swap_cells. now rewrite Ha, Hb.
Qed.
End StoreFacts.

(** C5: [_move] on a grid object whose value [s] is well-formed, for each
    of the four directions.  The blank is found, at [(x, y)]; when the
    target [(x2, y2)] is outside the grid the call returns [None]; otherwise
    it returns a new object whose value is again well-formed and has the
    labels of [s], except that the target cell holds the blank and the cell
    [(x, y)] holds the label that was at the target.  In both cases every object of the
    heap before the call is unchanged after it, so the input still has the
    value [s]; and the value-level [move_in] computes the same result. *)
Theorem C5_move_swaps_blank_and_target w h d (σ : Store.heap) p :
  well_formed w h (Store.value σ p) →
  ∃ x y σ' r,
    coords_of_tile (Store.value σ p) blank = Ok (x, y) ∧
    Store.move p (offset d) σ = (σ', r) ∧
    σ ⊆ σ' ∧ Store.value σ' p = Store.value σ p ∧
    let x2 := Z.of_nat x + (offset d).1 in
    let y2 := Z.of_nat y + (offset d).2 in
    if in_range x2 w && in_range y2 h
    then ∃ p' s',
      r = Ok (Some p') ∧ σ !! p' = None ∧ Store.value σ' p' = s' ∧
      move_in d (Store.value σ p) = Ok (Some s') ∧
      well_formed w h s' ∧
      ∀ i j, cell s' i j
             = if decide (i = Z.to_nat x2 ∧ j = Z.to_nat y2) then Some blank
               else if decide (i = x ∧ j = y)
                    then cell (Store.value σ p) (Z.to_nat x2) (Z.to_nat y2)
                    else cell (Store.value σ p) i j
    else r = Ok None ∧ move_in d (Store.value σ p) = Ok None.
Proof.
  intros Hwf. destruct (well_formed_blank _ _ _ Hwf) as (x & y & Hc & Hx & Hy).
  destruct (StoreFacts.move_run w h d σ p x y Hwf Hc)
    as (σ' & r & Hmove & Hsub & Hval & Hres).
  exists x, y, σ', r. repeat (split; [assumption |]).
  rewrite (move_in_well_formed w h d _ x y Hwf Hc). cbv zeta in *.
  destruct (in_range _ w && in_range _ h) eqn:Hin.
  - destruct Hres as (p' & -> & Hnew & Hval').
    apply andb_prop in Hin as [Hinx Hiny]. unfold in_range in Hinx, Hiny.
    set (x2 := Z.to_nat (Z.of_nat x + (offset d).1)) in *.
    set (y2 := Z.to_nat (Z.of_nat y + (offset d).2)) in *.
    destruct (well_formed_cell w h _ x2 y2 Hwf) as [a Ha]; [lia.. |].
    exists p', (swap_cells (Store.value σ p) x y x2 y2).
    pose proof (coords_of_tile_Ok _ _ _ _ Hc) as Hb.
    repeat (split; [done |]).
    split; [apply swap_cells_well_formed; eauto |].
    intros i j. rewrite Ha.
    apply cell_swap_cells; [now apply coords_of_tile_Ok | exact Ha].
  - now destruct Hres as [-> _].
Qed.

Lemma C5_move_swaps_blank_and_target_witness :
  well_formed 3 2 (Store.value Examples.heap_a 0%nat)
  ∧ ∃ x y σ' r,
    coords_of_tile (Store.value Examples.heap_a 0%nat) blank = Ok (x, y) ∧
    Store.move 0%nat (offset Down) Examples.heap_a = (σ', r) ∧
    Examples.heap_a ⊆ σ' ∧
    Store.value σ' 0%nat = Store.value Examples.heap_a 0%nat ∧
    let x2 := Z.of_nat x + (offset Down).1 in
    let y2 := Z.of_nat y + (offset Down).2 in
    if in_range x2 3 && in_range y2 2
    then ∃ p' s',
      r = Ok (Some p') ∧ Examples.heap_a !! p' = None ∧
      Store.value σ' p' = s' ∧
      move_in Down (Store.value Examples.heap_a 0%nat) = Ok (Some s') ∧
      well_formed 3 2 s' ∧
      ∀ i j, cell s' i j
             = if decide (i = Z.to_nat x2 ∧ j = Z.to_nat y2) then Some blank
               else if decide (i = x ∧ j = y)
                    then cell (Store.value Examples.heap_a 0%nat)
                           (Z.to_nat x2) (Z.to_nat y2)
                    else cell (Store.value Examples.heap_a 0%nat) i j
    else r = Ok None
         ∧ move_in Down (Store.value Examples.heap_a 0%nat) = Ok None.
Proof.
  assert (well_formed 3 2 (Store.value Examples.heap_a 0%nat)) as Hwf
    by (apply (bool_decide_unpack _); vm_compute; exact I).
  split; [exact Hwf |].
  exact (C5_move_swaps_blank_and_target 3 2 Down Examples.heap_a 0%nat Hwf).
Defined.

(** ** The open sets keep their nodes *)

Lemma list_pop_snoc {A} (l : list A) a : list_pop (l ++ [a]) = Some (a, l).
Proof. unfold list_pop. now rewrite last_snoc, removelast_last. Qed.

Lemma list_pop_Some {A} (l l' : list A) a :
  list_pop l = Some (a, l') → l = l' ++ [a].
Proof.
  destruct l as [| b l _] using rev_ind; [discriminate |].
  rewrite list_pop_snoc. now intros [= -> ->].
Qed.

Section HeapForall.
Context (P : item → Prop).
#[local] Arguments Nat.div : simpl never.

Lemma _siftdown_loop_Forall fuel heap newitem startpos pos :
  Forall P heap → P newitem →
  Forall P (_siftdown_loop fuel heap newitem startpos pos).
Proof.
  revert heap pos. induction fuel as [| fuel IH]; intros heap pos Hh Hn; simpl.
  - now apply Forall_insert.
  - destruct (startpos <? pos)%nat; [| now apply Forall_insert].
    destruct (heap !! ((pos - 1) / 2)%nat) as [parent_item |] eqn:Hp;
      [| now apply Forall_insert].
    destruct (item_lt newitem parent_item); [| now apply Forall_insert].
    apply IH; [| exact Hn]. apply Forall_insert; [exact Hh |].
    eapply Forall_lookup_1; eauto.
Qed.

Lemma _siftdown_Forall heap startpos pos :
  Forall P heap → Forall P (_siftdown heap startpos pos).
Proof.
  intros Hh. unfold _siftdown. destruct (heap !! pos) as [newitem |] eqn:Hn;
    [| exact Hh].
  apply _siftdown_loop_Forall; [exact Hh |]. eapply Forall_lookup_1; eauto.
Qed.

Lemma _siftup_loop_Forall fuel heap endpos pos childpos :
  Forall P heap → Forall P (_siftup_loop fuel heap endpos pos childpos).1.
Proof.
  revert heap pos childpos.
  induction fuel as [| fuel IH]; intros heap pos childpos Hh; simpl; [done |].
  destruct (childpos <? endpos)%nat; [| done].
  match goal with |- context [heap !! ?c] =>
    lazymatch c with
    | childpos => fail
    | (childpos + 1)%nat => fail
    | _ => destruct (heap !! c) as [ch |] eqn:Hc; [| done]
    end
  end.
  apply IH. apply Forall_insert; [exact Hh |]. eapply Forall_lookup_1; eauto.
Qed.

Lemma _siftup_Forall heap pos : Forall P heap → Forall P (_siftup heap pos).
Proof.
  intros Hh. unfold _siftup. destruct (heap !! pos) as [newitem |] eqn:Hn;
    [| exact Hh].
  pose proof (_siftup_loop_Forall (length heap) heap (length heap) pos
                (2 * pos + 1)%nat Hh) as Hl.
  destruct (_siftup_loop _ _ _ _ _) as [heap' pos']. simpl in Hl.
  apply _siftdown_Forall, Forall_insert; [exact Hl |].
  exact (Forall_lookup_1 _ _ _ _ Hh Hn).
Qed.

Lemma heappush_Forall heap it :
  Forall P heap → P it → Forall P (heappush heap it).
Proof.
  intros Hh Hi. apply _siftdown_Forall, Forall_app. split; [exact Hh |].
  now constructor.
Qed.

Lemma heappop_Forall heap it heap' :
  Forall P heap → heappop heap = Some (it, heap') → P it ∧ Forall P heap'.
Proof.
  intros Hh. unfold heappop.
  destruct (list_pop heap) as [[lastelt rest] |] eqn:Hpop; [| discriminate].
  apply list_pop_Some in Hpop as ->.
  apply Forall_app in Hh as [Hrest Hlast%Forall_inv].
  destruct rest as [| returnitem rest'].
  - intros [= <- <-]. split; [exact Hlast | constructor].
  - intros [= <- <-]. split; [now apply Forall_cons_1 in Hrest |].
    apply _siftup_Forall. apply Forall_cons_1 in Hrest as [_ Hrest].
    now constructor.
Qed.
End HeapForall.

(** Each of the seven open sets hands back only nodes that were added. *)

#[global, refine] Instance depth_first_sound : Sound depth_first_frontier :=
  Build_Sound depth_first_frontier (λ P (os : list Node), Forall P os) _ _ _.
Proof.
  - intros P. constructor.
  - intros P node os os' Hn Hos [= <-]. apply Forall_app. split; [done |].
    now constructor.
  - intros P os node os' Hos ->%list_pop_Some.
    apply Forall_app in Hos as [? ?%Forall_inv]. done.
Defined.

#[global, refine] Instance breadth_first_sound : Sound breadth_first_frontier :=
  Build_Sound breadth_first_frontier (λ P (os : list Node), Forall P os) _ _ _.
Proof.
  - intros P. constructor.
  - intros P node os os' Hn Hos [= <-]. apply Forall_app. split; [done |].
    now constructor.
  - intros P [| a os] node os' Hos; [discriminate |]. intros [= <- <-].
    now apply Forall_cons_1 in Hos.
Defined.

Lemma pq_get_Forall (P : Node → Prop) (os os' : list item) node :
  Forall (λ it, P it.2) os → pq_get os = Some (node, os') →
  P node ∧ Forall (λ it, P it.2) os'.
Proof.
  intros Hos. unfold pq_get.
  destruct (heappop os) as [[[priority n] rest] |] eqn:Hpop; [| discriminate].
  intros [= <- <-]. exact (heappop_Forall _ _ _ _ Hos Hpop).
Qed.

#[global, refine] Instance greedy_best_first_sound heuristic desired_state :
  Sound (greedy_best_first_frontier heuristic desired_state) :=
  Build_Sound (greedy_best_first_frontier heuristic desired_state)
    (λ P (os : list item), Forall (λ it : item, P it.2) os) _ _ _.
Proof.
  - intros P. constructor.
  - intros P node os os' Hn Hos. simpl.
    destruct (heuristic _ _) as [priority | e]; [| discriminate].
    intros [= <-]. now apply heappush_Forall.
  - intros P os node os'. apply pq_get_Forall.
Defined.

#[global, refine] Instance a_star_sound heuristic desired_state :
  Sound (a_star_frontier heuristic desired_state) :=
  Build_Sound (a_star_frontier heuristic desired_state)
    (λ P (os : list item), Forall (λ it : item, P it.2) os) _ _ _.
Proof.
  - intros P. constructor.
  - intros P node os os' Hn Hos. simpl.
    destruct (heuristic _ _) as [h | e]; [| discriminate].
    intros [= <-]. now apply heappush_Forall.
  - intros P os node os'. apply pq_get_Forall.
Defined.

#[global, refine] Instance hill_climb_sound backtracking_allowed heuristic
    desired_state :
  Sound (hill_climb_frontier backtracking_allowed heuristic desired_state) :=
  Build_Sound (hill_climb_frontier backtracking_allowed heuristic desired_state)
    (λ P (os : list item), Forall (λ it : item, P it.2) os) _ _ _.
Proof.
  - intros P. constructor.
  - intros P node os os' Hn Hos. simpl.
    destruct (0 <? num_parents node); [| discriminate].
    destruct (parent node) as [p |]; [| discriminate]. simpl.
    destruct (heuristic (state p) _) as [hp | e]; [| discriminate]. simpl.
    destruct (heuristic (state node) _) as [h | e]; [| discriminate]. simpl.
    destruct (_ <? _); intros [= <-]; [done |]. now apply heappush_Forall.
  - intros P os node os'. apply pq_get_Forall.
Defined.

#[global, refine] Instance depth_limited_sound : Sound depth_limited_frontier :=
  Build_Sound depth_limited_frontier
    (λ P (os : list Node * list Node * Z), Forall P os.1.1 ∧ Forall P os.1.2)
    _ _ _.
Proof.
  - intros P. split; constructor.
  - intros P node [[os paused_set] iteration] os' Hn [Hos Hpaused]. simpl.
    destruct (_ <? _); intros [= <-]; simpl; (split; [| try done]);
      try done; apply Forall_app; (split; [done |]); now constructor.
  - intros P [[os paused_set] iteration] node os' [Hos Hpaused]. simpl in *.
    destruct (bool_decide (length os = 0%nat)).
    + destruct (list_pop paused_set) as [[n rest] |] eqn:Hpop; [| discriminate].
      intros [= <- <-]. apply list_pop_Some in Hpop as ->.
      apply Forall_app in Hpaused as [? ?%Forall_inv].
      simpl. repeat split; try done.
    + destruct (list_pop os) as [[n rest] |] eqn:Hpop; [| discriminate].
      intros [= <- <-]. apply list_pop_Some in Hpop as ->.
      apply Forall_app in Hos as [? ?%Forall_inv]. simpl. done.
Defined.

(** ** Invariants of the search loop *)

Section Invariant.
Context (fr : Frontier) `{!Sound fr} (desired_state : State).
Context (P : Node → Prop).
Hypothesis P_child : ∀ current_node d s,
  P current_node → move_in d (state current_node) = Ok (Some s) →
  P (child current_node d s).

Lemma open_set_add_if_new_holds closed_set current_node d s os os' :
  P current_node → holds P os →
  move_in d (state current_node) = Ok s →
  open_set_add_if_new fr closed_set current_node s (label d) os = Ok os' →
  holds P os'.
Proof.
  intros Hcur Hos Hmove. unfold open_set_add_if_new.
  destruct s as [s |]; [| now intros [= <-]].
  destruct (_state_is_valid _ _); [| now intros [= <-]].
  intros Hadd. eapply holds_add; [| exact Hos | exact Hadd].
  now apply (P_child current_node d s).
Qed.

Lemma expand_holds closed_set current_node os os' :
  P current_node → holds P os →
  expand fr closed_set current_node os = Ok os' → holds P os'.
Proof.
  intros Hcur Hos. unfold expand.
  destruct (up (state current_node)) as [s1 |] eqn:H1; [| discriminate].
  simpl. destruct (open_set_add_if_new _ _ _ s1 _ _) as [os1 |] eqn:A1;
    [| discriminate].
  simpl. destruct (left (state current_node)) as [s2 |] eqn:H2; [| discriminate].
  simpl. destruct (open_set_add_if_new _ _ _ s2 _ _) as [os2 |] eqn:A2;
    [| discriminate].
  simpl. destruct (down (state current_node)) as [s3 |] eqn:H3; [| discriminate].
  simpl. destruct (open_set_add_if_new _ _ _ s3 _ _) as [os3 |] eqn:A3;
    [| discriminate].
  simpl. destruct (right (state current_node)) as [s4 |] eqn:H4; [| discriminate].
  simpl. intros A4.
  apply (open_set_add_if_new_holds _ _ Up) in A1; [| done..].
  apply (open_set_add_if_new_holds _ _ Left) in A2; [| done..].
  apply (open_set_add_if_new_holds _ _ Down) in A3; [| done..].
  now apply (open_set_add_if_new_holds _ _ Right) in A4.
Qed.

Lemma search_loop_invariant fuel closed_set current_node os closed_set' node :
  P current_node → holds P os →
  search_loop fr desired_state fuel closed_set current_node os
  = Some (Ok (closed_set', Some node)) →
  P node ∧ state node = desired_state.
Proof.
  revert closed_set current_node os.
  induction fuel as [| fuel IH]; intros closed_set current_node os Hcur Hos;
    simpl; case_bool_decide as Hgoal.
  - discriminate.
  - intros [= <- <-]. split; [exact Hcur |].
    now destruct (decide (state current_node = desired_state)).
  - destruct (expand _ _ _ _) as [os1 | e] eqn:Hexp; [| discriminate].
    destruct (open_set_get fr os1) as [[n os2] |] eqn:Hget; [| discriminate].
    apply expand_holds in Hexp; [| done..].
    destruct (holds_get P _ _ _ Hexp Hget) as [Hn Hos2]. now apply IH.
  - intros [= <- <-]. split; [exact Hcur |].
    now destruct (decide (state current_node = desired_state)).
Qed.

Lemma search_trace_invariant fuel initial_state closed_set node :
  P (Node_init initial_state None None) →
  search_trace fr desired_state fuel initial_state
  = Some (Ok (closed_set, Some node)) →
  P node ∧ state node = desired_state.
Proof.
  intros Hroot. apply search_loop_invariant; [exact Hroot | apply holds_new].
Qed.
End Invariant.

Lemma reconstruct_actions_child current_node d s :
  reconstruct_actions (child current_node d s)
  = actions ← reconstruct_actions current_node; Ok (label d :: actions).
Proof. reflexivity. Qed.

Lemma labelled_child current_node d s :
  labelled current_node → labelled (child current_node d s).
Proof.
  intros (actions & Hrec & Hall). exists (label d :: actions).
  rewrite reconstruct_actions_child, Hrec. split; [reflexivity |].
  constructor; [| exact Hall]. unfold code_labels. destruct d; set_solver.
Qed.

Lemma search_returns_actions fr desired_state fuel initial_state n actions :
  _search fr desired_state fuel initial_state = Some (Ok (n, Some actions)) →
  ∃ closed_set node,
    search_trace fr desired_state fuel initial_state
    = Some (Ok (closed_set, Some node))
    ∧ n = length closed_set ∧ reconstruct_actions node = Ok actions.
Proof.
  unfold _search.
  destruct (search_trace _ _ _ _) as [[[closed_set [node |]] | e] |];
    try discriminate.
  destruct (reconstruct_actions node) as [acts | e] eqn:Hrec; [| discriminate].
  intros [= <- <-]. eauto.
Qed.

(** Whatever the open set, the labels [_search] returns are those it
    attaches to successors. *)
Lemma _search_labels fr `{!Sound fr} desired_state fuel initial_state n actions :
  _search fr desired_state fuel initial_state = Some (Ok (n, Some actions)) →
  Forall (λ a, a ∈ code_labels) actions.
Proof.
  intros (closed_set & node & Htrace & _ & Hrec)%search_returns_actions.
  assert (labelled (Node_init initial_state None None)) as Hroot
    by (exists []; split; [reflexivity | constructor]).
  destruct (search_trace_invariant fr desired_state labelled
              (λ c d s H _, labelled_child c d s H) _ _ _ _ Hroot Htrace)
    as [(actions' & Hrec' & Hall) _].
  congruence.
Qed.

Lemma replay_app s actions1 actions2 :
  replay s (actions1 ++ actions2)
  = s' ← replay s actions1; replay s' actions2.
Proof.
  revert s. induction actions1 as [| a actions1 IH]; intros s; simpl; [done |].
  destruct (direction_of_label a) as [d |]; [| done].
  destruct (move_in d s) as [[s' |] | e]; [apply IH | done..].
Qed.

Lemma direction_of_label_label d : direction_of_label (label d) = Some d.
Proof. now destruct d. Qed.

Lemma retraces_child initial_state current_node d s :
  retraces initial_state current_node →
  move_in d (state current_node) = Ok (Some s) →
  retraces initial_state (child current_node d s).
Proof.
  intros (actions & Hrec & Hplay) Hmove. exists (label d :: actions).
  rewrite reconstruct_actions_child, Hrec. split; [reflexivity |].
  simpl. rewrite replay_app, Hplay. simpl.
  now rewrite direction_of_label_label, Hmove.
Qed.

(** Whatever the open set, the sequence [_search] returns leads from the
    initial state to the desired state when it is replayed backwards. *)
Lemma _search_replay_rev fr `{!Sound fr} desired_state fuel initial_state n
    actions :
  _search fr desired_state fuel initial_state = Some (Ok (n, Some actions)) →
  replay initial_state (rev actions) = Some desired_state.
Proof.
  intros (closed_set & node & Htrace & _ & Hrec)%search_returns_actions.
  assert (retraces initial_state (Node_init initial_state None None)) as Hroot
    by (exists []; split; reflexivity).
  destruct (search_trace_invariant fr desired_state (retraces initial_state)
              (retraces_child initial_state) _ _ _ _ Hroot Htrace)
    as [(actions' & Hrec' & Hplay) Hgoal].
  congruence.
Qed.

(** The same for the seven strategies of [methods]: the sequence a strategy
    returns is a solution when read from its last label to its first. *)
Lemma methods_replay_rev name f fuel initial_state desired_state n actions :
  (name, f) ∈ methods →
  f fuel initial_state desired_state = Some (Ok (n, Some actions)) →
  replay initial_state (rev actions) = Some desired_state.
Proof.
  unfold methods. rewrite !elem_of_cons, elem_of_nil.
  intros [H | [H | [H | [H | [H | [H | [H | []]]]]]]]; injection H as -> ->;
    apply _search_replay_rev; apply _.
Qed.

(** C2 (amended): every element of an action sequence returned by one of
    the seven strategies is one of the four labels "Up;", "Left;", "Down;",
    "Right;": the labels carry the separator. *)
Theorem C2_labels_are_the_four_with_separator name f fuel initial_state
    desired_state n actions :
  (name, f) ∈ methods →
  f fuel initial_state desired_state = Some (Ok (n, Some actions)) →
  Forall (λ a, a ∈ code_labels) actions.
Proof.
  unfold methods. rewrite !elem_of_cons, elem_of_nil.
  intros [H | [H | [H | [H | [H | [H | [H | []]]]]]]]; injection H as -> ->;
    apply _search_labels; apply _.
Qed.

Lemma C2_labels_are_the_four_with_separator_witness :
  ("BFS", breadth_first) ∈ methods
  ∧ breadth_first 5%nat Examples.initial_a Examples.one_down
    = Some (Ok (2%nat, Some ["Down;"]))
  ∧ Forall (λ a, a ∈ code_labels) ["Down;"].
Proof.
  assert (("BFS", breadth_first) ∈ methods) as Hin
    by (apply list_elem_of_further, list_elem_of_here).
  assert (breadth_first 5%nat Examples.initial_a Examples.one_down
          = Some (Ok (2%nat, Some ["Down;"]))) as Hrun
    by (vm_compute; reflexivity).
  split; [exact Hin |]. split; [exact Hrun |].
  exact (C2_labels_are_the_four_with_separator _ _ _ _ _ _ _ Hin Hrun).
Defined.

(** ** The Manhattan distance as a sum over the labels *)

Lemma sumZ_nil : sumZ [] = 0.
Proof. reflexivity. Qed.

Lemma sumZ_cons z l : sumZ (z :: l) = z + sumZ l.
Proof. reflexivity. Qed.

Lemma sumZ_app l k : sumZ (l ++ k) = sumZ l + sumZ k.
Proof. unfold sumZ. induction l as [| z l IH]; simpl; lia. Qed.

Lemma sumZ_Permutation l k : l ≡ₚ k → sumZ l = sumZ k.
Proof. unfold sumZ. induction 1; simpl; lia. Qed.

Section ManhattanSum.
Context (current_state desired_state : State).
Hypothesis labels_known : concat current_state ⊆ concat desired_state.

Let tile_step (total_distance : Z) (t : tile) : res Z :=
  current_coords ← coords_of_tile current_state t;
  desired_coords ← coords_of_tile desired_state t;
  Ok (total_distance
      + (Z.abs (Z.of_nat current_coords.1 - Z.of_nat desired_coords.1)
         + Z.abs (Z.of_nat current_coords.2 - Z.of_nat desired_coords.2))).

Lemma tile_step_Ok total_distance t :
  t ∈ concat current_state →
  tile_step total_distance t
  = Ok (total_distance + tile_distance current_state desired_state t).
Proof.
  intros Hin. unfold tile_step, tile_distance.
  destruct (coords_of_tile_elem current_state t Hin) as (x & y & ->).
  destruct (coords_of_tile_elem desired_state t (labels_known _ Hin))
    as (x' & y' & ->).
  reflexivity.
Qed.

Lemma column_loop_Ok column total_distance :
  column ⊆ concat current_state →
  for_each tile_step total_distance column
  = Ok (total_distance
        + sumZ (tile_distance current_state desired_state <$> column)).
Proof.
  revert total_distance.
  induction column as [| t column IH]; intros total_distance Hsub;
    cbn [for_each].
  - rewrite fmap_nil, sumZ_nil. f_equal. lia.
  - rewrite tile_step_Ok by (apply Hsub; left). rewrite bind_Ok.
    rewrite IH by (intros u Hu; apply Hsub; now right).
    rewrite fmap_cons, sumZ_cons. f_equal. lia.
Qed.

Lemma columns_loop_Ok columns total_distance :
  concat columns ⊆ concat current_state →
  for_each (λ total_distance column, for_each tile_step total_distance column)
    total_distance columns
  = Ok (total_distance
        + sumZ (tile_distance current_state desired_state <$> concat columns)).
Proof.
  revert total_distance.
  induction columns as [| column columns IH]; intros total_distance Hsub;
    cbn [for_each concat].
  - rewrite fmap_nil, sumZ_nil. f_equal. lia.
  - rewrite column_loop_Ok
      by (intros u Hu; apply Hsub; simpl; apply elem_of_app; now left).
    rewrite bind_Ok. rewrite IH
      by (intros u Hu; apply Hsub; simpl; apply elem_of_app; now right).
    f_equal. rewrite fmap_app, sumZ_app. lia.
Qed.

Lemma manhattan_distance_sum :
  manhattan_distance current_state desired_state
  = Ok (sumZ (tile_distance current_state desired_state <$> concat current_state)).
Proof.
  unfold manhattan_distance. fold tile_step.
  rewrite (columns_loop_Ok current_state 0) by done. f_equal.
Qed.
End ManhattanSum.

(** A state is at distance 0 from itself. *)
Lemma manhattan_distance_same (s : State) : manhattan_distance s s = Ok 0.
Proof.
  rewrite manhattan_distance_sum by done. f_equal.
  assert (∀ l : list tile, sumZ (tile_distance s s <$> l) = 0) as H; [| apply H].
  induction l as [| t l IH]; [reflexivity |].
  rewrite fmap_cons, sumZ_cons, IH. unfold tile_distance.
  destruct (coords_of_tile s t) as [[x y] |]; simpl; lia.
Qed.

Lemma misplaced_column_same (s : State) x (g : nat → nat) column misplaced :
  (∀ i t, column !! i = Some t → cell s x (g i) = Some t) →
  for_each (λ misplaced '(y, t),
      d ← getitem2 s x y;
      if negb (String.eqb t d) then Ok (misplaced + 1) else Ok misplaced)
    misplaced (imap (λ i t, (g i, t)) column)
  = Ok misplaced.
Proof.
  revert g. induction column as [| t column IH]; intros g Hcell; [done |].
  rewrite imap_cons. cbn [for_each].
  rewrite getitem2_cell, (Hcell 0%nat t eq_refl), bind_Ok, String.eqb_refl.
  cbn [negb]. rewrite bind_Ok.
  apply (IH (g ∘ S)). intros i u Hi. now apply (Hcell (S i)).
Qed.

Lemma misplaced_columns_same (s : State) (g : nat → nat) columns misplaced :
  (∀ i column, columns !! i = Some column → s !! g i = Some column) →
  for_each (λ misplaced '(x, column),
      for_each (λ misplaced '(y, t),
          d ← getitem2 s x y;
          if negb (String.eqb t d) then Ok (misplaced + 1) else Ok misplaced)
        misplaced (enumerate column))
    misplaced (imap (λ i column, (g i, column)) columns)
  = Ok misplaced.
Proof.
  revert g. induction columns as [| column columns IH]; intros g Hcol; [done |].
  rewrite imap_cons. cbn [for_each].
  match goal with
  | |- context [for_each ?body misplaced (enumerate column)] =>
      assert (for_each body misplaced (enumerate column) = Ok misplaced) as ->
  end.
  - apply (misplaced_column_same s (g 0%nat) id). intros i t Hi.
    unfold cell. now rewrite (Hcol 0%nat column eq_refl).
  - rewrite bind_Ok. apply (IH (g ∘ S)). intros i c Hi. now apply (Hcol (S i)).
Qed.

Lemma number_of_misplaced_tiles_same (s : State) :
  number_of_misplaced_tiles s s = Ok 0.
Proof.
  unfold number_of_misplaced_tiles, enumerate at 2.
  now apply (misplaced_columns_same s id).
Qed.

(** ** One move changes the Manhattan distance by at most 2 *)

Lemma sumZ_indicator (c : tile) (l : list tile) :
  NoDup l → sumZ ((λ t, if decide (t = c) then 1 else 0) <$> l) ≤ 1.
Proof.
  induction 1 as [| t l Hnotin Hnd IH]; [rewrite fmap_nil, sumZ_nil; lia |].
  rewrite fmap_cons, sumZ_cons. destruct (decide (t = c)) as [-> |]; [| lia].
  assert (sumZ ((λ t, if decide (t = c) then 1 else 0) <$> l) = 0) as ->; [| lia].
  clear IH Hnd. induction l as [| u l IH]; [reflexivity |].
  rewrite fmap_cons, sumZ_cons. apply not_elem_of_cons in Hnotin as [Hne Hl].
  rewrite decide_False by congruence. rewrite IH by exact Hl. lia.
Qed.

Lemma sumZ_le_indicators (f g i1 i2 : tile → Z) (l : list tile) :
  (∀ t, t ∈ l → f t ≤ g t + i1 t + i2 t) →
  sumZ (f <$> l) ≤ sumZ (g <$> l) + sumZ (i1 <$> l) + sumZ (i2 <$> l).
Proof.
  induction l as [| t l IH]; intros H.
  - rewrite !fmap_nil, !sumZ_nil. lia.
  - rewrite !fmap_cons, !sumZ_cons.
    specialize (H t (list_elem_of_here _ _)) as Ht.
    specialize (IH (λ u Hu, H u (list_elem_of_further _ _ _ Hu))). lia.
Qed.

Section Swap.
Context (s desired_state : State) (x y x2 y2 : nat) (a b : tile).
Hypothesis s_nodup : NoDup (concat s).
Hypothesis cell_b : cell s x y = Some b.
Hypothesis cell_a : cell s x2 y2 = Some a.
Hypothesis adjacent :
  Z.abs (Z.of_nat x2 - Z.of_nat x) + Z.abs (Z.of_nat y2 - Z.of_nat y) = 1.

Let s' := swap_cells s x y x2 y2.

Lemma swap_nodup : NoDup (concat s').
Proof.
  apply NoDup_concat_cells. eapply swap_cells_injective; eauto.
  now apply NoDup_concat_cells.
Qed.

Lemma swap_coords_b : coords_of_tile s' b = Ok (x2, y2).
Proof.
  apply coords_of_tile_cell; [apply swap_nodup |]. unfold s'.
  rewrite (cell_swap_cells _ _ _ _ _ a b) by done. now rewrite decide_True.
Qed.

Lemma swap_coords_a : coords_of_tile s' a = Ok (x, y).
Proof.
  apply coords_of_tile_cell; [apply swap_nodup |]. unfold s'.
  rewrite (cell_swap_cells _ _ _ _ _ a b) by done.
  rewrite decide_False by lia. now rewrite decide_True.
Qed.

Lemma swap_coords_other t :
  t ∈ concat s → t ≠ a → t ≠ b → coords_of_tile s' t = coords_of_tile s t.
Proof.
  intros (i & j & Hc)%coords_of_tile_elem Ha Hb. rewrite Hc.
  apply coords_of_tile_Ok in Hc.
  apply coords_of_tile_cell; [apply swap_nodup |]. unfold s'.
  rewrite (cell_swap_cells _ _ _ _ _ a b) by done.
  rewrite decide_False by (intros [-> ->]; congruence).
  now rewrite decide_False by (intros [-> ->]; congruence).
Qed.

Lemma swap_tile_distance t :
  t ∈ concat s →
  tile_distance s' desired_state t
  ≤ tile_distance s desired_state t
    + (if decide (t = b) then 1 else 0) + (if decide (t = a) then 1 else 0).
Proof.
  intros Hin. unfold tile_distance.
  destruct (decide (t = b)) as [-> | Hb].
  { rewrite swap_coords_b, (coords_of_tile_cell s b x y) by done.
    destruct (coords_of_tile desired_state b) as [[i j] |]; simpl;
      destruct (decide (b = a)); lia. }
  destruct (decide (t = a)) as [-> | Ha].
  { rewrite swap_coords_a, (coords_of_tile_cell s a x2 y2) by done.
    destruct (coords_of_tile desired_state a) as [[i j] |]; simpl; lia. }
  rewrite swap_coords_other by done.
  destruct (coords_of_tile s t) as [[i j] |]; [| lia].
  destruct (coords_of_tile desired_state t) as [[i' j'] |]; lia.
Qed.

Lemma swap_manhattan_distance :
  concat s ⊆ concat desired_state →
  ∃ hp h, manhattan_distance s desired_state = Ok hp
          ∧ manhattan_distance s' desired_state = Ok h
          ∧ h ≤ hp + 2.
Proof.
  intros Hsub.
  assert (concat s' ≡ₚ concat s) as Hperm.
  { apply NoDup_Permutation; [apply swap_nodup | exact s_nodup |].
    intros t. eapply swap_cells_elem; eauto. }
  eexists _, _. split; [now apply manhattan_distance_sum |].
  split. { apply manhattan_distance_sum. now rewrite Hperm. }
  rewrite (sumZ_Permutation _ (tile_distance s' desired_state <$> concat s))
    by now rewrite Hperm.
  pose proof (sumZ_le_indicators _ _ _ _ (concat s) swap_tile_distance).
  pose proof (sumZ_indicator b (concat s) s_nodup).
  pose proof (sumZ_indicator a (concat s) s_nodup).
  lia.
Qed.
End Swap.

Lemma manhattan_distance_step d (s s' desired_state : State) :
  NoDup (concat s) → concat s ⊆ concat desired_state →
  move_in d s = Ok (Some s') →
  ∃ hp h, manhattan_distance s desired_state = Ok hp
          ∧ manhattan_distance s' desired_state = Ok h
          ∧ h ≤ hp + 2.
Proof.
  intros Hnd Hsub (x & y & x2 & y2 & a & _ & Hx & Hy & Hb & Ha & ->)%move_in_Some.
  eapply swap_manhattan_distance; eauto.
  pose proof (offset_unit d). lia.
Qed.

(** ** Hill-climb with a large enough tolerance is A* *)

Section HillClimb.
Context (heuristic : heuristic_fn) (desired_state : State).
Context (backtracking_allowed bound : Z) (Q : State → Prop).
Hypothesis Q_move : ∀ s d s', Q s → move_in d s = Ok (Some s') → Q s'.
Hypothesis heuristic_step : ∀ s d s',
  Q s → move_in d s = Ok (Some s') →
  ∃ hp h, heuristic s desired_state = Ok hp
          ∧ heuristic s' desired_state = Ok h ∧ h ≤ hp + bound.
Hypothesis tolerant : bound + 1 ≤ backtracking_allowed.

Let hc : Frontier :=
  hill_climb_frontier backtracking_allowed heuristic desired_state.
Let astar : Frontier := a_star_frontier heuristic desired_state.
Let good (node : Node) : Prop := Q (state node) ∧ 0 ≤ num_parents node.

Lemma good_child current_node d s :
  good current_node → move_in d (state current_node) = Ok (Some s) →
  good (child current_node d s).
Proof.
  intros [HQ Hn] Hmove. split; simpl; [eapply Q_move; eauto | lia].
Qed.

Lemma open_set_add_child current_node d s (os : list item) :
  good current_node → move_in d (state current_node) = Ok (Some s) →
  open_set_add hc (child current_node d s) os
  = open_set_add astar (child current_node d s) os.
Proof.
  intros [HQ Hn] Hmove.
  destruct (heuristic_step _ _ _ HQ Hmove) as (hp & h & Hhp & Hh & Hle).
  cbn. rewrite Hhp, Hh. cbn.
  replace (0 <? num_parents current_node + 1) with true by lia.
  now replace (_ <? _) with false by lia.
Qed.

Lemma open_set_add_if_new_eq closed_set current_node d s (os : list item) :
  good current_node → move_in d (state current_node) = Ok s →
  open_set_add_if_new hc closed_set current_node s (label d) os
  = open_set_add_if_new astar closed_set current_node s (label d) os.
Proof.
  intros Hgood Hmove. unfold open_set_add_if_new.
  destruct s as [s |]; [| reflexivity].
  destruct (_state_is_valid _ _); [| reflexivity].
  now apply (open_set_add_child current_node d s).
Qed.

Lemma expand_eq closed_set current_node (os : list item) :
  good current_node →
  expand hc closed_set current_node os
  = expand astar closed_set current_node os.
Proof.
  intros Hgood. unfold expand.
  destruct (up (state current_node)) as [s1 |] eqn:H1; [| reflexivity].
  rewrite !bind_Ok.
  rewrite (open_set_add_if_new_eq _ _ Up) by done.
  destruct (open_set_add_if_new astar _ _ s1 _ _) as [os1 |]; [| reflexivity].
  rewrite !bind_Ok.
  destruct (left (state current_node)) as [s2 |] eqn:H2; [| reflexivity].
  rewrite !bind_Ok.
  rewrite (open_set_add_if_new_eq _ _ Left) by done.
  destruct (open_set_add_if_new astar _ _ s2 _ _) as [os2 |]; [| reflexivity].
  rewrite !bind_Ok.
  destruct (down (state current_node)) as [s3 |] eqn:H3; [| reflexivity].
  rewrite !bind_Ok.
  rewrite (open_set_add_if_new_eq _ _ Down) by done.
  destruct (open_set_add_if_new astar _ _ s3 _ _) as [os3 |]; [| reflexivity].
  rewrite !bind_Ok.
  destruct (right (state current_node)) as [s4 |] eqn:H4; [| reflexivity].
  rewrite !bind_Ok.
  now apply (open_set_add_if_new_eq _ _ Right).
Qed.

Lemma search_loop_eq fuel closed_set current_node (os : list item) :
  good current_node → Forall (λ it : item, good it.2) os →
  search_loop hc desired_state fuel closed_set current_node os
  = search_loop astar desired_state fuel closed_set current_node os.
Proof.
  revert closed_set current_node os.
  induction fuel as [| fuel IH]; intros closed_set current_node os Hcur Hos;
    [reflexivity |].
  simpl. case_bool_decide; [| reflexivity].
  rewrite expand_eq by exact Hcur.
  destruct (expand astar _ _ _) as [os1 | e] eqn:Hexp; [| reflexivity].
  apply (expand_holds astar good good_child) in Hexp; [| done..].
  change (open_set_get hc os1) with (pq_get os1).
  change (open_set_get astar os1) with (pq_get os1).
  destruct (pq_get os1) as [[node os2] |] eqn:Hget; [| reflexivity].
  destruct (pq_get_Forall good _ _ _ Hexp Hget). now apply IH.
Qed.

Lemma hill_climb_eq_a_star fuel initial_state :
  Q initial_state →
  hill_climb_with backtracking_allowed heuristic fuel initial_state desired_state
  = a_star heuristic fuel initial_state desired_state.
Proof.
  intros HQ. unfold hill_climb_with, a_star, _search, search_trace.
  fold hc astar. change (open_set_new hc) with (@nil item).
  change (open_set_new astar) with (@nil item).
  rewrite search_loop_eq; [reflexivity | | constructor].
  split; [exact HQ | simpl; lia].
Qed.
End HillClimb.

(** C8 (amended): when the backtracking tolerance is at least 3, hill-climb
    with the Manhattan distance returns what A* returns, the expanded count
    and the action sequence, for every fuel (so it also runs as long), on
    every instance whose initial state has no label twice and only labels of
    the desired state.  One move raises the Manhattan distance by at most 2
    and the depth by 1, so a priority exceeds the parent's by at most 3. *)
Theorem C8_hill_climb_is_a_star_from_tolerance_3 backtracking_allowed fuel
    (initial_state desired_state : State) :
  3 ≤ backtracking_allowed →
  NoDup (concat initial_state) →
  concat initial_state ⊆ concat desired_state →
  hill_climb_with backtracking_allowed manhattan_distance fuel
    initial_state desired_state
  = a_star manhattan_distance fuel initial_state desired_state.
Proof.
  intros Htol Hnd Hsub.
  apply (hill_climb_eq_a_star manhattan_distance desired_state
           backtracking_allowed 2
           (λ s, NoDup (concat s) ∧ concat s ⊆ concat desired_state)).
  - intros s d s' [Hs Hd] Hmove.
    destruct (move_in_labels d s s' Hs Hmove) as [Hperm Hnd'].
    split; [exact Hnd' |]. now rewrite Hperm.
  - intros s d s' [Hs Hd] Hmove. now apply (manhattan_distance_step d).
  - lia.
  - split; assumption.
Qed.

Lemma C8_hill_climb_is_a_star_from_tolerance_3_witness :
  3 ≤ 3
  ∧ NoDup (concat Examples.initial_a)
  ∧ concat Examples.initial_a ⊆ concat Examples.desired_a
  ∧ hill_climb_with 3 manhattan_distance 20%nat
      Examples.initial_a Examples.desired_a
    = a_star manhattan_distance 20%nat Examples.initial_a Examples.desired_a.
Proof.
  assert (3 ≤ 3) as Htol by lia.
  assert (NoDup (concat Examples.initial_a)) as Hnd
    by (apply (bool_decide_unpack _); vm_compute; exact I).
  assert (concat Examples.initial_a ⊆ concat Examples.desired_a) as Hsub
    by (apply (bool_decide_unpack _); vm_compute; exact I).
  split; [exact Htol |]. split; [exact Hnd |]. split; [exact Hsub |].
  exact (C8_hill_climb_is_a_star_from_tolerance_3 3 20%nat _ _ Htol Hnd Hsub).
Defined.

(** C8, as stated, fails at tolerance 2, the value the source fixes: on the
    2x3 scenario hill-climb drops the only successors that lead on and
    reports no solution after 2 expansions, where A* finds one after 9. *)
Lemma C8_tolerance_2_differs_from_a_star :
  2 ≤ 2
  ∧ hill_climb_with 2 manhattan_distance 20%nat
      Examples.initial_a Examples.desired_a
    = Some (Ok (2%nat, None))
  ∧ a_star manhattan_distance 20%nat Examples.initial_a Examples.desired_a
    = Some (Ok (9%nat,
        Some ["Right;"; "Down;"; "Right;"; "Up;"; "Left;"; "Left;"; "Down;"])).
Proof. split; [lia |]. vm_compute. split; reflexivity. Qed.

(** ** What the strategies return on concrete instances *)

(** C2, as stated, fails: on the instance one move apart, breadth-first
    returns the label "Down;", which carries the separator and so is none of
    "Up", "Left", "Down", "Right". *)
Lemma C2_labels_carry_separator :
  breadth_first 5%nat Examples.initial_a Examples.one_down
  = Some (Ok (2%nat, Some ["Down;"]))
  ∧ ¬ Forall (λ a, a ∈ bare_labels) ["Down;"].
Proof.
  split; [vm_compute; reflexivity |].
  rewrite Forall_singleton. unfold bare_labels.
  rewrite !elem_of_cons, elem_of_nil.
  intros [H | [H | [H | [H | []]]]]; discriminate H.
Qed.

(** C1: the walk of [reconstruct_actions] starts at the goal node and its
    result is returned as it is, so the sequence runs from the goal back to
    the initial state.  On the 2x3 scenario of the specification the
    sequence breadth-first returns starts with "Right;", a move the initial
    state refuses; replayed in order it does not reach the goal, replayed
    backwards it does.  On the instance two moves apart the in-order replay
    ends in another state. *)
Theorem C1_returned_sequence_runs_backwards :
  let actions :=
    ["Right;"; "Down;"; "Right;"; "Up;"; "Left;"; "Left;"; "Down;"] in
  breadth_first 60%nat Examples.initial_a Examples.desired_a
  = Some (Ok (47%nat, Some actions))
  ∧ replay Examples.initial_a actions = None
  ∧ replay Examples.initial_a (rev actions) = Some Examples.desired_a
  ∧ breadth_first 10%nat Examples.initial_a Examples.down_left
    = Some (Ok (5%nat, Some ["Left;"; "Down;"]))
  ∧ replay Examples.initial_a ["Left;"; "Down;"]
    = Some [["1"; "2"]; ["4"; "0"]; ["3"; "5"]]
  ∧ replay Examples.initial_a ["Down;"; "Left;"] = Some Examples.down_left.
Proof. vm_compute. repeat split. Qed.

(** C3: with the Manhattan distance of [heuristics.py], which also counts
    the blank, A* returns 16 moves on an instance that breadth-first and
    Dijkstra solve in 14; both sequences, read from their last label to
    their first, replay to the goal. *)
Theorem C3_a_star_returns_a_longer_sequence :
  let short :=
    ["Down;"; "Right;"; "Up;"; "Left;"; "Down;"; "Left;"; "Up;"; "Right;";
     "Down;"; "Right;"; "Up;"; "Left;"; "Down;"; "Left;"] in
  let long :=
    ["Down;"; "Right;"; "Up;"; "Left;"; "Down;"; "Left;"; "Up;"; "Right;";
     "Right;"; "Down;"; "Left;"; "Up;"; "Right;"; "Down;"; "Left;"; "Left;"] in
  a_star manhattan_distance 100%nat Examples.initial_b Examples.desired_b
  = Some (Ok (68%nat, Some long))
  ∧ breadth_first 300%nat Examples.initial_b Examples.desired_b
    = Some (Ok (225%nat, Some short))
  ∧ dijkstra 300%nat Examples.initial_b Examples.desired_b
    = Some (Ok (245%nat, Some short))
  ∧ replay Examples.initial_b (rev short) = Some Examples.desired_b
  ∧ replay Examples.initial_b (rev long) = Some Examples.desired_b
  ∧ length short = 14%nat ∧ length long = 16%nat.
Proof. vm_compute. repeat split. Qed.

(** C4: both heuristics answer 0 on equal states, whatever the state; but
    one move away from the goal both answer 2: the tile and the blank are
    each counted, so neither heuristic is a lower bound of the number of
    moves left. *)
Theorem C4_heuristics_overestimate :
  (∀ s : State, manhattan_distance s s = Ok 0)
  ∧ (∀ s : State, number_of_misplaced_tiles s s = Ok 0)
  ∧ down Examples.initial_a = Ok (Some Examples.one_down)
  ∧ manhattan_distance Examples.initial_a Examples.one_down = Ok 2
  ∧ number_of_misplaced_tiles Examples.initial_a Examples.one_down = Ok 2.
Proof.
  split; [exact manhattan_distance_same |].
  split; [exact number_of_misplaced_tiles_same |].
  vm_compute. repeat split.
Qed.

(** C6: a state is tested against the closed set when it is added to the
    open set, not when it is taken from it, so a state added twice before
    its first expansion is expanded twice.  A* on an instance nine moves
    apart expands 18 nodes, the state [["3","1"],["2","0"],["5","4"]] twice;
    breadth-first on the 2x3 scenario expands 47 nodes over 44 distinct
    states; on a 2x2 instance with an unreachable goal depth-first expands
    13 nodes over the 12 reachable states. *)
Theorem C6_a_state_is_expanded_twice :
  match search_trace (a_star_frontier manhattan_distance Examples.one_down)
          Examples.one_down 20%nat Examples.initial_c with
  | Some (Ok (closed_set, Some _)) =>
      closed_set
      = [ [["0"; "1"]; ["3"; "2"]; ["5"; "4"]];
          [["0"; "1"]; ["3"; "5"]; ["4"; "2"]];
          [["1"; "0"]; ["3"; "2"]; ["5"; "4"]];
          [["1"; "0"]; ["3"; "5"]; ["4"; "2"]];
          [["1"; "2"]; ["3"; "0"]; ["5"; "4"]];
          [["3"; "1"]; ["0"; "2"]; ["5"; "4"]];
          [["3"; "1"]; ["0"; "4"]; ["2"; "5"]];
          [["3"; "1"]; ["0"; "5"]; ["4"; "2"]];
          [["3"; "1"]; ["2"; "0"]; ["5"; "4"]];
          [["3"; "1"]; ["2"; "0"]; ["5"; "4"]];
          [["3"; "1"]; ["2"; "4"]; ["0"; "5"]];
          [["3"; "1"]; ["2"; "4"]; ["5"; "0"]];
          [["3"; "1"]; ["4"; "0"]; ["2"; "5"]];
          [["3"; "1"]; ["4"; "5"]; ["0"; "2"]];
          [["3"; "1"]; ["4"; "5"]; ["2"; "0"]];
          [["3"; "1"]; ["5"; "0"]; ["4"; "2"]];
          [["3"; "1"]; ["5"; "2"]; ["0"; "4"]];
          [["3"; "1"]; ["5"; "2"]; ["4"; "0"]] ]
  | _ => False
  end
  ∧ a_star manhattan_distance 20%nat Examples.initial_c Examples.one_down
    = Some (Ok (18%nat,
        Some ["Right;"; "Right;"; "Down;"; "Left;"; "Left;"; "Up;"; "Right;";
              "Down;"; "Left;"]))
  ∧ match search_trace breadth_first_frontier Examples.desired_a 60%nat
            Examples.initial_a with
    | Some (Ok (closed_set, Some _)) =>
        length closed_set = 47%nat
        ∧ length (remove_dups closed_set) = 44%nat
    | _ => False
    end
  ∧ search_trace depth_first_frontier Examples.desired_d 20%nat
      Examples.initial_d
    = Some (Ok ([ [["0"; "1"]; ["2"; "3"]]; [["0"; "1"]; ["2"; "3"]];
                  [["0"; "2"]; ["3"; "1"]]; [["0"; "3"]; ["1"; "2"]];
                  [["1"; "0"]; ["2"; "3"]]; [["1"; "3"]; ["0"; "2"]];
                  [["1"; "3"]; ["2"; "0"]]; [["2"; "0"]; ["3"; "1"]];
                  [["2"; "1"]; ["0"; "3"]]; [["2"; "1"]; ["3"; "0"]];
                  [["3"; "0"]; ["1"; "2"]]; [["3"; "2"]; ["0"; "1"]];
                  [["3"; "2"]; ["1"; "0"]] ], None)).
Proof. vm_compute. repeat split. Qed.

(** * Further properties

    What the code does beyond the statements above: the edge cases of the
    helpers and of the move generator, the heuristics, the closed set and
    the open sets of the search, and the reading of a puzzle file. *)

(** ** [coords_of_tile] finds the first occurrence *)

Lemma index_in_column_first column t y0 y :
  index_in_column column t y0 = Some y →
  ∃ k, y = (y0 + k)%nat ∧ column !! k = Some t ∧
       ∀ j, (j < k)%nat → column !! j ≠ Some t.
Proof.
  revert y0. induction column as [| u column IH]; intros y0; simpl; [done |].
  destruct (String.eqb_spec u t) as [-> | Hne].
  - intros [= <-]. exists 0%nat. repeat split; [lia | intros; lia].
  - intros (k & -> & Hk & Hmin)%IH. exists (S k).
    repeat split; [lia | done |]. intros [| j] Hj; simpl.
    + congruence.
    + apply Hmin. lia.
Qed.

Lemma coords_from_first (s : State) t x0 x y :
  coords_from s t x0 = Some (x, y) →
  ∃ k, x = (x0 + k)%nat ∧ cell s k y = Some t ∧
       ∀ i j, cell s i j = Some t → (k < i)%nat ∨ (k = i ∧ (y ≤ j)%nat).
Proof.
  revert x0. induction s as [| c s IH]; intros x0; simpl; [done |].
  pose proof (index_in_column_spec c t 0) as Hc.
  destruct (index_in_column c t 0) as [y' |] eqn:Hidx.
  - intros [= <- <-]. apply index_in_column_first in Hidx as (k & -> & Hk & Hmin).
    exists 0%nat. repeat split; [lia | done |].
    intros [| i] j Hij; [| left; lia]. right. split; [done |].
    rewrite cell_cons_0 in Hij. simpl.
    destruct (Nat.le_gt_cases k j) as [? | Hlt]; [done |].
    now destruct (Hmin j Hlt).
  - intros (k & -> & Hk & Hmin)%IH. exists (S k).
    repeat split; [lia | done |]. intros [| i] j Hij.
    + rewrite cell_cons_0 in Hij. exfalso. apply Hc.
      eapply list_elem_of_lookup_2; eauto.
    + rewrite cell_cons_S in Hij. destruct (Hmin i j Hij); [left | right]; lia.
Qed.

Lemma coords_of_tile_missing (s : State) t :
  t ∉ concat s ↔ coords_of_tile s t = Raise (missing_tile s t).
Proof.
  unfold coords_of_tile, missing_tile.
  pose proof (coords_from_spec s t 0) as H.
  destruct (coords_from s t 0) as [[x y] |].
  - destruct H as (k & _ & Hk). split; [| discriminate].
    intros Hn. exfalso. apply Hn, elem_of_concat_cell. eauto.
  - tauto.
Qed.

(** X1: [coords_of_tile] returns the first cell that holds the label, in
    the order of its two loops: it answers [(x, y)] exactly when the cell
    [(x, y)] holds the label and every cell that holds it is in a later
    column, or in column [x] at row [y] or below. *)
Theorem coords_of_tile_first_occurrence (s : State) t x y :
  coords_of_tile s t = Ok (x, y) ↔
  cell s x y = Some t ∧
  ∀ i j, cell s i j = Some t → (x < i)%nat ∨ (x = i ∧ (y ≤ j)%nat).
Proof.
  assert (∀ x y, coords_of_tile s t = Ok (x, y) →
            cell s x y = Some t ∧
            ∀ i j, cell s i j = Some t → (x < i)%nat ∨ (x = i ∧ (y ≤ j)%nat))
    as Hfirst.
  { clear x y. intros x y. unfold coords_of_tile.
    destruct (coords_from s t 0) as [[x' y'] |] eqn:Hc; [| discriminate].
    intros [= -> ->]. apply coords_from_first in Hc as (k & -> & Hk & Hmin).
    split; [exact Hk | exact Hmin]. }
  split; [apply Hfirst |]. intros [Hc Hmin].
  destruct (coords_of_tile_elem s t) as (x' & y' & H).
  { apply elem_of_concat_cell. eauto. }
  rewrite H. apply Hfirst in H as [Hc' Hmin'].
  specialize (Hmin _ _ Hc'). specialize (Hmin' _ _ Hc).
  do 2 f_equal; lia.
Qed.


(** ** [_move]: the offsets it refuses, the missing blank, ragged grids *)

(** X3: the two assertions of [_move] let through the offsets of the four
    directions only: any other offset raises [AssertionError], whatever the
    state, even one without a blank. *)
Theorem _move_refuses_other_offsets (state : State) (dx dy : Z) :
  (dx, dy) ∉ offset <$> [Up; Left; Down; Right] →
  ∃ msg, _move state (dx, dy) = Raise (AssertionError msg).
Proof.
  intros Hn. unfold _move. simpl.
  destruct (negb ((dx =? 0) || (dy =? 0))) eqn:H1; [eauto |].
  destruct (negb ((Z.abs dx =? 1) || (Z.abs dy =? 1))) eqn:H2; [eauto |].
  exfalso. apply Hn. simpl. rewrite !elem_of_cons.
  assert ((dx = 0 ∧ (dy = 1 ∨ dy = -1)) ∨ (dy = 0 ∧ (dx = 1 ∨ dx = -1)))
    as [[-> [-> | ->]] | [-> [-> | ->]]] by lia; tauto.
Qed.

Lemma _move_refuses_other_offsets_witness :
  ((1, 1) ∉ offset <$> [Up; Left; Down; Right])
  ∧ ∃ msg, _move Examples.initial_a (1, 1) = Raise (AssertionError msg).
Proof.
  assert ((1, 1) ∉ offset <$> [Up; Left; Down; Right]) as Hn
    by (apply (bool_decide_unpack _); vm_compute; exact I).
  split; [exact Hn |].
  exact (_move_refuses_other_offsets Examples.initial_a 1 1 Hn).
Defined.



Lemma state_eq_cells (s s' : State) :
  length <$> s = length <$> s' → (∀ i j, cell s i j = cell s' i j) → s = s'.
Proof.
  intros Hshape Hcell.
  assert (length s = length s') as Hlen
    by (rewrite <- (length_fmap length s), Hshape; apply length_fmap).
  apply list_eq_same_length with (length s); try done.
  intros i c c' Hi Hc Hc'.
  pose proof (f_equal (λ l, l !! i) Hshape) as E. simpl in E.
  rewrite !list_lookup_fmap, Hc, Hc' in E. injection E as E.
  apply list_eq_same_length with (length c); try done.
  intros j t t' Hj Ht Ht'. specialize (Hcell i j). unfold cell in Hcell.
  rewrite Hc, Hc' in Hcell. simpl in Hcell. congruence.
Qed.

(** Two grids of the same shape are equal when every cell of the first
    holds the same label in the second. *)
Lemma state_eq_agree (s d : State) :
  length <$> s = length <$> d →
  (∀ x y t, cell s x y = Some t → cell d x y = Some t) → s = d.
Proof.
  intros Hshape Hcells. apply state_eq_cells; [exact Hshape |].
  intros i j. destruct (cell s i j) as [t |] eqn:Hs; [symmetry; eauto |].
  unfold cell in *. pose proof (f_equal (λ l, l !! i) Hshape) as E.
  simpl in E. rewrite !list_lookup_fmap in E.
  destruct (s !! i) as [c |], (d !! i) as [c' |]; try discriminate; [| done].
  simpl in *. injection E as E. symmetry. apply lookup_ge_None.
  apply lookup_ge_None in Hs. lia.
Qed.

Lemma swap_cells_back (s : State) x y x2 y2 a b :
  cell s x y = Some b → cell s x2 y2 = Some a →
  swap_cells (swap_cells s x y x2 y2) x2 y2 x y = s.
Proof.
  intros Hb Ha. set (s' := swap_cells s x y x2 y2).
  assert (cell s' x2 y2 = Some b) as Hb'.
  { unfold s'. rewrite (cell_swap_cells _ _ _ _ _ a b) by done.
    now rewrite decide_True. }
  assert (cell s' x y = Some a) as Ha'.
  { unfold s'. rewrite (cell_swap_cells _ _ _ _ _ a b) by done.
    destruct (decide (x = x2 ∧ y = y2)) as [[-> ->] |]; [congruence |].
    now rewrite decide_True. }
  apply state_eq_cells.
  - unfold s'. now rewrite !shape_swap_cells.
  - intros i j. rewrite (cell_swap_cells _ _ _ _ _ a b) by done.
    unfold s'. rewrite (cell_swap_cells _ _ _ _ _ a b) by done.
    repeat case_decide; destruct_and?; subst; congruence.
Qed.

Lemma offset_opposite d :
  (offset (opposite d)).1 = - (offset d).1
  ∧ (offset (opposite d)).2 = - (offset d).2.
Proof. now destruct d. Qed.

(** X5: on a well-formed grid a move is undone by the opposite move: when
    a direction returns the state [s'], the opposite direction applied to
    [s'] returns the state the move started from. *)
Theorem move_in_opposite w h d (s s' : State) :
  well_formed w h s → move_in d s = Ok (Some s') →
  move_in (opposite d) s' = Ok (Some s).
Proof.
  intros Hwf Hmove.
  destruct (well_formed_blank w h s Hwf) as (x & y & Hc & Hx & Hy).
  rewrite (move_in_well_formed w h d s x y Hwf Hc) in Hmove.
  destruct (in_range _ w && in_range _ h) eqn:Hin; [| discriminate].
  injection Hmove as <-. apply andb_prop in Hin as [Hinx Hiny].
  unfold in_range in Hinx, Hiny.
  set (x2 := Z.to_nat (Z.of_nat x + (offset d).1)) in *.
  set (y2 := Z.to_nat (Z.of_nat y + (offset d).2)) in *.
  pose proof (coords_of_tile_Ok _ _ _ _ Hc) as Hb.
  destruct (well_formed_cell w h s x2 y2 Hwf) as [a Ha]; [lia.. |].
  pose proof Hwf as (_ & _ & Hnd & _).
  assert (well_formed w h (swap_cells s x y x2 y2)) as Hwf'
    by (apply swap_cells_well_formed; eauto).
  rewrite (move_in_well_formed w h (opposite d) _ x2 y2 Hwf'
             (swap_coords_b s x y x2 y2 a blank Hnd Hb Ha)).
  destruct (offset_opposite d) as [-> ->].
  replace (Z.of_nat x2 + - (offset d).1) with (Z.of_nat x) by lia.
  replace (Z.of_nat y2 + - (offset d).2) with (Z.of_nat y) by lia.
  unfold in_range.
  replace ((0 <=? Z.of_nat x) && (Z.of_nat x <? Z.of_nat w)) with true by lia.
  replace ((0 <=? Z.of_nat y) && (Z.of_nat y <? Z.of_nat h)) with true by lia.
  simpl. rewrite !Nat2Z.id. do 2 f_equal. eapply swap_cells_back; eauto.
Qed.

Lemma move_in_opposite_witness :
  well_formed 3 2 Examples.initial_a
  ∧ move_in Down Examples.initial_a = Ok (Some Examples.one_down)
  ∧ move_in Up Examples.one_down = Ok (Some Examples.initial_a).
Proof.
  assert (well_formed 3 2 Examples.initial_a) as Hwf
    by (apply (bool_decide_unpack _); vm_compute; exact I).
  assert (move_in Down Examples.initial_a = Ok (Some Examples.one_down))
    as Hmove by reflexivity.
  split; [exact Hwf |]. split; [exact Hmove |].
  exact (move_in_opposite 3 2 Down _ _ Hwf Hmove).
Defined.



(** X7: [_move] tests the row of the target against the length of the
    first column only: on a grid whose columns differ in length, a target
    that passes both range tests but lies in a shorter column makes the move
    raise [IndexError]; it does not return [None]. *)
Theorem move_in_ragged d (s : State) x y column0 :
  coords_of_tile s blank = Ok (x, y) → s !! 0%nat = Some column0 →
  in_range (Z.of_nat x + (offset d).1) (length s) = true →
  in_range (Z.of_nat y + (offset d).2) (length column0) = true →
  cell s (Z.to_nat (Z.of_nat x + (offset d).1))
         (Z.to_nat (Z.of_nat y + (offset d).2)) = None →
  move_in d s = Raise IndexError.
Proof.
  intros Hc H0 Hx Hy Hcell. rewrite (move_in_run d s x y Hc).
  cbv zeta. rewrite Hx, H0, Hy, Hcell. reflexivity.
Qed.

Lemma move_in_ragged_witness :
  coords_of_tile Examples.ragged blank = Ok (0%nat, 1%nat)
  ∧ move_in Right Examples.ragged = Raise IndexError.
Proof.
  assert (coords_of_tile Examples.ragged blank = Ok (0%nat, 1%nat)) as Hc
    by reflexivity.
  split; [exact Hc |].
  exact (move_in_ragged Right Examples.ragged 0 1 ["1"; "0"] Hc
           eq_refl eq_refl eq_refl eq_refl).
Defined.

(** ** [number_of_misplaced_tiles] *)

Lemma elem_of_enumerate {A} (l : list A) i a :
  (i, a) ∈ enumerate l ↔ l !! i = Some a.
Proof.
  unfold enumerate. rewrite elem_of_lookup_imap. split.
  - now intros (j & b & [= -> ->] & H).
  - intros H. eauto.
Qed.

Section Misplaced.
Context (desired_state : State).

Let tile_step (x : nat) (misplaced : Z) (yt : nat * tile) : res Z :=
  let '(y, t) := yt in
  d ← getitem2 desired_state x y;
  if negb (String.eqb t d) then Ok (misplaced + 1) else Ok misplaced.

Lemma misplaced_column_loop x (l : list (nat * tile)) : ∀ misplaced,
  match for_each (tile_step x) misplaced l with
  | Ok misplaced' =>
      misplaced ≤ misplaced' ≤ misplaced + Z.of_nat (length l)
      ∧ (∀ y t, (y, t) ∈ l → is_Some (cell desired_state x y))
      ∧ (misplaced' = misplaced ↔
         ∀ y t, (y, t) ∈ l → cell desired_state x y = Some t)
  | Raise e =>
      e = IndexError ∧ ∃ y t, (y, t) ∈ l ∧ cell desired_state x y = None
  end.
Proof.
  induction l as [| [y t] l IH]; intros misplaced; cbn [for_each].
  - simpl. split; [lia |].
    split; [intros y t H; now apply elem_of_nil in H |].
    split; [| done]. intros _ y t H. now apply elem_of_nil in H.
  - change (tile_step x misplaced (y, t))
      with (d ← getitem2 desired_state x y;
            if negb (String.eqb t d) then Ok (misplaced + 1) else Ok misplaced).
    fold (tile_step x). rewrite (getitem2_cell desired_state x y).
    destruct (cell desired_state x y) as [d |] eqn:Hd.
    2: { simpl. split; [done |]. exists y, t. split; [left | done]. }
    rewrite bind_Ok.
    assert (∃ m1, (if negb (String.eqb t d) then Ok (misplaced + 1)
                   else Ok misplaced) = Ok m1
                  ∧ (m1 = misplaced ∧ t = d ∨ m1 = misplaced + 1 ∧ t ≠ d))
      as (m1 & -> & Hm1).
    { destruct (String.eqb_spec t d); simpl; eauto. }
    rewrite bind_Ok. specialize (IH m1).
    destruct (for_each (tile_step x) m1 l) as [m2 | e].
    + destruct IH as (Hb & Hs & Hz). cbn [length]. split; [lia |]. split.
      * intros y' t' [[= -> ->] | H]%elem_of_cons; [eauto | eauto].
      * split.
        -- intros E. destruct Hm1 as [[-> ->] | [-> Hne]]; [| lia].
           intros y' t' [[= -> ->] | H]%elem_of_cons; [done |].
           now apply Hz.
        -- intros H. pose proof (H y t (list_elem_of_here _ _)) as E.
           assert (t = d) as -> by congruence.
           destruct Hm1 as [[-> _] | [_ Hne]]; [| done]. apply Hz.
           intros y' t' Hin. apply H. now right.
    + destruct IH as (-> & y' & t' & Hin & Hc). split; [done |].
      exists y', t'. split; [now right | done].
Qed.

Lemma misplaced_columns_loop (l : list (nat * list tile)) : ∀ misplaced,
  match for_each (λ misplaced '(x, column),
                    for_each (tile_step x) misplaced (enumerate column))
          misplaced l with
  | Ok misplaced' =>
      misplaced ≤ misplaced' ≤ misplaced + Z.of_nat (length (concat l.*2))
      ∧ (∀ x column y t, (x, column) ∈ l → column !! y = Some t →
           is_Some (cell desired_state x y))
      ∧ (misplaced' = misplaced ↔
         ∀ x column y t, (x, column) ∈ l → column !! y = Some t →
           cell desired_state x y = Some t)
  | Raise e =>
      e = IndexError ∧ ∃ x column y t,
        (x, column) ∈ l ∧ column !! y = Some t ∧ cell desired_state x y = None
  end.
Proof.
  induction l as [| [x column] l IH]; intros misplaced; cbn [for_each].
  - simpl. split; [lia |].
    split; [intros x c y t H; now apply elem_of_nil in H |].
    split; [| done]. intros _ x c y t H. now apply elem_of_nil in H.
  - pose proof (misplaced_column_loop x (enumerate column) misplaced) as Hc.
    destruct (for_each (tile_step x) misplaced (enumerate column)) as [m1 | e].
    2: { simpl. destruct Hc as (-> & y & t & Hin%elem_of_enumerate & Hn).
         split; [done |]. exists x, column, y, t. split; [left | done]. }
    rewrite bind_Ok. specialize (IH m1).
    destruct Hc as (Hb & Hs & Hz).
    unfold enumerate in Hb. rewrite length_imap in Hb.
    match goal with |- match ?r with _ => _ end => destruct r as [m2 | e] end.
    + destruct IH as (Hb2 & Hs2 & Hz2). cbn [fmap list_fmap concat snd].
      rewrite length_app. split; [lia |]. split.
      * intros x' c' y t [[= -> ->] | H]%elem_of_cons Hy.
        -- eapply Hs. apply elem_of_enumerate. eauto.
        -- eauto.
      * split.
        -- intros E. assert (m2 = m1) as E1 by lia.
           intros x' c' y t [[= -> ->] | H]%elem_of_cons Hy.
           ++ apply Hz; [lia |]. now apply elem_of_enumerate.
           ++ eapply Hz2; eauto.
        -- intros H. assert (m1 = misplaced) as ->.
           { apply Hz. intros y t Hin%elem_of_enumerate.
             apply (H x column); [left | done]. }
           apply Hz2. intros x' c' y t Hin. apply H. now right.
    + destruct IH as (-> & x' & c' & y & t & Hin & Hy & Hn). split; [done |].
      exists x', c', y, t. split; [now right | done].
Qed.
End Misplaced.

Lemma number_of_misplaced_tiles_cases (s d : State) :
  match number_of_misplaced_tiles s d with
  | Ok n =>
      0 ≤ n ≤ Z.of_nat (length (concat s))
      ∧ (∀ x y t, cell s x y = Some t → is_Some (cell d x y))
      ∧ (n = 0 ↔ ∀ x y t, cell s x y = Some t → cell d x y = Some t)
  | Raise e =>
      e = IndexError ∧ ∃ x y t, cell s x y = Some t ∧ cell d x y = None
  end.
Proof.
  pose proof (misplaced_columns_loop d (enumerate s) 0) as H.
  unfold number_of_misplaced_tiles.
  match type of H with match ?r with _ => _ end =>
    match goal with |- match ?r' with _ => _ end => change r' with r end;
    destruct r as [n | e]
  end.
  - destruct H as (Hb & Hs & Hz).
    assert ((enumerate s).*2 = s) as E.
    { unfold enumerate. apply list_eq. intros i.
      rewrite list_lookup_fmap, list_lookup_imap. now destruct (s !! i). }
    rewrite E in Hb. split; [lia |]. split.
    + intros x y t (column & Hx & Hy)%cell_Some.
      eapply Hs; [apply elem_of_enumerate |]; eauto.
    + rewrite Hz. split.
      * intros Hall x y t (column & Hx & Hy)%cell_Some.
        eapply Hall; [apply elem_of_enumerate |]; eauto.
      * intros Hall x column y t Hx%elem_of_enumerate Hy. apply Hall.
        apply cell_Some. eauto.
  - destruct H as (-> & x & column & y & t & Hx%elem_of_enumerate & Hy & Hn).
    split; [done |]. exists x, y, t. split; [| done]. apply cell_Some. eauto.
Qed.

(** X8: [number_of_misplaced_tiles] returns a count between 0 and the
    number of cells of [current_state] when [desired_state] has every cell
    that [current_state] has; otherwise it raises [IndexError], and it
    raises nothing else. *)
Theorem number_of_misplaced_tiles_bounds (s d : State) :
  match number_of_misplaced_tiles s d with
  | Ok n =>
      0 ≤ n ≤ Z.of_nat (length (concat s))
      ∧ ∀ x y t, cell s x y = Some t → is_Some (cell d x y)
  | Raise e =>
      e = IndexError ∧ ∃ x y t, cell s x y = Some t ∧ cell d x y = None
  end.
Proof.
  pose proof (number_of_misplaced_tiles_cases s d) as H.
  destruct (number_of_misplaced_tiles s d); [| exact H].
  destruct H as (? & ? & _). done.
Qed.

(** X9: on two states of the same shape [number_of_misplaced_tiles] is 0
    exactly when the states are equal. *)
Theorem number_of_misplaced_tiles_zero (s d : State) :
  length <$> s = length <$> d →
  number_of_misplaced_tiles s d = Ok 0 ↔ s = d.
Proof.
  intros Hshape. split; [| intros ->; apply number_of_misplaced_tiles_same].
  intros H. pose proof (number_of_misplaced_tiles_cases s d) as Hc.
  rewrite H in Hc. destruct Hc as (_ & _ & [Hz _]).
  apply state_eq_agree; [exact Hshape | exact (Hz eq_refl)].
Qed.

Lemma number_of_misplaced_tiles_zero_witness :
  length <$> Examples.initial_a = length <$> Examples.one_down
  ∧ (number_of_misplaced_tiles Examples.initial_a Examples.one_down = Ok 0
     ↔ Examples.initial_a = Examples.one_down).
Proof.
  assert (length <$> Examples.initial_a = length <$> Examples.one_down)
    as Hshape by reflexivity.
  split; [exact Hshape |].
  exact (number_of_misplaced_tiles_zero _ _ Hshape).
Defined.

(** ** [manhattan_distance] *)

Lemma tile_distance_nonneg (s d : State) t : 0 ≤ tile_distance s d t.
Proof.
  unfold tile_distance.
  destruct (coords_of_tile s t) as [[x y] |], (coords_of_tile d t) as [[i j] |];
    simpl; lia.
Qed.

Lemma sumZ_nonneg (l : list Z) : Forall (λ z, 0 ≤ z) l → 0 ≤ sumZ l.
Proof. induction 1; [rewrite sumZ_nil | rewrite sumZ_cons]; lia. Qed.

Lemma sumZ_zero (l : list Z) :
  Forall (λ z, 0 ≤ z) l → sumZ l = 0 → Forall (λ z, z = 0) l.
Proof.
  induction 1 as [| z l Hz Hl IH]; [constructor |]. rewrite sumZ_cons.
  intros H. pose proof (sumZ_nonneg l Hl). constructor; [lia |]. apply IH. lia.
Qed.

Section ManhattanRaise.
Context (current_state desired_state : State).

Lemma manhattan_column_cases column : ∀ total_distance,
  column ⊆ concat current_state →
  match for_each (λ total_distance t,
      current_coords ← coords_of_tile current_state t;
      desired_coords ← coords_of_tile desired_state t;
      Ok (total_distance
          + (Z.abs (Z.of_nat current_coords.1 - Z.of_nat desired_coords.1)
             + Z.abs (Z.of_nat current_coords.2 - Z.of_nat desired_coords.2))))
    total_distance column with
  | Ok _ => column ⊆ concat desired_state
  | Raise e =>
      ∃ t, t ∈ column ∧ (t ∉ concat desired_state)
           ∧ e = missing_tile desired_state t
  end.
Proof.
  induction column as [| t column IH]; intros total_distance Hsub;
    cbn [for_each]; [intros t Ht; now apply elem_of_nil in Ht |].
  destruct (coords_of_tile_elem current_state t) as (x & y & ->);
    [apply Hsub; left |].
  rewrite bind_Ok.
  destruct (coords_of_tile desired_state t) as [[i j] | e'] eqn:Hd.
  - rewrite !bind_Ok.
    match goal with |- match for_each ?body ?acc column with _ => _ end =>
      specialize (IH acc); destruct (for_each body acc column) as [h | e]
    end.
    + intros u [-> | Hu]%elem_of_cons.
      * apply elem_of_concat_cell. exists i, j. now apply coords_of_tile_Ok.
      * apply IH; [| done]. intros v Hv. apply Hsub. now right.
    + destruct IH as (u & Hu & Hn & ->); [intros v Hv; apply Hsub; now right |].
      exists u. split; [now right | done].
  - simpl. exists t. split; [left |].
    pose proof (coords_of_tile_Raise _ _ _ Hd) as Hn. split; [exact Hn |].
    apply coords_of_tile_missing in Hn. congruence.
Qed.

Lemma manhattan_columns_cases columns : ∀ total_distance,
  concat columns ⊆ concat current_state →
  match for_each (λ total_distance column,
    for_each (λ total_distance t,
      current_coords ← coords_of_tile current_state t;
      desired_coords ← coords_of_tile desired_state t;
      Ok (total_distance
          + (Z.abs (Z.of_nat current_coords.1 - Z.of_nat desired_coords.1)
             + Z.abs (Z.of_nat current_coords.2 - Z.of_nat desired_coords.2))))
      total_distance column)
    total_distance columns with
  | Ok _ => concat columns ⊆ concat desired_state
  | Raise e =>
      ∃ t, t ∈ concat columns ∧ (t ∉ concat desired_state)
           ∧ e = missing_tile desired_state t
  end.
Proof.
  induction columns as [| column columns IH]; intros total_distance Hsub;
    cbn [for_each concat]; [intros t Ht; now apply elem_of_nil in Ht |].
  pose proof (manhattan_column_cases column total_distance) as Hc.
  match type of Hc with _ → match ?r with _ => _ end =>
    destruct r as [total' | e']
  end.
  - rewrite bind_Ok.
    match goal with |- match for_each ?body ?acc columns with _ => _ end =>
      specialize (IH acc); destruct (for_each body acc columns) as [h | e]
    end.
    + intros u [Hu | Hu]%elem_of_app.
      * apply Hc; [| done]. intros v Hv. apply Hsub, elem_of_app. now left.
      * apply IH; [| done]. intros v Hv. apply Hsub, elem_of_app. now right.
    + destruct IH as (u & Hu & Hn & ->);
        [intros v Hv; apply Hsub, elem_of_app; now right |].
      exists u. split; [apply elem_of_app; now right | done].
  - simpl. destruct Hc as (u & Hu & Hn & ->);
      [intros v Hv; apply Hsub, elem_of_app; now left |].
    exists u. split; [apply elem_of_app; now left | done].
Qed.
End ManhattanRaise.

Lemma manhattan_distance_cases (s d : State) :
  match manhattan_distance s d with
  | Ok h =>
      concat s ⊆ concat d
      ∧ h = sumZ (tile_distance s d <$> concat s) ∧ 0 ≤ h
  | Raise e =>
      ∃ t, t ∈ concat s ∧ (t ∉ concat d) ∧ e = missing_tile d t
  end.
Proof.
  pose proof (manhattan_columns_cases s d s 0 (λ t H, H)) as H.
  fold (manhattan_distance s d) in H.
  destruct (manhattan_distance s d) as [h | e] eqn:E; [| exact H].
  split; [exact H |]. rewrite manhattan_distance_sum in E by exact H.
  injection E as <-. split; [reflexivity |].
  apply sumZ_nonneg, Forall_fmap, Forall_forall.
  intros t _. apply tile_distance_nonneg.
Qed.


(** X11: on two states of the same shape, the first without a repeated
    label, [manhattan_distance] is 0 exactly when the states are equal. *)
Theorem manhattan_distance_zero (s d : State) :
  NoDup (concat s) → length <$> s = length <$> d →
  manhattan_distance s d = Ok 0 ↔ s = d.
Proof.
  intros Hnd Hshape. split; [| intros ->; apply manhattan_distance_same].
  intros H. pose proof (manhattan_distance_cases s d) as Hc.
  rewrite H in Hc. destruct Hc as (Hsub & Hsum & _).
  apply state_eq_agree; [exact Hshape |]. intros x y t Hs.
  assert (t ∈ concat s) as Hin by (apply elem_of_concat_cell; eauto).
  assert (tile_distance s d t = 0) as Ht.
  { symmetry in Hsum. apply sumZ_zero in Hsum.
    - rewrite Forall_fmap, Forall_forall in Hsum. now apply Hsum.
    - apply Forall_fmap, Forall_forall. intros u _.
      apply tile_distance_nonneg. }
  unfold tile_distance in Ht.
  rewrite (coords_of_tile_cell s t x y Hnd Hs) in Ht.
  destruct (coords_of_tile_elem d t (Hsub _ Hin)) as (i & j & Hd).
  rewrite Hd in Ht. simpl in Ht. apply coords_of_tile_Ok in Hd.
  assert (i = x ∧ j = y) as [-> ->] by lia. exact Hd.
Qed.

Lemma manhattan_distance_zero_witness :
  NoDup (concat Examples.initial_a)
  ∧ length <$> Examples.initial_a = length <$> Examples.desired_a
  ∧ (manhattan_distance Examples.initial_a Examples.desired_a = Ok 0
     ↔ Examples.initial_a = Examples.desired_a).
Proof.
  assert (NoDup (concat Examples.initial_a)) as Hnd
    by (apply (bool_decide_unpack _); vm_compute; exact I).
  assert (length <$> Examples.initial_a = length <$> Examples.desired_a)
    as Hshape by reflexivity.
  split; [exact Hnd |]. split; [exact Hshape |].
  exact (manhattan_distance_zero _ _ Hnd Hshape).
Defined.

Lemma sumZ_indicator_one (c : tile) (l : list tile) :
  NoDup l → c ∈ l → sumZ ((λ t, if decide (t = c) then 1 else 0) <$> l) = 1.
Proof.
  induction 1 as [| t l Hnotin Hnd IH]; [now intros ?%elem_of_nil |].
  rewrite fmap_cons, sumZ_cons. intros [<- | Hin]%elem_of_cons.
  - rewrite decide_True by done.
    pose proof (sumZ_indicator c (c :: l) (NoDup_cons_2 _ _ Hnotin Hnd)) as H.
    rewrite fmap_cons, sumZ_cons, decide_True in H by done.
    assert (0 ≤ sumZ ((λ t, if decide (t = c) then 1 else 0) <$> l)); [| lia].
    apply sumZ_nonneg, Forall_fmap, Forall_forall. intros u _. simpl.
    destruct (decide _); lia.
  - rewrite decide_False by (intros ->; done). rewrite IH by done. lia.
Qed.

Lemma sumZ_two_indicators (f g : tile → Z) (b a : tile) (cb ca : Z)
    (l : list tile) :
  NoDup l → b ∈ l → a ∈ l →
  (∀ t, t ∈ l → f t = g t + (if decide (t = b) then cb else 0)
                          + (if decide (t = a) then ca else 0)) →
  sumZ (f <$> l) = sumZ (g <$> l) + cb + ca.
Proof.
  intros Hnd Hb Ha Hf.
  pose proof (sumZ_indicator_one b l Hnd Hb) as Ib.
  pose proof (sumZ_indicator_one a l Hnd Ha) as Ia.
  assert (sumZ (f <$> l)
          = sumZ (g <$> l)
            + cb * sumZ ((λ t, if decide (t = b) then 1 else 0) <$> l)
            + ca * sumZ ((λ t, if decide (t = a) then 1 else 0) <$> l)) as E;
    [| rewrite E, Ib, Ia; lia].
  clear Hnd Hb Ha Ib Ia. induction l as [| t l IH].
  - rewrite !fmap_nil, !sumZ_nil. lia.
  - rewrite !fmap_cons, !sumZ_cons, (Hf t) by left.
    rewrite IH by (intros u Hu; apply Hf; now right).
    destruct (decide (t = b)), (decide (t = a)); lia.
Qed.

Lemma swap_manhattan_exact (s desired_state : State) x y x2 y2 a b :
  NoDup (concat s) → cell s x y = Some b → cell s x2 y2 = Some a →
  Z.abs (Z.of_nat x2 - Z.of_nat x) + Z.abs (Z.of_nat y2 - Z.of_nat y) = 1 →
  concat s ⊆ concat desired_state →
  ∃ hp h, manhattan_distance s desired_state = Ok hp
          ∧ manhattan_distance (swap_cells s x y x2 y2) desired_state = Ok h
          ∧ (h = hp - 2 ∨ h = hp ∨ h = hp + 2).
Proof.
  intros Hnd Hb Ha Hadj Hsub. set (s' := swap_cells s x y x2 y2).
  assert (concat s' ≡ₚ concat s) as Hperm.
  { apply NoDup_Permutation; [eapply swap_nodup; eauto | exact Hnd |].
    intros t. eapply swap_cells_elem; eauto. }
  assert (b ∈ concat s) as Hbin by (apply elem_of_concat_cell; eauto).
  assert (a ∈ concat s) as Hain by (apply elem_of_concat_cell; eauto).
  assert (a ≠ b) as Hab.
  { intros ->. apply NoDup_concat_cells in Hnd.
    destruct (Hnd _ _ _ _ _ Hb Ha). lia. }
  eexists _, _. split; [now apply manhattan_distance_sum |].
  split. { apply manhattan_distance_sum. now rewrite Hperm. }
  rewrite (sumZ_Permutation _ (tile_distance s' desired_state <$> concat s))
    by now rewrite Hperm.
  set (cb := tile_distance s' desired_state b - tile_distance s desired_state b).
  set (ca := tile_distance s' desired_state a - tile_distance s desired_state a).
  assert (∀ t, t ∈ concat s →
            tile_distance s' desired_state t
            = tile_distance s desired_state t
              + (if decide (t = b) then cb else 0)
              + (if decide (t = a) then ca else 0)) as Hpt.
  { intros t Ht. destruct (decide (t = b)) as [-> |].
    { rewrite decide_False by done. unfold cb. lia. }
    destruct (decide (t = a)) as [-> |]; [unfold ca; lia |].
    unfold tile_distance, s'.
    rewrite (swap_coords_other s x y x2 y2 a b) by done. lia. }
  rewrite (sumZ_two_indicators _ _ b a cb ca (concat s) Hnd Hbin Hain Hpt).
  assert (cb = 1 ∨ cb = -1) as Hcb.
  { unfold cb, tile_distance, s'.
    rewrite (swap_coords_b s x y x2 y2 a b), (coords_of_tile_cell s b x y) by done.
    destruct (coords_of_tile_elem desired_state b (Hsub _ Hbin)) as (i & j & ->).
    simpl. lia. }
  assert (ca = 1 ∨ ca = -1) as Hca.
  { unfold ca, tile_distance, s'.
    rewrite (swap_coords_a s x y x2 y2 a b),
      (coords_of_tile_cell s a x2 y2) by done.
    destruct (coords_of_tile_elem desired_state a (Hsub _ Hain)) as (i & j & ->).
    simpl. lia. }
  lia.
Qed.

(** X12: one move changes the Manhattan distance to a desired state by
    exactly -2, 0 or +2: the blank and the label it is exchanged with each
    come one step nearer to, or go one step further from, their places.
    (The state has no repeated label and only labels of the desired
    state.) *)
Theorem manhattan_distance_move d (s s' desired_state : State) :
  NoDup (concat s) → concat s ⊆ concat desired_state →
  move_in d s = Ok (Some s') →
  ∃ hp h, manhattan_distance s desired_state = Ok hp
          ∧ manhattan_distance s' desired_state = Ok h
          ∧ (h = hp - 2 ∨ h = hp ∨ h = hp + 2).
Proof.
  intros Hnd Hsub (x & y & x2 & y2 & a & _ & Hx & Hy & Hb & Ha & ->)%move_in_Some.
  eapply swap_manhattan_exact; eauto.
  pose proof (offset_unit d). lia.
Qed.

Lemma manhattan_distance_move_witness :
  NoDup (concat Examples.initial_a)
  ∧ concat Examples.initial_a ⊆ concat Examples.desired_a
  ∧ move_in Down Examples.initial_a = Ok (Some Examples.one_down)
  ∧ ∃ hp h, manhattan_distance Examples.initial_a Examples.desired_a = Ok hp
            ∧ manhattan_distance Examples.one_down Examples.desired_a = Ok h
            ∧ (h = hp - 2 ∨ h = hp ∨ h = hp + 2).
Proof.
  assert (NoDup (concat Examples.initial_a)) as Hnd
    by (apply (bool_decide_unpack _); vm_compute; exact I).
  assert (concat Examples.initial_a ⊆ concat Examples.desired_a) as Hsub
    by (apply (bool_decide_unpack _); vm_compute; exact I).
  assert (move_in Down Examples.initial_a = Ok (Some Examples.one_down))
    as Hmove by reflexivity.
  split; [exact Hnd |]. split; [exact Hsub |]. split; [exact Hmove |].
  exact (manhattan_distance_move Down _ _ _ Hnd Hsub Hmove).
Defined.

(** ** The closed set: [_bisect_index] and [insort] *)

(** X13: on a sorted collection [_bisect_index] returns the first index
    that holds the value, and [None] exactly when no index does. *)
Theorem bisect_index_first (a : list State) (x : State) :
  ordered a →
  match _bisect_index a x with
  | Some i => a !! i = Some x ∧ ∀ j, (j < i)%nat → a !! j ≠ Some x
  | None => x ∉ a
  end.
Proof.
  intros Hord. pose proof (_bisect_index_Some a x Hord) as Hiff.
  destruct (_bisect_index a x) as [i |] eqn:Hidx.
  - unfold _bisect_index in Hidx.
    destruct (bisect_left_loop_spec a x Hord (length a) 0 (length a))
      as (Hi & Hbelow & Habove); [lia | lia | intros; lia | |].
    { intros j s Hj Hs. apply lookup_lt_Some in Hs. lia. }
    fold (bisect_left a x) in *.
    case_bool_decide; [| discriminate].
    destruct (a !! bisect_left a x) as [c |] eqn:Hc; [| discriminate].
    unfold state_eqb in Hidx. case_bool_decide; [| discriminate].
    injection Hidx as <-. subst c. split; [exact Hc |].
    intros j Hj Hx. pose proof (Hbelow j x Hj Hx) as Hlt.
    now rewrite (ltb_irrefl (ltb := state_ltb)) in Hlt.
  - intros Hin. apply Hiff in Hin as [? [=]].
Qed.

Lemma ordered_nil : ordered [].
Proof. intros i j s t _ Hi. discriminate. Qed.

Lemma bisect_index_first_witness :
  ordered (insort (insort [] Examples.initial_a) Examples.one_down)
  ∧ match _bisect_index
            (insort (insort [] Examples.initial_a) Examples.one_down)
            Examples.one_down with
    | Some i =>
        insort (insort [] Examples.initial_a) Examples.one_down !! i
        = Some Examples.one_down
        ∧ ∀ j, (j < i)%nat →
               insort (insort [] Examples.initial_a) Examples.one_down !! j
               ≠ Some Examples.one_down
    | None =>
        Examples.one_down
        ∉ insort (insort [] Examples.initial_a) Examples.one_down
    end.
Proof.
  assert (ordered (insort (insort [] Examples.initial_a) Examples.one_down))
    as Hord by (do 2 apply insort_ordered; apply ordered_nil).
  split; [exact Hord |].
  exact (bisect_index_first _ Examples.one_down Hord).
Defined.

(** X14: [insort] keeps a sorted list sorted and adds exactly the one
    state: the result is a rearrangement of the state put in front of the
    list, whether or not the list already held it. *)
Theorem insort_adds_one (a : list State) (x : State) :
  ordered a → ordered (insort a x) ∧ insort a x ≡ₚ x :: a.
Proof.
  intros Hord. split; [now apply insort_ordered |].
  unfold insort, list_insert_at. generalize (bisect_right a x). intros i.
  rewrite <- Permutation_middle. now rewrite take_drop.
Qed.

Lemma insort_adds_one_witness :
  ordered (insort [] Examples.initial_a)
  ∧ ordered (insort (insort [] Examples.initial_a) Examples.initial_a)
  ∧ insort (insort [] Examples.initial_a) Examples.initial_a
    ≡ₚ Examples.initial_a :: insort [] Examples.initial_a.
Proof.
  assert (ordered (insort [] Examples.initial_a)) as Hord
    by (apply insort_ordered, ordered_nil).
  split; [exact Hord |].
  exact (insort_adds_one _ Examples.initial_a Hord).
Defined.

(** ** What the search loop keeps of its closed set *)

Section Closed.
Context (fr : Frontier) `{!Sound fr} (desired_state : State).
Context (P : Node → Prop) (R : State → Prop).
Hypothesis P_child : ∀ current_node d s,
  P current_node → move_in d (state current_node) = Ok (Some s) →
  P (child current_node d s).
Hypothesis P_R : ∀ node, P node → R (state node).

Lemma search_loop_closed fuel : ∀ closed_set current_node os closed_set' node,
  P current_node → holds P os →
  (∀ s, s ∈ closed_set → R s ∧ s ≠ desired_state) →
  search_loop fr desired_state fuel closed_set current_node os
  = Some (Ok (closed_set', node)) →
  (∀ s, s ∈ closed_set' → R s ∧ s ≠ desired_state)
  ∧ (length closed_set' ≤ length closed_set + fuel)%nat
  ∧ (∀ s, s ∈ closed_set → s ∈ closed_set')
  ∧ (state current_node ≠ desired_state → state current_node ∈ closed_set').
Proof.
  induction fuel as [| fuel IH]; intros closed_set current_node os closed_set'
    node Hcur Hos Hclosed; simpl; case_bool_decide as Hgoal; try discriminate.
  - intros [= <- <-]. repeat split; try apply Hclosed; try done. lia.
  - destruct (expand _ _ _ _) as [os1 | e] eqn:Hexp; [| discriminate].
    apply (expand_holds fr P P_child) in Hexp; [| done..].
    assert (∀ s, s ∈ insort closed_set (state current_node) →
              R s ∧ s ≠ desired_state) as Hclosed'.
    { intros s [-> | Hs]%elem_of_insort; [split; auto | auto]. }
    destruct (open_set_get fr os1) as [[n os2] |] eqn:Hget.
    + destruct (holds_get P _ _ _ Hexp Hget) as [Hn Hos2].
      intros (H1 & H2 & H3 & H4)%IH; [| done..].
      rewrite length_insort in H2. split; [exact H1 |]. split; [lia |].
      split; intros; apply H3, elem_of_insort; auto.
    + intros [= <- <-]. split; [exact Hclosed' |].
      rewrite length_insort. split; [lia |].
      split; intros; apply elem_of_insort; auto.
  - intros [= <- <-]. repeat split; try apply Hclosed; try done. lia.
Qed.
End Closed.

(** X15: for any open set that hands back only nodes it was given, as
    the seven do, when [_search] leaves its loop the closed
    set is sorted, is no longer than the number of rounds the loop was
    allowed, does not hold the desired state, holds the initial state unless that is
    the desired one, and holds only states that some sequence of moves
    reaches from the initial state. *)
Theorem closed_set_invariants fr `{!Sound fr} desired_state fuel initial_state
    closed_set node :
  search_trace fr desired_state fuel initial_state
  = Some (Ok (closed_set, node)) →
  ordered closed_set
  ∧ (length closed_set ≤ fuel)%nat
  ∧ (desired_state ∉ closed_set)
  ∧ (initial_state ≠ desired_state → initial_state ∈ closed_set)
  ∧ ∀ s, s ∈ closed_set → ∃ actions, replay initial_state actions = Some s.
Proof.
  intros H. split; [eapply search_trace_ordered; eauto |].
  apply (search_loop_closed fr desired_state (retraces initial_state)
           (λ s, ∃ actions, replay initial_state actions = Some s)) in H.
  - destruct H as (H1 & H2 & _ & H4). simpl in *.
    split; [exact H2 |]. split; [intros Hd; now destruct (H1 _ Hd) |].
    split; [exact H4 |]. intros s Hs. now destruct (H1 s Hs).
  - apply retraces_child.
  - intros n (actions & _ & Hplay). eauto.
  - exists []. split; reflexivity.
  - apply holds_new.
  - intros s Hs. now apply elem_of_nil in Hs.
Qed.

Lemma closed_set_invariants_witness :
  let closed_set :=
    [ [["1"; "2"]; ["0"; "4"]; ["3"; "5"]];
      [["1"; "2"]; ["3"; "4"]; ["0"; "5"]] ] in
  let node :=
    Some (Node_init Examples.one_down
            (Some (Node_init Examples.initial_a None None)) (Some "Down;")) in
  search_trace breadth_first_frontier Examples.one_down 5%nat
    Examples.initial_a
  = Some (Ok (closed_set, node))
  ∧ ordered closed_set
  ∧ (length closed_set ≤ 5)%nat
  ∧ (Examples.one_down ∉ closed_set)
  ∧ (Examples.initial_a ≠ Examples.one_down → Examples.initial_a ∈ closed_set)
  ∧ ∀ s, s ∈ closed_set →
         ∃ actions, replay Examples.initial_a actions = Some s.
Proof.
  intros closed_set node.
  assert (search_trace breadth_first_frontier Examples.one_down 5%nat
            Examples.initial_a
          = Some (Ok (closed_set, node))) as Hrun by (vm_compute; reflexivity).
  split; [exact Hrun |].
  exact (closed_set_invariants breadth_first_frontier _ _ _ _ _ Hrun).
Defined.

(** X16: for each of the seven strategies, an action sequence it returns
    leads from the initial state to the desired state when its labels are
    replayed from the last to the first. *)
Theorem returned_sequence_replays_backwards name f fuel initial_state
    desired_state n actions :
  (name, f) ∈ methods →
  f fuel initial_state desired_state = Some (Ok (n, Some actions)) →
  replay initial_state (rev actions) = Some desired_state.
Proof. apply methods_replay_rev. Qed.

Lemma returned_sequence_replays_backwards_witness :
  ("BFS", breadth_first) ∈ methods
  ∧ breadth_first 10%nat Examples.initial_a Examples.down_left
    = Some (Ok (5%nat, Some ["Left;"; "Down;"]))
  ∧ replay Examples.initial_a (rev ["Left;"; "Down;"])
    = Some Examples.down_left.
Proof.
  assert (("BFS", breadth_first) ∈ methods) as Hin
    by (apply list_elem_of_further, list_elem_of_here).
  assert (breadth_first 10%nat Examples.initial_a Examples.down_left
          = Some (Ok (5%nat, Some ["Left;"; "Down;"]))) as Hrun
    by (vm_compute; reflexivity).
  split; [exact Hin |]. split; [exact Hrun |].
  exact (returned_sequence_replays_backwards _ _ _ _ _ _ _ Hin Hrun).
Defined.

(** ** No strategy raises on a well-formed instance *)

Section NoRaise.
Context (fr : Frontier) `{!Sound fr} (desired_state : State).
Context (Q : State → Prop).
Hypothesis Q_move : ∀ s d, Q s →
  ∃ r, move_in d s = Ok r ∧ ∀ s', r = Some s' → Q s'.

Let good (node : Node) : Prop := Q (state node) ∧ 0 ≤ num_parents node.

Hypothesis add_Ok : ∀ current_node d s os,
  good current_node → Q s →
  ∃ os', open_set_add fr (child current_node d s) os = Ok os'.

Lemma good_child_node current_node d s :
  good current_node → move_in d (state current_node) = Ok (Some s) →
  good (child current_node d s).
Proof.
  intros [HQ Hn] Hmove. split; simpl; [| lia].
  destruct (Q_move _ d HQ) as (r & Hr & Hs). apply Hs. congruence.
Qed.

Lemma open_set_add_if_new_Ok closed_set current_node d os :
  good current_node →
  ∃ s os', move_in d (state current_node) = Ok s
           ∧ open_set_add_if_new fr closed_set current_node s (label d) os
             = Ok os'.
Proof.
  intros Hcur. destruct (Q_move _ d (proj1 Hcur)) as (r & Hr & Hs).
  exists r. unfold open_set_add_if_new. destruct r as [s |]; [| eauto].
  destruct (_state_is_valid _ _); [| eauto].
  destruct (add_Ok current_node d s os Hcur (Hs s eq_refl)) as [os' H].
  eauto.
Qed.

Lemma expand_Ok closed_set current_node os :
  good current_node → ∃ os', expand fr closed_set current_node os = Ok os'.
Proof.
  intros Hcur. unfold expand.
  destruct (open_set_add_if_new_Ok closed_set current_node Up os Hcur)
    as (s1 & os1 & H1 & A1). simpl in H1, A1. rewrite H1, bind_Ok, A1, bind_Ok.
  destruct (open_set_add_if_new_Ok closed_set current_node Left os1 Hcur)
    as (s2 & os2 & H2 & A2). simpl in H2, A2. rewrite H2, bind_Ok, A2, bind_Ok.
  destruct (open_set_add_if_new_Ok closed_set current_node Down os2 Hcur)
    as (s3 & os3 & H3 & A3). simpl in H3, A3. rewrite H3, bind_Ok, A3, bind_Ok.
  destruct (open_set_add_if_new_Ok closed_set current_node Right os3 Hcur)
    as (s4 & os4 & H4 & A4). simpl in H4, A4. rewrite H4, bind_Ok, A4. eauto.
Qed.

Lemma search_loop_Ok fuel : ∀ closed_set current_node os,
  good current_node → holds good os →
  search_loop fr desired_state fuel closed_set current_node os = None
  ∨ ∃ closed_set' node,
      search_loop fr desired_state fuel closed_set current_node os
      = Some (Ok (closed_set', node)).
Proof.
  induction fuel as [| fuel IH]; intros closed_set current_node os Hcur Hos;
    simpl; case_bool_decide as Hgoal; eauto.
  destruct (expand_Ok (insort closed_set (state current_node)) current_node os
              Hcur) as [os1 Hexp].
  rewrite Hexp. apply (expand_holds fr good good_child_node) in Hexp; [| done..].
  destruct (open_set_get fr os1) as [[n os2] |] eqn:Hget; [| eauto].
  destruct (holds_get good _ _ _ Hexp Hget) as [Hn Hos2]. now apply IH.
Qed.

Lemma _search_Ok fuel initial_state :
  Q initial_state →
  _search fr desired_state fuel initial_state = None
  ∨ ∃ n solution,
      _search fr desired_state fuel initial_state = Some (Ok (n, solution)).
Proof.
  intros HQ. unfold _search.
  destruct (search_trace fr desired_state fuel initial_state)
    as [[[closed_set [node |]] | e] |] eqn:Htrace; eauto.
  - assert (labelled (Node_init initial_state None None)) as Hroot
      by (exists []; split; [reflexivity | constructor]).
    destruct (search_trace_invariant fr desired_state labelled
                (λ c d s H _, labelled_child c d s H) _ _ _ _ Hroot Htrace)
      as [(actions & -> & _) _].
    right. simpl. eauto.
  - exfalso. unfold search_trace in Htrace.
    destruct (search_loop_Ok fuel [] (Node_init initial_state None None)
                (open_set_new fr)) as [H | (c & n & H)].
    + split; [exact HQ | simpl; lia].
    + apply holds_new.
    + congruence.
    + congruence.
Qed.
End NoRaise.

Lemma well_formed_move_Ok w h desired_state (s : State) d :
  well_formed w h s ∧ concat s ⊆ concat desired_state →
  ∃ r, move_in d s = Ok r ∧
       ∀ s', r = Some s' →
             well_formed w h s' ∧ concat s' ⊆ concat desired_state.
Proof.
  intros [Hwf Hsub].
  destruct (well_formed_blank w h s Hwf) as (x & y & Hc & Hx & Hy).
  rewrite (move_in_well_formed w h d s x y Hwf Hc).
  destruct (in_range _ w && in_range _ h) eqn:Hin.
  - eexists. split; [reflexivity |]. intros s' [= <-].
    apply andb_prop in Hin as [Hinx Hiny]. unfold in_range in Hinx, Hiny.
    set (x2 := Z.to_nat (Z.of_nat x + (offset d).1)) in *.
    set (y2 := Z.to_nat (Z.of_nat y + (offset d).2)) in *.
    pose proof (coords_of_tile_Ok _ _ _ _ Hc) as Hb.
    destruct (well_formed_cell w h s x2 y2 Hwf) as [a Ha]; [lia.. |].
    split; [apply swap_cells_well_formed; eauto |].
    intros t Ht. apply Hsub.
    exact (proj1 (swap_cells_elem s x y x2 y2 a blank t Hb Ha) Ht).
  - eexists. split; [reflexivity |]. discriminate.
Qed.

(** X17: on a well-formed instance whose labels all occur in the desired
    state, none of the seven strategies raises: a run either is cut short
    by the fuel or returns its count with a sequence or with [None].  In
    particular hill-climb never meets the unbound [current_priority] of its
    [open_set_add], which would need a node without a parent. *)
Theorem strategies_raise_nothing w h name f fuel
    (initial_state desired_state : State) :
  (name, f) ∈ methods →
  well_formed w h initial_state →
  concat initial_state ⊆ concat desired_state →
  f fuel initial_state desired_state = None
  ∨ ∃ n solution,
      f fuel initial_state desired_state = Some (Ok (n, solution)).
Proof.
  intros Hin Hwf Hsub.
  set (Q := λ s : State, well_formed w h s ∧ concat s ⊆ concat desired_state).
  assert (∀ s d, Q s → ∃ r, move_in d s = Ok r ∧ ∀ s', r = Some s' → Q s')
    as Q_move by (intros s d; apply well_formed_move_Ok).
  assert (∀ s, Q s → ∃ hv, manhattan_distance s desired_state = Ok hv) as Hman.
  { intros s [_ Hs]. rewrite manhattan_distance_sum by exact Hs. eauto. }
  assert (Q initial_state) as HQ by (split; assumption).
  unfold methods in Hin. rewrite !elem_of_cons, elem_of_nil in Hin.
  destruct Hin as [H | [H | [H | [H | [H | [H | [H | []]]]]]]];
    injection H as -> ->.
  - apply (_search_Ok depth_first_frontier desired_state Q Q_move); [| done].
    intros c d s os _ _. simpl. eauto.
  - apply (_search_Ok breadth_first_frontier desired_state Q Q_move); [| done].
    intros c d s os _ _. simpl. eauto.
  - apply (_search_Ok (greedy_best_first_frontier manhattan_distance
                         desired_state) desired_state Q Q_move); [| done].
    intros c d s os _ Hs. cbn -[manhattan_distance].
    destruct (Hman s Hs) as [hv ->]. cbn. eauto.
  - apply (_search_Ok (a_star_frontier manhattan_distance desired_state)
             desired_state Q Q_move); [| done].
    intros c d s os _ Hs. cbn -[manhattan_distance].
    destruct (Hman s Hs) as [hv ->]. cbn. eauto.
  - apply (_search_Ok (a_star_frontier (λ _ _, Ok 0) desired_state)
             desired_state Q Q_move); [| done].
    intros c d s os _ Hs. cbn. eauto.
  - apply (_search_Ok depth_limited_frontier desired_state Q Q_move); [| done].
    intros c d s [[os paused] it] _ _. simpl. destruct (_ <? _); eauto.
  - apply (_search_Ok (hill_climb_frontier 2 manhattan_distance desired_state)
             desired_state Q Q_move); [| done].
    intros c d s os [Hc Hn] Hs. cbn -[manhattan_distance].
    replace (0 <? num_parents c + 1) with true by lia.
    destruct (Hman _ Hc) as [hp ->]. destruct (Hman s Hs) as [hv ->]. cbn.
    destruct (_ <? _); eauto.
Qed.

Lemma strategies_raise_nothing_witness :
  ("HC", hill_climb manhattan_distance) ∈ methods
  ∧ well_formed 3 2 Examples.initial_a
  ∧ concat Examples.initial_a ⊆ concat Examples.desired_a
  ∧ (hill_climb manhattan_distance 20%nat Examples.initial_a Examples.desired_a
     = None
     ∨ ∃ n solution,
         hill_climb manhattan_distance 20%nat Examples.initial_a
           Examples.desired_a
         = Some (Ok (n, solution))).
Proof.
  assert (("HC", hill_climb manhattan_distance) ∈ methods) as Hin
    by (do 6 apply list_elem_of_further; apply list_elem_of_here).
  assert (well_formed 3 2 Examples.initial_a) as Hwf
    by (apply (bool_decide_unpack _); vm_compute; exact I).
  assert (concat Examples.initial_a ⊆ concat Examples.desired_a) as Hsub
    by (apply (bool_decide_unpack _); vm_compute; exact I).
  split; [exact Hin |]. split; [exact Hwf |]. split; [exact Hsub |].
  exact (strategies_raise_nothing 3 2 _ _ 20%nat _ _ Hin Hwf Hsub).
Defined.

(** ** The priority queue keeps its entries *)

Section HeapPermutation.
#[local] Arguments Nat.div : simpl never.

Lemma insert_move_hole (heap : list item) pos pos' newitem it :
  pos ≠ pos' → (pos < length heap)%nat → heap !! pos' = Some it →
  <[pos':=newitem]> (<[pos:=it]> heap) ≡ₚ <[pos:=newitem]> heap.
Proof.
  intros Hne Hpos Hit.
  rewrite <- (list_insert_insert_eq heap pos it newitem).
  apply Permutation_insert_swap.
  - now apply list_lookup_insert_eq.
  - now rewrite list_lookup_insert_ne.
Qed.

Lemma _siftdown_loop_Permutation fuel : ∀ heap newitem startpos pos,
  (pos < length heap)%nat →
  _siftdown_loop fuel heap newitem startpos pos ≡ₚ <[pos:=newitem]> heap.
Proof.
  induction fuel as [| fuel IH]; intros heap newitem startpos pos Hpos; simpl;
    [done |].
  destruct (Nat.ltb_spec startpos pos) as [Hlt | Hge]; [| done].
  destruct (heap !! ((pos - 1) / 2)%nat) as [parent_item |] eqn:Hp; [| done].
  destruct (item_lt newitem parent_item); [| done].
  pose proof (parent_bound pos) as Hb.
  rewrite IH by (rewrite length_insert; lia).
  apply insert_move_hole; [lia | done..].
Qed.

Lemma _siftdown_Permutation heap startpos pos :
  _siftdown heap startpos pos ≡ₚ heap.
Proof.
  unfold _siftdown. destruct (heap !! pos) as [newitem |] eqn:Hn; [| done].
  rewrite _siftdown_loop_Permutation by (eapply lookup_lt_Some; eauto).
  now rewrite list_insert_id.
Qed.

Lemma _siftup_loop_Permutation fuel : ∀ heap endpos pos childpos newitem,
  (pos < length heap)%nat → (pos < childpos)%nat →
  let r := _siftup_loop fuel heap endpos pos childpos in
  (r.2 < length r.1)%nat ∧ <[r.2:=newitem]> r.1 ≡ₚ <[pos:=newitem]> heap.
Proof.
  induction fuel as [| fuel IH]; intros heap endpos pos childpos newitem
    Hpos Hchild; simpl; [done |].
  destruct (childpos <? endpos)%nat; [| done].
  set (c' := match heap !! childpos, heap !! (childpos + 1)%nat with
             | Some c, Some r =>
                 if (childpos + 1 <? endpos)%nat && negb (item_lt c r)
                 then (childpos + 1)%nat else childpos
             | _, _ => childpos
             end).
  assert (childpos ≤ c')%nat as Hc'.
  { unfold c'. destruct (heap !! childpos), (heap !! (childpos + 1)%nat);
      try lia. destruct (_ && _); lia. }
  destruct (heap !! c') as [c |] eqn:Hc; [| done].
  destruct (IH (<[pos:=c]> heap) endpos c' (2 * c' + 1)%nat newitem)
    as [H1 H2].
  { rewrite length_insert. eapply lookup_lt_Some; eauto. }
  { lia. }
  split; [exact H1 |]. rewrite H2.
  apply insert_move_hole; [lia | done..].
Qed.

Lemma _siftup_Permutation heap pos : _siftup heap pos ≡ₚ heap.
Proof.
  unfold _siftup. destruct (heap !! pos) as [newitem |] eqn:Hn; [| done].
  pose proof (_siftup_loop_Permutation (length heap) heap (length heap) pos
                (2 * pos + 1)%nat newitem) as H.
  destruct (_siftup_loop _ _ _ _ _) as [heap' pos']. simpl in H.
  destruct H as [_ H]; [eapply lookup_lt_Some; eauto | lia |].
  now rewrite _siftdown_Permutation, H, list_insert_id.
Qed.

Lemma heappush_Permutation heap it : heappush heap it ≡ₚ it :: heap.
Proof.
  unfold heappush. rewrite _siftdown_Permutation.
  now rewrite (Permutation_app_comm heap [it]).
Qed.

Lemma heappop_Permutation heap it heap' :
  heappop heap = Some (it, heap') → heap ≡ₚ it :: heap'.
Proof.
  unfold heappop.
  destruct (list_pop heap) as [[lastelt rest] |] eqn:Hpop; [| discriminate].
  apply list_pop_Some in Hpop as ->.
  destruct rest as [| returnitem rest'].
  - now intros [= <- <-].
  - intros [= <- <-]. rewrite _siftup_Permutation. simpl.
    now rewrite (Permutation_app_comm _ [lastelt]).
Qed.

Lemma heappop_None heap : heappop heap = None → heap = [].
Proof.
  unfold heappop. destruct heap as [| a heap _] using rev_ind; [done |].
  rewrite list_pop_snoc. now destruct heap.
Qed.
End HeapPermutation.

Lemma pq_get_Permutation (os os' : list item) node :
  pq_get os = Some (node, os') → os.*2 ≡ₚ node :: os'.*2.
Proof.
  unfold pq_get.
  destruct (heappop os) as [[[priority n] rest] |] eqn:Hpop; [| discriminate].
  intros [= <- <-]. apply heappop_Permutation in Hpop. now rewrite Hpop.
Qed.

Lemma pq_get_None (os : list item) : pq_get os = None → os.*2 = [].
Proof.
  unfold pq_get. destruct (heappop os) as [[[priority n] rest] |] eqn:Hpop;
    [discriminate |].
  intros _. now rewrite (heappop_None _ Hpop).
Qed.

(** ** The open sets that lose no node *)

#[global, refine] Instance depth_first_lossless : Lossless depth_first_frontier :=
  Build_Lossless depth_first_frontier (λ os : list Node, os) _ _ _ _.
Proof.
  - reflexivity.
  - intros node os os' [= <-]. now rewrite (Permutation_app_comm os [node]).
  - intros os node os' ->%list_pop_Some.
    now rewrite (Permutation_app_comm os' [node]).
  - intros os. simpl. destruct os as [| a os _] using rev_ind; [done |].
    now rewrite list_pop_snoc.
Defined.

#[global, refine] Instance breadth_first_lossless :
  Lossless breadth_first_frontier :=
  Build_Lossless breadth_first_frontier (λ os : list Node, os) _ _ _ _.
Proof.
  - reflexivity.
  - intros node os os' [= <-]. now rewrite (Permutation_app_comm os [node]).
  - intros [| a os] node os'; [discriminate |]. now intros [= <- <-].
  - now intros [| a os].
Defined.

#[global, refine] Instance greedy_best_first_lossless heuristic desired_state :
  Lossless (greedy_best_first_frontier heuristic desired_state) :=
  Build_Lossless (greedy_best_first_frontier heuristic desired_state)
    (λ os : list item, os.*2) _ _ _ _.
Proof.
  - reflexivity.
  - intros node os os'. simpl.
    destruct (heuristic _ _) as [priority | e]; [| discriminate].
    intros [= <-]. now rewrite heappush_Permutation.
  - intros os node os'. apply pq_get_Permutation.
  - apply pq_get_None.
Defined.

#[global, refine] Instance a_star_lossless heuristic desired_state :
  Lossless (a_star_frontier heuristic desired_state) :=
  Build_Lossless (a_star_frontier heuristic desired_state)
    (λ os : list item, os.*2) _ _ _ _.
Proof.
  - reflexivity.
  - intros node os os'. simpl.
    destruct (heuristic _ _) as [priority | e]; [| discriminate].
    intros [= <-]. now rewrite heappush_Permutation.
  - intros os node os'. apply pq_get_Permutation.
  - apply pq_get_None.
Defined.

#[global, refine] Instance depth_limited_lossless :
  Lossless depth_limited_frontier :=
  Build_Lossless depth_limited_frontier
    (λ os : list Node * list Node * Z, os.1.1 ++ os.1.2) _ _ _ _.
Proof.
  - reflexivity.
  - intros node [[os paused_set] iteration] os'. simpl.
    destruct (_ <? _); intros [= <-]; simpl.
    + now rewrite (Permutation_app_comm os [node]).
    + now rewrite app_assoc, (Permutation_app_comm _ [node]).
  - intros [[os paused_set] iteration] node os'. simpl.
    case_bool_decide as Hlen.
    + destruct (list_pop paused_set) as [[n rest] |] eqn:Hpop; [| discriminate].
      intros [= <- <-]. apply list_pop_Some in Hpop as ->.
      destruct os; [| done]. simpl.
      now rewrite app_nil_r, (Permutation_app_comm rest [n]).
    + destruct (list_pop os) as [[n rest] |] eqn:Hpop; [| discriminate].
      intros [= <- <-]. apply list_pop_Some in Hpop as ->. simpl.
      now rewrite (Permutation_app_comm rest [n]).
  - intros [[os paused_set] iteration]. simpl. case_bool_decide as Hlen.
    + destruct os; [| done].
      destruct paused_set as [| a p _] using rev_ind; [done |].
      now rewrite list_pop_snoc.
    + destruct os as [| a p _] using rev_ind; [done |].
      now rewrite list_pop_snoc.
Defined.

(** ** A search that gives up has tried everything *)

Section Exhaustive.
Context (fr : Frontier) `{!Lossless fr} (desired_state : State).

Lemma open_set_add_if_new_nodes closed_set current_node s action os os' :
  ordered closed_set →
  open_set_add_if_new fr closed_set current_node s action os = Ok os' →
  nodes os ⊆ nodes os'
  ∧ ∀ s', s = Some s' →
          s' ∈ closed_set ∨ ∃ node, node ∈ nodes os' ∧ state node = s'.
Proof.
  intros Hord. unfold open_set_add_if_new.
  destruct s as [s |]; [| intros [= <-]; split; [done | discriminate]].
  destruct (_state_is_valid (Some s) closed_set) eqn:Hvalid.
  - intros Hadd%nodes_add. split.
    + intros n Hn. rewrite Hadd. now right.
    + intros s' [= <-]. right. eexists. split; [rewrite Hadd; left |].
      reflexivity.
  - intros [= <-]. split; [done |]. intros s' [= <-]. left.
    destruct (decide (s ∈ closed_set)) as [| Hn]; [done |].
    apply (_state_is_valid_spec closed_set s Hord) in Hn. congruence.
Qed.

Lemma expand_nodes closed_set current_node os os' :
  ordered closed_set →
  expand fr closed_set current_node os = Ok os' →
  nodes os ⊆ nodes os'
  ∧ covered closed_set (nodes os') (state current_node).
Proof.
  intros Hord. unfold expand.
  destruct (up (state current_node)) as [s1 |] eqn:H1; [| discriminate].
  simpl. destruct (open_set_add_if_new _ _ _ s1 _ _) as [os1 |] eqn:A1;
    [| discriminate].
  simpl. destruct (left (state current_node)) as [s2 |] eqn:H2; [| discriminate].
  simpl. destruct (open_set_add_if_new _ _ _ s2 _ _) as [os2 |] eqn:A2;
    [| discriminate].
  simpl. destruct (down (state current_node)) as [s3 |] eqn:H3; [| discriminate].
  simpl. destruct (open_set_add_if_new _ _ _ s3 _ _) as [os3 |] eqn:A3;
    [| discriminate].
  simpl. destruct (right (state current_node)) as [s4 |] eqn:H4; [| discriminate].
  simpl. intros A4.
  apply open_set_add_if_new_nodes in A1 as [S1 C1]; [| done].
  apply open_set_add_if_new_nodes in A2 as [S2 C2]; [| done].
  apply open_set_add_if_new_nodes in A3 as [S3 C3]; [| done].
  apply open_set_add_if_new_nodes in A4 as [S4 C4]; [| done].
  split; [set_solver |].
  intros d s' Hmove.
  destruct d; simpl in Hmove;
    [destruct (C1 s') as [? | (n & Hn & E)]
    |destruct (C2 s') as [? | (n & Hn & E)]
    |destruct (C3 s') as [? | (n & Hn & E)]
    |destruct (C4 s') as [? | (n & Hn & E)]];
    try congruence; try (now left); right; exists n; (split; [| exact E]);
    set_solver.
Qed.

Lemma search_loop_exhausts fuel : ∀ closed_set current_node os closed_set',
  ordered closed_set →
  (∀ s, s ∈ closed_set → s ≠ desired_state) →
  (∀ s, s ∈ closed_set → covered closed_set (current_node :: nodes os) s) →
  search_loop fr desired_state fuel closed_set current_node os
  = Some (Ok (closed_set', None)) →
  state current_node ∈ closed_set'
  ∧ (∀ s, s ∈ closed_set → s ∈ closed_set')
  ∧ (∀ s, s ∈ closed_set' → s ≠ desired_state)
  ∧ ∀ s, s ∈ closed_set' → covered closed_set' [] s.
Proof.
  induction fuel as [| fuel IH]; intros closed_set current_node os closed_set'
    Hord Hgoal Hcov; simpl; case_bool_decide as Hcur; try discriminate.
  set (closed1 := insort closed_set (state current_node)).
  destruct (expand _ _ _ _) as [os1 | e] eqn:Hexp; [| discriminate].
  assert (ordered closed1) as Hord1 by now apply insort_ordered.
  apply expand_nodes in Hexp as [Hsub Hcur_cov]; [| exact Hord1].
  assert (∀ s, s ∈ closed1 → s ≠ desired_state) as Hgoal1.
  { intros s [-> | Hs]%elem_of_insort; auto. }
  assert (∀ s, s ∈ closed1 → covered closed1 (nodes os1) s) as Hcov1.
  { intros s [-> | Hs]%elem_of_insort; [exact Hcur_cov |].
    intros d s' Hmove.
    destruct (Hcov s Hs d s' Hmove) as [Hin | (n & [-> | Hn]%elem_of_cons & E)].
    - left. apply elem_of_insort. now right.
    - left. apply elem_of_insort. left. congruence.
    - right. exists n. split; [now apply Hsub | exact E]. }
  destruct (open_set_get fr os1) as [[n os2] |] eqn:Hget.
  - apply nodes_get in Hget.
    intros (H1 & H2 & H3 & H4)%IH; try done.
    + split; [apply H2, elem_of_insort; now left |].
      split; [intros s Hs; apply H2, elem_of_insort; now right |]. done.
    + intros s Hs d s' Hmove.
      destruct (Hcov1 s Hs d s' Hmove) as [Hin | (m & Hm & E)]; [now left |].
      right. exists m. split; [now rewrite <- Hget | exact E].
  - apply nodes_empty in Hget. intros [= <-].
    split; [apply elem_of_insort; now left |].
    split; [intros s Hs; apply elem_of_insort; now right |].
    split; [exact Hgoal1 |]. intros s Hs. rewrite <- Hget. now apply Hcov1.
Qed.

Lemma replay_closed (closed_set : list State) actions : ∀ s s',
  (∀ s, s ∈ closed_set → covered closed_set [] s) →
  s ∈ closed_set → replay s actions = Some s' → s' ∈ closed_set.
Proof.
  induction actions as [| a actions IH]; intros s s' Hcov Hs; simpl.
  - now intros [= <-].
  - destruct (direction_of_label a) as [d |]; [| discriminate].
    destruct (move_in d s) as [[s1 |] | e] eqn:Hmove; try discriminate.
    apply IH; [exact Hcov |].
    destruct (Hcov s Hs d s1 Hmove) as [? | (n & Hn & _)]; [done |].
    now apply elem_of_nil in Hn.
Qed.

Lemma _search_exhausts fuel initial_state n actions :
  _search fr desired_state fuel initial_state = Some (Ok (n, None)) →
  replay initial_state actions ≠ Some desired_state.
Proof.
  unfold _search.
  destruct (search_trace fr desired_state fuel initial_state)
    as [[[closed_set [node |]] | e] |] eqn:Htrace; try discriminate.
  { destruct (reconstruct_actions node); discriminate. }
  intros _ Hplay. unfold search_trace in Htrace.
  apply search_loop_exhausts in Htrace as (H1 & _ & H3 & H4).
  - apply (H3 desired_state); [| done].
    eapply replay_closed; [exact H4 | exact H1 | exact Hplay].
  - apply ordered_nil.
  - intros s Hs. now apply elem_of_nil in Hs.
  - intros s Hs. now apply elem_of_nil in Hs.
Qed.
End Exhaustive.

(** X18: when a strategy other than hill-climb returns [None] for the
    sequence, the desired state cannot be reached: no sequence of move
    labels leads from the initial state to it.  (Hill-climb drops nodes, and
    does return [None] on instances that have a solution.) *)
Theorem no_solution_is_exhaustive name f fuel initial_state desired_state n
    actions :
  (name, f) ∈ methods → name ≠ "HC" →
  f fuel initial_state desired_state = Some (Ok (n, None)) →
  replay initial_state actions ≠ Some desired_state.
Proof.
  unfold methods. rewrite !elem_of_cons, elem_of_nil.
  intros [H | [H | [H | [H | [H | [H | [H | []]]]]]]] Hne; injection H as -> ->;
    try done; apply _search_exhausts; apply _.
Qed.

Lemma no_solution_is_exhaustive_witness :
  ("DFS", depth_first) ∈ methods ∧ "DFS" ≠ "HC"
  ∧ depth_first 20%nat Examples.initial_d Examples.desired_d
    = Some (Ok (13%nat, None))
  ∧ replay Examples.initial_d ["Down;"; "Right;"; "Up;"]
    ≠ Some Examples.desired_d.
Proof.
  assert (("DFS", depth_first) ∈ methods) as Hin by apply list_elem_of_here.
  assert ("DFS" ≠ "HC") as Hne by discriminate.
  assert (depth_first 20%nat Examples.initial_d Examples.desired_d
          = Some (Ok (13%nat, None))) as Hrun by (vm_compute; reflexivity).
  split; [exact Hin |]. split; [exact Hne |]. split; [exact Hrun |].
  exact (no_solution_is_exhaustive _ _ _ _ _ _ _ Hin Hne Hrun).
Defined.

(** ** [strategy_by_name], for every name *)

(** X19: [strategy_by_name] returns the strategy of a name that is one of
    the seven keys as given, and raises [AssertionError] with the message
    listing the keys for every other name; the later lookup under the
    upper-cased name never fails, so it raises no [KeyError]. *)
Theorem strategy_by_name_cases (name : string) :
  strategy_by_name name
  = match methods_get name with
    | Some f => Ok f
    | None =>
        Raise (AssertionError ("Search strategy '" +:+ name +:+
          "' is not implemented. Available: AS, BFS, DFS, DIJ, DL, GBFS, HC"))
    end.
Proof.
  destruct (methods_get name) as [f |] eqn:Hget;
    [| now apply strategy_by_name_unknown].
  apply strategy_by_name_known. unfold methods_get in Hget.
  destruct (List.find _ methods) as [[k g] |] eqn:Hfind; [| discriminate].
  injection Hget as <-. apply find_some in Hfind as [Hin Heq].
  apply String.eqb_eq in Heq. simpl in Heq. subst k.
  now apply list_elem_of_In.
Qed.

(** ** main.py: reading a puzzle *)

Lemma getitem_Some {A} (l : list A) i a : l !! i = Some a → getitem l i = Ok a.
Proof. unfold getitem. now intros ->. Qed.

Lemma getitem_None {A} (l : list A) i :
  l !! i = None → getitem l i = Raise IndexError.
Proof. unfold getitem. now intros ->. Qed.

Lemma setitem_Ok {A} (l : list A) i v :
  (i < length l)%nat → setitem l i v = Ok (<[i:=v]> l).
Proof. intros H. unfold setitem. now rewrite decide_True. Qed.

(** The inner loop appends to column [x] the labels it reads, or raises at
    the first index outside the line. *)
Lemma state_from_line_column width (line : list string) x ys :
  ∀ (state : State) column,
  state !! x = Some column →
  for_each (λ state y,
      column ← getitem state x;
      t ← getitem line (Z.to_nat (Z.of_nat x + Z.of_nat y * width));
      setitem state x (column ++ [t])) state ys
  = match mapM (λ y, line !! line_index width x y) ys with
    | Some ts => Ok (<[x:=column ++ ts]> state)
    | None => Raise IndexError
    end.
Proof.
  induction ys as [| y0 ys IH]; intros state column Hx.
  - simpl. rewrite app_nil_r, list_insert_id by done. reflexivity.
  - cbn [for_each mapM]. rewrite (getitem_Some _ _ _ Hx), bind_Ok.
    change (Z.to_nat (Z.of_nat x + Z.of_nat y0 * width))
      with (line_index width x y0).
    destruct (line !! line_index width x y0) as [t |] eqn:Ht.
    2: { now rewrite (getitem_None _ _ Ht). }
    rewrite (getitem_Some _ _ _ Ht), bind_Ok.
    rewrite setitem_Ok by (eapply lookup_lt_Some; eauto). rewrite bind_Ok.
    rewrite (IH _ (column ++ [t])).
    2: { apply list_lookup_insert_eq. eapply lookup_lt_Some; eauto. }
    simpl. destruct (mapM _ ys) as [ts |]; simpl; [| reflexivity].
    now rewrite list_insert_insert_eq, <- app_assoc.
Qed.

Lemma state_from_line_columns width height (line : list string) n :
  ∀ x0 (done : State),
  length done = x0 →
  for_each (λ state x,
    for_each (λ state y,
      column ← getitem state x;
      t ← getitem line (Z.to_nat (Z.of_nat x + Z.of_nat y * width));
      setitem state x (column ++ [t]))
      state (range height)) (done ++ replicate n []) (seq x0 n)
  = match mapM (λ x, mapM (λ y, line !! line_index width x y) (range height))
            (seq x0 n) with
    | Some columns => Ok (done ++ columns)
    | None => Raise IndexError
    end.
Proof.
  induction n as [| n IH]; intros x0 done Hlen.
  - reflexivity.
  - cbn [seq for_each mapM replicate].
    rewrite (state_from_line_column _ _ _ _ _ [])
      by (rewrite lookup_app_r, Hlen, Nat.sub_diag by lia; reflexivity).
    destruct (mapM _ (range height)) as [ts |]; [| reflexivity].
    rewrite bind_Ok. simpl.
    rewrite insert_app_r_alt, Hlen, Nat.sub_diag by lia. simpl.
    rewrite (cons_middle ts), app_assoc.
    rewrite IH by (rewrite length_app; simpl; lia).
    destruct (mapM _ (seq (S x0) n)) as [columns |]; [| reflexivity].
    simpl. now rewrite <- app_assoc.
Qed.

(** [state_from_line] as one traversal: column [x] reads the indices
    [x + y*width]. *)
Lemma state_from_line_mapM width height (line : list string) :
  state_from_line width height line
  = match mapM (λ x, mapM (λ y, line !! line_index width x y) (range height))
            (range width) with
    | Some columns => Ok columns
    | None => Raise IndexError
    end.
Proof.
  unfold state_from_line.
  assert ((λ _ : nat, @nil tile) <$> range width
          = [] ++ replicate (Z.to_nat width) []) as ->.
  { unfold range. generalize 0%nat.
    induction (Z.to_nat width) as [| n IH]; intros k; simpl; [done |].
    f_equal. apply IH. }
  unfold range at 2 4. now rewrite state_from_line_columns.
Qed.

Lemma mapM_seq_Some {A} (f : nat → option A) n (k : list A) :
  mapM f (seq 0 n) = Some k ↔
  length k = n ∧ ∀ i, (i < n)%nat → f i = k !! i ∧ is_Some (k !! i).
Proof.
  rewrite mapM_Some. split.
  - intros H. pose proof (Forall2_length _ _ _ H) as Hlen.
    rewrite length_seq in Hlen. split; [done |]. intros i Hi.
    destruct (lookup_lt_is_Some_2 k i) as [a Ha]; [lia |].
    rewrite Ha. split; [| eauto].
    eapply (Forall2_lookup_lr _ _ _ i i a) in H; eauto.
    now apply lookup_seq.
  - intros [Hlen H]. apply Forall2_same_length_lookup.
    split; [now rewrite length_seq |].
    intros i x a [-> Hi]%lookup_seq Ha. simpl.
    destruct (H i Hi) as [-> _]. exact Ha.
Qed.

Lemma line_index_nat (w x y : nat) :
  line_index (Z.of_nat w) x y = (x + y * w)%nat.
Proof. unfold line_index. lia. Qed.

Lemma state_from_line_Ok_iff (w h : nat) (line : list string) (s : State) :
  state_from_line (Z.of_nat w) (Z.of_nat h) line = Ok s ↔
  length s = w ∧
  ∀ x, (x < w)%nat → ∃ column,
    s !! x = Some column ∧ length column = h ∧
    ∀ y, (y < h)%nat →
      line !! (x + y * w)%nat = column !! y ∧ is_Some (column !! y).
Proof.
  rewrite state_from_line_mapM. unfold range. rewrite !Nat2Z.id.
  destruct (mapM _ (seq 0 w)) as [columns |] eqn:Hm.
  - apply mapM_seq_Some in Hm as [Hlen Hm]. split.
    + intros [= <-]. split; [done |]. intros x Hx.
      destruct (Hm x Hx) as [Hcol [column Hc]]. exists column.
      split; [done |]. rewrite Hc in Hcol.
      apply mapM_seq_Some in Hcol as [Hlen' Hcol]. split; [done |].
      intros y Hy. rewrite <- line_index_nat. now apply Hcol.
    + intros [Hlen' H]. f_equal. apply list_eq_same_length with w; try done.
      intros x c c' Hx Hc Hc'. destruct (Hm x Hx) as [Hcol _].
      rewrite Hc in Hcol. destruct (H x Hx) as (column & Hs & Hl & Hcells).
      assert (column = c') as -> by congruence.
      apply mapM_seq_Some in Hcol as [Hlenc Hcol].
      apply list_eq_same_length with h; try done.
      intros y t t' Hy Ht Ht'. destruct (Hcol y Hy) as [E _].
      destruct (Hcells y Hy) as [E' _]. rewrite line_index_nat in E. congruence.
  - split; [discriminate |]. intros [Hlen H]. exfalso.
    assert (mapM (λ x, mapM (λ y, line !! line_index (Z.of_nat w) x y) (seq 0 h))
              (seq 0 w) = Some s) as E; [| congruence].
    apply mapM_seq_Some. split; [done |]. intros x Hx.
    destruct (H x Hx) as (column & Hs & Hl & Hcells). rewrite Hs.
    split; [| eauto]. apply mapM_seq_Some. split; [done |].
    intros y Hy. rewrite line_index_nat. now apply Hcells.
Qed.

Lemma state_from_line_grid (w h : nat) (line : list string) :
  (w * h ≤ length line)%nat →
  ∃ s, state_from_line (Z.of_nat w) (Z.of_nat h) line = Ok s ∧
       length s = w ∧ Forall (λ column, length column = h) s ∧
       ∀ x y, (x < w)%nat → (y < h)%nat →
              cell s x y = line !! (x + y * w)%nat.
Proof.
  intros Hlen.
  set (s := (λ x, (λ y, line !!! (x + y * w)%nat) <$> seq 0 h) <$> seq 0 w).
  assert (∀ x, (x < w)%nat →
            s !! x = Some ((λ y, line !!! (x + y * w)%nat) <$> seq 0 h)) as Hs.
  { intros x Hx. unfold s. rewrite list_lookup_fmap, lookup_seq_lt by done.
    reflexivity. }
  assert (∀ x y, (x < w)%nat → (y < h)%nat →
            line !! (x + y * w)%nat = Some (line !!! (x + y * w)%nat)) as Hl.
  { intros x y Hx Hy. apply list_lookup_lookup_total_lt. nia. }
  exists s. split; [| split; [| split]].
  - apply state_from_line_Ok_iff. split.
    { unfold s. now rewrite length_fmap, length_seq. }
    intros x Hx. eexists. split; [now apply Hs |].
    split; [now rewrite length_fmap, length_seq |].
    intros y Hy. rewrite list_lookup_fmap, lookup_seq_lt by done. simpl.
    rewrite Hl by done. eauto.
  - unfold s. now rewrite length_fmap, length_seq.
  - unfold s. apply Forall_fmap, Forall_forall. intros x _. simpl.
    now rewrite length_fmap, length_seq.
  - intros x y Hx Hy. unfold cell. rewrite Hs by done. simpl.
    rewrite list_lookup_fmap, lookup_seq_lt by done. simpl. now rewrite Hl.
Qed.

(** X20: [state_from_line] on a line of at least [width * height] labels
    returns a grid of [width] columns of [height] labels each, whose cell
    at column [x], row [y] is the label number [x + y*width] of the line: the
    line lists the grid row by row.  Labels past the first
    [width * height] are not read. *)
Theorem state_from_line_cells (w h : nat) (line : list string) :
  (w * h ≤ length line)%nat →
  ∃ s, state_from_line (Z.of_nat w) (Z.of_nat h) line = Ok s ∧
       length s = w ∧ Forall (λ column, length column = h) s ∧
       ∀ x y, (x < w)%nat → (y < h)%nat →
              cell s x y = line !! (x + y * w)%nat.
Proof. apply state_from_line_grid. Qed.

Lemma state_from_line_cells_witness :
  (2 * 3 ≤ length Examples.line_a)%nat
  ∧ ∃ s, state_from_line (Z.of_nat 2) (Z.of_nat 3) Examples.line_a = Ok s ∧
         length s = 2%nat ∧ Forall (λ column, length column = 3%nat) s ∧
         ∀ x y, (x < 2)%nat → (y < 3)%nat →
                cell s x y = Examples.line_a !! (x + y * 2)%nat.
Proof.
  assert (2 * 3 ≤ length Examples.line_a)%nat as Hlen by (simpl; lia).
  split; [exact Hlen |].
  exact (state_from_line_cells 2 3 Examples.line_a Hlen).
Defined.

(** X21: on a line of fewer than [width * height] labels
    [state_from_line] raises [IndexError]. *)
Theorem state_from_line_short (w h : nat) (line : list string) :
  (length line < w * h)%nat →
  state_from_line (Z.of_nat w) (Z.of_nat h) line = Raise IndexError.
Proof.
  intros Hlen.
  assert (∀ r, r = state_from_line (Z.of_nat w) (Z.of_nat h) line →
            (∃ s, r = Ok s) ∨ r = Raise IndexError) as Hres.
  { intros r ->. rewrite state_from_line_mapM. destruct (mapM _ _); eauto. }
  destruct (Hres _ eq_refl) as [[s Hs] | H]; [| exact H].
  exfalso. apply state_from_line_Ok_iff in Hs as [_ Hs].
  assert (0 < w)%nat as Hw by nia. assert (0 < h)%nat as Hh by nia.
  destruct (Hs (w - 1)%nat) as (column & _ & _ & Hc); [lia |].
  destruct (Hc (h - 1)%nat) as [E [t Ht]]; [lia |].
  rewrite Ht in E. apply lookup_lt_Some in E. nia.
Qed.

Lemma state_from_line_short_witness :
  (length ["1"; "2"; "3"; "0"] < 2 * 3)%nat
  ∧ state_from_line (Z.of_nat 2) (Z.of_nat 3) ["1"; "2"; "3"; "0"]
    = Raise IndexError.
Proof.
  assert (length ["1"; "2"; "3"; "0"] < 2 * 3)%nat as Hlen by (simpl; lia).
  split; [exact Hlen |].
  exact (state_from_line_short 2 3 ["1"; "2"; "3"; "0"] Hlen).
Defined.

(** X22: a width or a height that is zero or negative is not refused:
    [state_from_line] reads nothing of the line and returns a grid without
    cells, the empty list for a width that is not positive. *)
Theorem state_from_line_no_cells (width height : Z) (line : list string) :
  width ≤ 0 ∨ height ≤ 0 →
  state_from_line width height line = Ok (replicate (Z.to_nat width) []).
Proof.
  intros H. rewrite state_from_line_mapM. unfold range.
  destruct (decide (width ≤ 0)) as [Hw | Hw].
  - now replace (Z.to_nat width) with 0%nat by lia.
  - replace (Z.to_nat height) with 0%nat by lia. simpl.
    generalize 0%nat. induction (Z.to_nat width) as [| n IH]; intros k;
      [reflexivity |].
    simpl. specialize (IH (S k)).
    destruct (mapM _ (seq (S k) n)) as [columns |]; [| discriminate].
    simpl. now injection IH as ->.
Qed.

Lemma state_from_line_no_cells_witness :
  (2 ≤ 0 ∨ -3 ≤ 0)
  ∧ state_from_line 2 (-3) Examples.line_a = Ok [[]; []].
Proof.
  assert (2 ≤ 0 ∨ -3 ≤ 0) as H by (right; lia).
  split; [exact H |].
  exact (state_from_line_no_cells 2 (-3) Examples.line_a H).
Defined.

(** X23: when the first [width * height] labels of the line are distinct
    and the label "0" is among them, the grid [state_from_line] returns is
    well-formed: it is what the move generator and the strategies expect. *)
Theorem state_from_line_well_formed (w h : nat) (line : list string) :
  (w * h ≤ length line)%nat →
  NoDup (take (w * h) line) → blank ∈ take (w * h) line →
  ∃ s, state_from_line (Z.of_nat w) (Z.of_nat h) line = Ok s
       ∧ well_formed w h s.
Proof.
  intros Hlen Hnd Hblank.
  destruct (state_from_line_grid w h line Hlen) as (s & Hs & Hw & Hh & Hcell).
  exists s. split; [exact Hs |].
  assert (∀ x y t, cell s x y = Some t → (x < w)%nat ∧ (y < h)%nat) as Hbounds.
  { intros x y t (column & Hx & Hy)%cell_Some. split.
    - rewrite <- Hw. eapply lookup_lt_Some; eauto.
    - rewrite <- (Forall_lookup_1 _ _ _ _ Hh Hx). eapply lookup_lt_Some; eauto. }
  repeat split; [exact Hw | exact Hh | |].
  - apply NoDup_concat_cells. intros x y x' y' t H H'.
    destruct (Hbounds _ _ _ H) as [Hx Hy].
    destruct (Hbounds _ _ _ H') as [Hx' Hy'].
    rewrite Hcell in H, H' by done.
    rewrite <- (lookup_take_lt line (w * h)) in H by nia.
    rewrite <- (lookup_take_lt line (w * h)) in H' by nia.
    pose proof (NoDup_lookup _ _ _ _ Hnd H H') as E.
    assert (y = y') by nia. split; lia.
  - apply list_elem_of_lookup in Hblank as [i Hi].
    pose proof (lookup_lt_Some _ _ _ Hi) as Hlt.
    rewrite length_take in Hlt.
    assert (0 < w)%nat as Hw0 by nia.
    apply elem_of_concat_cell. exists (i mod w)%nat, (i / w)%nat.
    pose proof (Nat.mod_upper_bound i w) as Hm.
    pose proof (Nat.div_mod_eq i w) as Hd.
    assert (i / w < h)%nat as Hq by (apply Nat.Div0.div_lt_upper_bound; lia).
    rewrite Hcell by (try done; lia).
    replace (i mod w + i / w * w)%nat with i by lia.
    rewrite lookup_take_lt in Hi by lia. exact Hi.
Qed.

Lemma state_from_line_well_formed_witness :
  (2 * 3 ≤ length Examples.line_a)%nat
  ∧ NoDup (take (2 * 3) Examples.line_a)
  ∧ blank ∈ take (2 * 3) Examples.line_a
  ∧ ∃ s, state_from_line (Z.of_nat 2) (Z.of_nat 3) Examples.line_a = Ok s
         ∧ well_formed 2 3 s.
Proof.
  assert (2 * 3 ≤ length Examples.line_a)%nat as Hlen by (simpl; lia).
  assert (NoDup (take (2 * 3) Examples.line_a)) as Hnd
    by (apply (bool_decide_unpack _); vm_compute; exact I).
  assert (blank ∈ take (2 * 3) Examples.line_a) as Hin
    by (apply (bool_decide_unpack _); vm_compute; exact I).
  split; [exact Hlen |]. split; [exact Hnd |]. split; [exact Hin |].
  exact (state_from_line_well_formed 2 3 Examples.line_a Hlen Hnd Hin).
Defined.

Lemma split_append sep (s1 s2 : string) :
  occurs sep s1 = false →
  split sep (s1 +:+ String sep s2) = s1 :: split sep s2.
Proof.
  induction s1 as [| c s1 IH]; simpl.
  - now rewrite Ascii.eqb_refl.
  - intros [Hc Hs]%orb_false_elim. rewrite Hc, IH by exact Hs. reflexivity.
Qed.

Lemma split_plain sep (s : string) : occurs sep s = false → split sep s = [s].
Proof.
  induction s as [| c s IH]; simpl; [done |].
  intros [Hc Hs]%orb_false_elim. now rewrite Hc, IH.
Qed.

(** Splitting undoes joining, for words without the separator. *)
Lemma split_join sep (l : list string) :
  Forall (λ s, occurs sep s = false) l → l ≠ [] →
  split sep (join (String sep EmptyString) l) = l.
Proof.
  induction 1 as [| s l Hs Hl IH]; [done |]. intros _.
  destruct l as [| s' l]; [now apply split_plain |].
  change (join (String sep EmptyString) (s :: s' :: l))
    with (s +:+ String sep (join (String sep EmptyString) (s' :: l))).
  rewrite split_append by exact Hs. now rewrite IH.
Qed.

Lemma occurs_append c (s1 s2 : string) :
  occurs c (s1 +:+ s2) = occurs c s1 || occurs c s2.
Proof.
  induction s1 as [| d s1 IH]; simpl; [done |]. now rewrite IH, orb_assoc.
Qed.

Lemma occurs_join c sep (l : list string) :
  Ascii.eqb sep c = false → Forall (λ s, occurs c s = false) l →
  occurs c (join (String sep EmptyString) l) = false.
Proof.
  intros Hsep. induction 1 as [| s l Hs Hl IH]; [done |].
  destruct l as [| s' l]; [exact Hs |].
  change (join (String sep EmptyString) (s :: s' :: l))
    with (s +:+ String sep (join (String sep EmptyString) (s' :: l))).
  rewrite occurs_append, Hs. cbn [occurs orb]. now rewrite Hsep, IH.
Qed.

(** X24: [puzzle_from_file] on a file whose first line is the width, an
    "x" and the height, and whose next two lines each list at least
    [width * height] labels separated by single spaces, returns the two
    grids of [width] columns and [height] rows whose cell at column [x], row
    [y] is the label number [x + y*width] of its line; further lines are
    ignored.  (The dimensions and the labels hold no separator of their
    own; [int] reads the two dimensions.) *)
Theorem puzzle_from_file_reads (int : string → res Z)
    (files : string → option string) (filename : string) (w h : nat)
    (dw dh : string) (line1 line2 more : list string) :
  files filename
  = Some (join (String newline EmptyString)
            ((dw +:+ "x" +:+ dh) :: join " " line1 :: join " " line2 :: more)) →
  int dw = Ok (Z.of_nat w) → int dh = Ok (Z.of_nat h) →
  occurs "x" dw = false → occurs "x" dh = false →
  Forall (λ s, occurs newline s = false)
    (dw :: dh :: line1 ++ line2 ++ more) →
  Forall (λ s, occurs " " s = false) (line1 ++ line2) →
  (0 < w * h ≤ length line1)%nat → (w * h ≤ length line2)%nat →
  ∃ initial_state desired_state,
    puzzle_from_file int files filename = Ok (initial_state, desired_state)
    ∧ length initial_state = w ∧ length desired_state = w
    ∧ Forall (λ column, length column = h) initial_state
    ∧ Forall (λ column, length column = h) desired_state
    ∧ ∀ x y, (x < w)%nat → (y < h)%nat →
        cell initial_state x y = line1 !! (x + y * w)%nat
        ∧ cell desired_state x y = line2 !! (x + y * w)%nat.
Proof.
  intros Hfile Hw Hh Hxw Hxh Hnl Hsp Hlen1 Hlen2.
  apply Forall_cons in Hnl as [Hnw Hnl]. apply Forall_cons in Hnl as [Hnh Hnl].
  apply Forall_app in Hnl as [Hn1 Hnl]. apply Forall_app in Hnl as [Hn2 Hnm].
  apply Forall_app in Hsp as [Hs1 Hs2].
  assert (line1 ≠ []) as Hne1 by (intros ->; simpl in Hlen1; lia).
  assert (line2 ≠ []) as Hne2 by (intros ->; simpl in Hlen2; lia).
  destruct (state_from_line_grid w h line1) as (s1 & E1 & L1 & F1 & C1); [lia |].
  destruct (state_from_line_grid w h line2) as (s2 & E2 & L2 & F2 & C2); [lia |].
  exists s1, s2. split; [| repeat split; auto].
  unfold puzzle_from_file. rewrite Hfile.
  rewrite split_join; [| | done].
  2: { repeat constructor; [| | | exact Hnm].
       - rewrite !occurs_append, Hnw, Hnh. reflexivity.
       - now apply occurs_join.
       - now apply occurs_join. }
  cbn [getitem lookup list_lookup]. rewrite !bind_Ok.
  change (dw +:+ "x" +:+ dh) with (dw +:+ String "x" dh).
  rewrite split_append, split_plain by done.
  cbn [getitem lookup list_lookup]. rewrite !bind_Ok, Hw, !bind_Ok, Hh, !bind_Ok.
  rewrite split_join, E1, bind_Ok by done.
  cbn [getitem lookup list_lookup]. rewrite bind_Ok.
  now rewrite split_join, E2, bind_Ok by done.
Qed.

Lemma puzzle_from_file_reads_witness :
  ∃ initial_state desired_state,
    puzzle_from_file Examples.int_a (λ _, Some Examples.file_a) "puzzle.txt"
    = Ok (initial_state, desired_state)
    ∧ length initial_state = 2%nat ∧ length desired_state = 2%nat
    ∧ Forall (λ column, length column = 3%nat) initial_state
    ∧ Forall (λ column, length column = 3%nat) desired_state
    ∧ ∀ x y, (x < 2)%nat → (y < 3)%nat →
        cell initial_state x y = Examples.line_a !! (x + y * 2)%nat
        ∧ cell desired_state x y = Examples.line_b !! (x + y * 2)%nat.
Proof.
  apply (puzzle_from_file_reads Examples.int_a (λ _, Some Examples.file_a)
           "puzzle.txt" 2 3 "2" "3" Examples.line_a Examples.line_b []).
  - reflexivity.
  - reflexivity.
  - reflexivity.
  - reflexivity.
  - reflexivity.
  - apply (bool_decide_unpack _). vm_compute. exact I.
  - apply (bool_decide_unpack _). vm_compute. exact I.
  - simpl. lia.
  - simpl. lia.
Defined.

(** ** The priority queue hands back a least entry *)

Lemma heap_ordered_nil : heap_ordered [].
Proof. intros i a b _ Ha. discriminate. Qed.

Section HeapOrder.
#[local] Arguments Nat.div : simpl never.

Lemma child_cases (c pos : nat) :
  (0 < c)%nat → ((c - 1) / 2 = pos)%nat →
  c = (2 * pos + 1)%nat ∨ c = (2 * pos + 2)%nat.
Proof.
  intros Hc <-. pose proof (Nat.div_mod_eq (c - 1) 2) as E.
  pose proof (Nat.mod_upper_bound (c - 1) 2). lia.
Qed.

Lemma parent_of_left (pos : nat) : ((2 * pos + 1 - 1) / 2 = pos)%nat.
Proof.
  replace (2 * pos + 1 - 1)%nat with (pos * 2)%nat by lia.
  now rewrite Nat.div_mul.
Qed.

Lemma parent_of_right (pos : nat) : ((2 * pos + 2 - 1) / 2 = pos)%nat.
Proof.
  pose proof (Nat.div_mod_eq (2 * pos + 2 - 1) 2) as E.
  pose proof (Nat.mod_upper_bound (2 * pos + 2 - 1) 2). lia.
Qed.

Lemma _siftdown_loop_ordered fuel : ∀ heap newitem pos,
  (pos ≤ fuel)%nat → hole_up heap pos newitem →
  heap_ordered (_siftdown_loop fuel heap newitem 0 pos).
Proof.
  assert (∀ heap newitem pos, hole_up heap pos newitem →
            ((0 < pos)%nat → ∀ b : item, heap !! ((pos - 1) / 2)%nat = Some b →
               b.1 ≤ newitem.1) →
            heap_ordered (<[pos:=newitem]> heap)) as Hexit.
  { intros heap newitem pos (Hpos & Hi & Hii & Hiii) Hparent i a b Hi0.
    destruct (decide (i = pos)) as [-> | Hne].
    - rewrite list_lookup_insert_eq by done. intros [= <-].
      pose proof (parent_bound pos Hi0).
      rewrite list_lookup_insert_ne by lia. now apply Hparent.
    - rewrite list_lookup_insert_ne by done. intros Ha.
      destruct (decide ((i - 1) / 2 = pos)%nat) as [Hp | Hp].
      + rewrite Hp, list_lookup_insert_eq by done. intros [= <-].
        now apply (Hiii i).
      + rewrite list_lookup_insert_ne by done. now apply Hi. }
  induction fuel as [| fuel IH]; intros heap newitem pos Hfuel Hinv; simpl.
  - apply Hexit; [exact Hinv | lia].
  - destruct (Nat.ltb_spec 0 pos) as [Hlt | Hge];
      [| apply Hexit; [exact Hinv | lia]].
    pose proof (parent_bound pos Hlt) as Hpp.
    pose proof Hinv as (Hpos & Hi & Hii & Hiii).
    destruct (lookup_lt_is_Some_2 heap ((pos - 1) / 2)%nat) as [P HP]; [lia |].
    rewrite HP. unfold item_lt. destruct (Z.ltb_spec newitem.1 P.1) as [Hlt' | Hge'].
    2: { apply Hexit; [exact Hinv |]. intros _ b Hb.
         assert (b = P) as -> by congruence. lia. }
    apply IH; [lia |]. set (pp := ((pos - 1) / 2)%nat) in *.
    split; [rewrite length_insert; lia |]. split; [| split].
    + intros i a b Hi0 Hne Hpne.
      destruct (decide (i = pos)) as [-> | Hipos]; [done |].
      rewrite list_lookup_insert_ne by done. intros Ha.
      destruct (decide ((i - 1) / 2 = pos)%nat) as [Hp | Hp].
      * rewrite Hp, list_lookup_insert_eq by done. intros [= <-].
        now apply (Hii i a P).
      * rewrite list_lookup_insert_ne by done. now apply Hi.
    + intros c a b Hpp0 Hc0 Hcp.
      pose proof (parent_bound pp Hpp0) as Hppp.
      rewrite (list_lookup_insert_ne heap pos ((pp - 1) / 2)) by lia.
      intros Ha Hb.
      assert (b.1 ≤ P.1) as HbP by (apply (Hi pp P b); try done; lia).
      destruct (decide (c = pos)) as [-> | Hcpos].
      * rewrite list_lookup_insert_eq in Ha by done. now injection Ha as <-.
      * rewrite list_lookup_insert_ne in Ha by done.
        assert (P.1 ≤ a.1); [| lia].
        apply (Hi c a P); try done; [lia | now rewrite Hcp].
    + intros c a Hc0 Hcp.
      destruct (decide (c = pos)) as [-> | Hcpos].
      * rewrite list_lookup_insert_eq by done. intros [= <-]. lia.
      * rewrite list_lookup_insert_ne by done. intros Ha.
        assert (P.1 ≤ a.1); [| lia].
        apply (Hi c a P); try done; [lia | now rewrite Hcp].
Qed.

Lemma heappush_ordered heap it :
  heap_ordered heap → heap_ordered (heappush heap it).
Proof.
  intros Hh. unfold heappush, _siftdown.
  rewrite lookup_app_r, Nat.sub_diag by lia. simpl.
  apply _siftdown_loop_ordered; [lia |].
  assert (∀ c, (0 < c)%nat → ((c - 1) / 2)%nat = length heap →
            (heap ++ [it]) !! c = None) as Hleaf.
  { intros c Hc [-> | ->]%child_cases; [| | done]; apply lookup_ge_None;
      rewrite length_app; simpl; lia. }
  split; [rewrite length_app; simpl; lia |]. split; [| split].
  - intros i a b Hi Hne Hpne Ha Hb.
    assert (i < length heap)%nat as Hlt.
    { apply lookup_lt_Some in Ha. rewrite length_app in Ha. simpl in Ha. lia. }
    pose proof (parent_bound i Hi).
    rewrite lookup_app_l in Ha, Hb by lia. now apply (Hh i).
  - intros c a b _ Hc Hcp Ha. now rewrite Hleaf in Ha.
  - intros c a Hc Hcp Ha. now rewrite Hleaf in Ha.
Qed.

Lemma _siftup_loop_ordered fuel : ∀ heap pos,
  (length heap - pos ≤ fuel)%nat → hole_down heap pos →
  ∃ heap' pos',
    _siftup_loop fuel heap (length heap) pos (2 * pos + 1)%nat = (heap', pos')
    ∧ hole_down heap' pos' ∧ (length heap' ≤ 2 * pos' + 1)%nat.
Proof.
  induction fuel as [| fuel IH]; intros heap pos Hfuel Hinv.
  { destruct Hinv as [Hpos _]. lia. }
  cbn [_siftup_loop]. pose proof Hinv as (Hpos & Hi & Hii).
  destruct (Nat.ltb_spec (2 * pos + 1) (length heap)) as [Hlt | Hge];
    [| exists heap, pos; split; [reflexivity |]; split; [exact Hinv | lia]].
  destruct (lookup_lt_is_Some_2 heap (2 * pos + 1)%nat) as [c Hc]; [lia |].
  cbv zeta. rewrite Hc. cbv iota.
  set (c' := match heap !! (2 * pos + 1 + 1)%nat with
             | Some r =>
                 if (2 * pos + 1 + 1 <? length heap)%nat && negb (item_lt c r)
                 then (2 * pos + 1 + 1)%nat else (2 * pos + 1)%nat
             | None => (2 * pos + 1)%nat
             end).
  assert (∃ cv : item, heap !! c' = Some cv
                ∧ (c' = (2 * pos + 1)%nat ∨ c' = (2 * pos + 2)%nat)
                ∧ ∀ i (a : item), (0 < i)%nat → ((i - 1) / 2)%nat = pos →
                         heap !! i = Some a → cv.1 ≤ a.1)
    as (cv & Hcv & Hc' & Hmin).
  { unfold c'. destruct (heap !! (2 * pos + 1 + 1)%nat) as [r |] eqn:Hr.
    - unfold item_lt.
      destruct (Nat.ltb_spec (2 * pos + 1 + 1) (length heap)) as [? | ?];
        destruct (Z.ltb_spec c.1 r.1) as [? | ?]; simpl.
      + exists c. split; [done |]. split; [now left |].
        intros i a Hi0 [-> | ->]%child_cases; [| | done]; intros Ha.
        * assert (a = c) as -> by congruence. lia.
        * replace (2 * pos + 2)%nat with (2 * pos + 1 + 1)%nat in Ha by lia.
          assert (a = r) as -> by congruence. lia.
      + exists r. split; [done |]. split; [right; lia |].
        intros i a Hi0 [-> | ->]%child_cases; [| | done]; intros Ha.
        * assert (a = c) as -> by congruence. lia.
        * replace (2 * pos + 2)%nat with (2 * pos + 1 + 1)%nat in Ha by lia.
          assert (a = r) as -> by congruence. lia.
      + apply lookup_lt_Some in Hr. lia.
      + apply lookup_lt_Some in Hr. lia.
    - exists c. split; [done |]. split; [now left |].
      intros i a Hi0 [-> | ->]%child_cases; [| | done]; intros Ha.
      + assert (a = c) as -> by congruence. lia.
      + replace (2 * pos + 2)%nat with (2 * pos + 1 + 1)%nat in Ha by lia.
        congruence. }
  rewrite Hcv.
  assert (((c' - 1) / 2)%nat = pos) as Hparent.
  { destruct Hc' as [-> | ->]; [apply parent_of_left | apply parent_of_right]. }
  assert (pos < c')%nat as Hposc by lia.
  pose proof (lookup_lt_Some _ _ _ Hcv) as Hc'len.
  specialize (IH (<[pos:=cv]> heap) c').
  rewrite length_insert in IH. apply IH; [lia |].
  split; [rewrite length_insert; lia |]. split.
  - intros i a b Hi0 Hpne.
    destruct (decide (i = pos)) as [-> | Hipos].
    + rewrite list_lookup_insert_eq by done. intros [= <-].
      pose proof (parent_bound pos Hi0).
      rewrite list_lookup_insert_ne by lia. intros Hb.
      apply (Hii c' cv b); [done | lia | done..].
    + rewrite list_lookup_insert_ne by done. intros Ha.
      destruct (decide ((i - 1) / 2 = pos)%nat) as [Hp | Hp].
      * rewrite Hp, list_lookup_insert_eq by done. intros [= <-].
        now apply (Hmin i).
      * rewrite list_lookup_insert_ne by done. now apply Hi.
  - intros g a b _ Hg0 Hgp. rewrite Hparent.
    rewrite list_lookup_insert_eq by done.
    assert (c' < g)%nat by (pose proof (parent_bound g Hg0); lia).
    rewrite list_lookup_insert_ne by lia. intros Ha [= <-].
    apply (Hi g a cv); try done; [lia | now rewrite Hgp].
Qed.

Lemma _siftup_ordered (heap : list item) :
  hole_down heap 0 → heap_ordered (_siftup heap 0).
Proof.
  intros Hinv. unfold _siftup.
  destruct (heap !! 0%nat) as [newitem |] eqn:Hn;
    [| destruct Hinv as [Hpos _]; apply lookup_ge_None in Hn; lia].
  destruct (_siftup_loop_ordered (length heap) heap 0)
    as (heap' & pos' & -> & (Hpos & Hi & Hii) & Hleaf); [lia | exact Hinv |].
  unfold _siftdown.
  rewrite list_lookup_insert_eq by done.
  assert (∀ c, (0 < c)%nat → ((c - 1) / 2)%nat = pos' →
            <[pos':=newitem]> heap' !! c = None) as Hnone.
  { intros c Hc [-> | ->]%child_cases; [| | done]; apply lookup_ge_None;
      rewrite length_insert; lia. }
  apply _siftdown_loop_ordered; [lia |].
  split; [rewrite length_insert; lia |]. split; [| split].
  - intros i a b Hi0 Hne Hpne. rewrite !list_lookup_insert_ne by done.
    now apply Hi.
  - intros c a b _ Hc Hcp Ha. now rewrite Hnone in Ha.
  - intros c a Hc Hcp Ha. now rewrite Hnone in Ha.
Qed.

Lemma heap_ordered_root (heap : list item) (r : item) :
  heap_ordered heap → heap !! 0%nat = Some r →
  ∀ i (a : item), heap !! i = Some a → r.1 ≤ a.1.
Proof.
  intros Hh Hr i. induction i as [i IH] using lt_wf_ind. intros a Ha.
  destruct (decide (i = 0%nat)) as [-> | Hne].
  { assert (a = r) as -> by congruence. lia. }
  pose proof (parent_bound i ltac:(lia)) as Hp.
  destruct (lookup_lt_is_Some_2 heap ((i - 1) / 2)%nat) as [b Hb].
  { apply lookup_lt_Some in Ha. lia. }
  pose proof (IH _ Hp b Hb). pose proof (Hh i a b ltac:(lia) Ha Hb). lia.
Qed.

Lemma heappop_ordered (heap : list item) (it : item) heap' :
  heap_ordered heap → heappop heap = Some (it, heap') →
  heap_ordered heap' ∧ ∀ a : item, a ∈ heap → it.1 ≤ a.1.
Proof.
  intros Hh. unfold heappop.
  destruct (list_pop heap) as [[lastelt rest] |] eqn:Hpop; [| discriminate].
  apply list_pop_Some in Hpop as ->.
  destruct rest as [| returnitem rest'].
  - intros [= <- <-]. split.
    + intros i a b _ Ha. discriminate.
    + intros a ->%list_elem_of_singleton. lia.
  - intros [= <- <-]. split.
    + apply _siftup_ordered. split; [simpl; lia |]. split.
      * intros i a b Hi0 Hp Ha Hb.
        pose proof (parent_bound i Hi0).
        destruct i as [| i]; [lia |].
        destruct ((S i - 1) / 2)%nat as [| p] eqn:Ep; [done |].
        simpl in Ha, Hb. apply (Hh (S i) a b); [lia | |].
        -- simpl. apply lookup_app_l_Some. exact Ha.
        -- rewrite Ep. simpl. apply lookup_app_l_Some. exact Hb.
      * intros c a b Hpos. lia.
    + intros a [j Hj]%list_elem_of_lookup.
      now apply (heap_ordered_root _ returnitem Hh eq_refl j).
Qed.
End HeapOrder.


(** X25: the priority queue of greedy best-first, A*, Dijkstra and
    hill-climb: [heappush] and [heappop] keep the heap in order and keep its
    entries, up to the one pushed or popped, and the entry [heappop] hands
    back is of least priority among the entries; it fails on the empty heap
    only. *)
Theorem priority_queue_least (os : list item) :
  heap_ordered os →
  (∀ it, heap_ordered (heappush os it) ∧ heappush os it ≡ₚ it :: os)
  ∧ (∀ (it : item) os', heappop os = Some (it, os') →
       heap_ordered os' ∧ os ≡ₚ it :: os'
       ∧ ∀ a : item, a ∈ os → it.1 ≤ a.1)
  ∧ (heappop os = None → os = []).
Proof.
  intros Hord. split; [| split].
  - intros it. split; [now apply heappush_ordered | apply heappush_Permutation].
  - intros it os' Hpop.
    destruct (heappop_ordered _ _ _ Hord Hpop) as [Hord' Hmin].
    split; [exact Hord' |]. split; [now apply heappop_Permutation | exact Hmin].
  - apply heappop_None.
Qed.

Lemma priority_queue_least_witness :
  let os := heappush [] (1, Node_init Examples.initial_a None None) in
  heap_ordered os
  ∧ (∀ it, heap_ordered (heappush os it) ∧ heappush os it ≡ₚ it :: os)
  ∧ (∀ (it : item) os', heappop os = Some (it, os') →
       heap_ordered os' ∧ os ≡ₚ it :: os'
       ∧ ∀ a : item, a ∈ os → it.1 ≤ a.1)
  ∧ (heappop os = None → os = []).
Proof.
  intros os.
  assert (heap_ordered os) as Hord
    by (apply heappush_ordered, heap_ordered_nil).
  split; [exact Hord |]. exact (priority_queue_least os Hord).
Defined.

(** ** Breadth-first search and Dijkstra return shortest sequences *)

Lemma traced_child initial_state current_node d s :
  traced initial_state current_node →
  move_in d (state current_node) = Ok (Some s) →
  traced initial_state (child current_node d s).
Proof.
  intros (actions & Hrec & Hplay & Hn) Hmove. exists (label d :: actions).
  rewrite reconstruct_actions_child, Hrec. split; [reflexivity |].
  split.
  - simpl. rewrite replay_app, Hplay. simpl.
    now rewrite direction_of_label_label, Hmove.
  - simpl. lia.
Qed.

Lemma reach_0 initial_state s : reach initial_state 0 s → s = initial_state.
Proof.
  intros (actions & Hlen & Hplay). destruct actions; [| discriminate].
  simpl in Hplay. congruence.
Qed.

Lemma reach_S initial_state k s :
  reach initial_state (S k) s →
  ∃ p d, reach initial_state k p ∧ move_in d p = Ok (Some s).
Proof.
  intros (actions & Hlen & Hplay).
  destruct actions as [| a actions _] using rev_ind; [discriminate |].
  rewrite length_app in Hlen. simpl in Hlen.
  rewrite replay_app in Hplay.
  destruct (replay initial_state actions) as [p |] eqn:Hp; [| discriminate].
  simpl in Hplay. destruct (direction_of_label a) as [d |]; [| discriminate].
  destruct (move_in d p) as [[s' |] | e] eqn:Hmove; try discriminate.
  injection Hplay as ->. exists p, d. split; [| exact Hmove].
  exists actions. split; [lia | exact Hp].
Qed.

Section Shortest.
Context (fr : Frontier) `{!Lossless fr} `{!Least fr}.
Context (initial_state desired_state : State).

(** The open set at depth [D]: tidy, its nodes traced and at depth [D] or
    [D + 1]. *)
Let level (D : Z) (os : open_set fr) : Prop :=
  tidy os ∧ ∀ m, m ∈ nodes os →
                 traced initial_state m ∧ D ≤ num_parents m ≤ D + 1.

Lemma open_set_add_if_new_level closed_set current_node d s os os' :
  traced initial_state current_node →
  level (num_parents current_node) os →
  move_in d (state current_node) = Ok s →
  open_set_add_if_new fr closed_set current_node s (label d) os = Ok os' →
  level (num_parents current_node) os'.
Proof.
  intros Hcur [Htidy Hos] Hmove. unfold open_set_add_if_new.
  destruct s as [s |]; [| now intros [= <-]].
  destruct (_state_is_valid _ _); [| now intros [= <-]].
  intros Hadd. split.
  - eapply tidy_add; [exact Htidy | | exact Hadd].
    intros m Hm. destruct (Hos m Hm) as [_ ?]. simpl. lia.
  - intros m Hm. rewrite (nodes_add _ _ _ Hadd) in Hm.
    apply elem_of_cons in Hm as [-> | Hm]; [| now apply Hos].
    split; [now apply (traced_child _ _ d) | simpl; lia].
Qed.

Lemma expand_level closed_set current_node os os' :
  traced initial_state current_node →
  level (num_parents current_node) os →
  expand fr closed_set current_node os = Ok os' →
  level (num_parents current_node) os'.
Proof.
  intros Hcur Hos. unfold expand.
  destruct (up (state current_node)) as [s1 |] eqn:H1; [| discriminate].
  simpl. destruct (open_set_add_if_new _ _ _ s1 _ _) as [os1 |] eqn:A1;
    [| discriminate].
  simpl. destruct (left (state current_node)) as [s2 |] eqn:H2; [| discriminate].
  simpl. destruct (open_set_add_if_new _ _ _ s2 _ _) as [os2 |] eqn:A2;
    [| discriminate].
  simpl. destruct (down (state current_node)) as [s3 |] eqn:H3; [| discriminate].
  simpl. destruct (open_set_add_if_new _ _ _ s3 _ _) as [os3 |] eqn:A3;
    [| discriminate].
  simpl. destruct (right (state current_node)) as [s4 |] eqn:H4; [| discriminate].
  simpl. intros A4.
  apply (open_set_add_if_new_level _ _ Up) in A1; [| done..].
  apply (open_set_add_if_new_level _ _ Left) in A2; [| done..].
  apply (open_set_add_if_new_level _ _ Down) in A3; [| done..].
  now apply (open_set_add_if_new_level _ _ Right) in A4.
Qed.

(** Every state [k] moves away, for [k] up to the depth [D], is closed or
    is the state of an open node at depth [k] or less. *)
Let settled (closed_set : list State) (l : list Node) (D : Z) : Prop :=
  ∀ s k, reach initial_state k s → Z.of_nat k ≤ D →
         s ∈ closed_set
         ∨ ∃ m, m ∈ l ∧ state m = s ∧ num_parents m ≤ Z.of_nat k.

Lemma at_goal closed_set current_node os :
  (∀ s, s ∈ closed_set → s ≠ desired_state) →
  traced initial_state current_node →
  level (num_parents current_node) os →
  settled closed_set (current_node :: nodes os) (num_parents current_node) →
  state current_node = desired_state →
  traced initial_state current_node ∧ state current_node = desired_state
  ∧ ∀ k, reach initial_state k desired_state →
         num_parents current_node ≤ Z.of_nat k.
Proof.
  intros Hgoal Hcur [_ Hos] Hset Hd. split; [exact Hcur |].
  split; [exact Hd |]. intros k Hk.
  destruct (Z.le_gt_cases (num_parents current_node) (Z.of_nat k))
    as [? | Hlt]; [done |].
  destruct (Hset _ k Hk) as [Hin | (m & Hm & Hs & Hn)]; [lia | |].
  - now destruct (Hgoal _ Hin).
  - apply elem_of_cons in Hm as [-> | Hm]; [lia |].
    destruct (Hos m Hm) as [_ ?]. lia.
Qed.

Lemma search_loop_shortest fuel :
  ∀ closed_set current_node os closed_set' node,
  ordered closed_set →
  (∀ s, s ∈ closed_set → s ≠ desired_state) →
  (∀ s, s ∈ closed_set → covered closed_set (current_node :: nodes os) s) →
  traced initial_state current_node →
  level (num_parents current_node) os →
  settled closed_set (current_node :: nodes os) (num_parents current_node) →
  search_loop fr desired_state fuel closed_set current_node os
  = Some (Ok (closed_set', Some node)) →
  traced initial_state node ∧ state node = desired_state
  ∧ ∀ k, reach initial_state k desired_state → num_parents node ≤ Z.of_nat k.
Proof.
  induction fuel as [| fuel IH]; intros closed_set current_node os closed_set'
    node Hord Hgoal Hcov Hcur Hlevel Hset; simpl;
    case_bool_decide as Hstate; try discriminate.
  1, 3: intros [= <- <-]; apply (at_goal closed_set current_node os);
    try done; now destruct (decide (state current_node = desired_state)).
  set (D := num_parents current_node) in *.
  set (closed1 := insort closed_set (state current_node)).
  destruct (expand _ _ _ _) as [os1 | e] eqn:Hexp; [| discriminate].
  assert (ordered closed1) as Hord1 by now apply insort_ordered.
  pose proof (expand_level _ _ _ _ Hcur Hlevel Hexp) as [Htidy1 Hos1].
  pose proof (expand_nodes fr _ _ _ _ Hord1 Hexp) as [Hsub Hcur_cov].
  assert (∀ s, s ∈ closed1 → s ≠ desired_state) as Hgoal1.
  { intros s [-> | Hs]%elem_of_insort; auto. }
  assert (∀ s, s ∈ closed1 → covered closed1 (nodes os1) s) as Hcov1.
  { intros s [-> | Hs]%elem_of_insort; [exact Hcur_cov |].
    intros d s' Hmove.
    destruct (Hcov s Hs d s' Hmove) as [Hin | (n & [-> | Hn]%elem_of_cons & E)].
    - left. apply elem_of_insort. now right.
    - left. apply elem_of_insort. left. congruence.
    - right. exists n. split; [now apply Hsub | exact E]. }
  assert (settled closed1 (nodes os1) D) as Hset1.
  { intros s k Hk Hle.
    destruct (Hset s k Hk Hle) as [Hin | (m & [-> | Hm]%elem_of_cons & Hs & Hn)].
    - left. apply elem_of_insort. now right.
    - left. apply elem_of_insort. left. congruence.
    - right. exists m. split; [now apply Hsub | done]. }
  destruct (open_set_get fr os1) as [[n os2] |] eqn:Hget; [| discriminate].
  destruct (tidy_get _ _ _ Htidy1 Hget) as [Htidy2 Hleast].
  apply nodes_get in Hget.
  assert (n ∈ nodes os1) as Hn1 by (rewrite Hget; left).
  destruct (Hos1 n Hn1) as [Hn Hdepth].
  apply IH; try done.
  - intros s Hs d s' Hmove.
    destruct (Hcov1 s Hs d s' Hmove) as [Hin | (m & Hm & E)]; [now left |].
    right. exists m. split; [now rewrite <- Hget | exact E].
  - split; [exact Htidy2 |]. intros m Hm.
    assert (m ∈ nodes os1) as Hm1 by (rewrite Hget; now right).
    destruct (Hos1 m Hm1) as [? ?]. specialize (Hleast m Hm).
    split; [done | lia].
  - intros s k Hk Hle.
    destruct (Z.le_gt_cases (Z.of_nat k) D) as [HkD | HkD].
    { destruct (Hset1 s k Hk HkD) as [? | (m & Hm & Hs & Hmk)]; [now left |].
      right. exists m. split; [now rewrite <- Hget | done]. }
    assert (0 ≤ D) as HD by (destruct Hcur as (? & _ & _ & ?); lia).
    destruct k as [| k]; [lia |].
    apply reach_S in Hk as (p & d & Hp & Hmove).
    destruct (Hset1 p k Hp) as [Hin | (m & Hm & Hs & Hmk)]; [lia | |].
    + destruct (Hcov1 p Hin d s Hmove) as [? | (m & Hm & Hs)]; [now left |].
      right. exists m. split; [now rewrite <- Hget |]. split; [done |].
      destruct (Hos1 m Hm) as [_ ?]. lia.
    + exfalso. rewrite Hget in Hm.
      apply elem_of_cons in Hm as [-> | Hm]; [lia |].
      specialize (Hleast m Hm). lia.
Qed.

Lemma _search_shortest fuel n actions actions' :
  _search fr desired_state fuel initial_state = Some (Ok (n, Some actions)) →
  replay initial_state actions' = Some desired_state →
  (length actions ≤ length actions')%nat.
Proof.
  intros (closed_set & node & Htrace & _ & Hrec)%search_returns_actions Hplay.
  unfold search_trace in Htrace.
  apply search_loop_shortest in Htrace as ((acts & Hrec' & _ & Hn) & _ & Hmin).
  - specialize (Hmin (length actions') (ex_intro _ actions' (conj eq_refl Hplay))).
    assert (acts = actions) as -> by congruence. lia.
  - apply ordered_nil.
  - intros s Hs. now apply elem_of_nil in Hs.
  - intros s Hs. now apply elem_of_nil in Hs.
  - exists []. repeat split.
  - split; [apply tidy_new |]. rewrite nodes_new. intros m Hm.
    now apply elem_of_nil in Hm.
  - intros s k Hk Hle. simpl in Hle. assert (k = 0%nat) as -> by lia.
    apply reach_0 in Hk as ->. right. eexists. split; [left |].
    split; [reflexivity | simpl; lia].
Qed.
End Shortest.

#[global, refine] Instance breadth_first_least : Least breadth_first_frontier :=
  Build_Least breadth_first_frontier _
    (λ os : list Node,
       StronglySorted (λ a b, num_parents a ≤ num_parents b) os) _ _ _.
Proof.
  - constructor.
  - intros node os os' Hos Hle [= <-]. apply StronglySorted_app_2.
    + intros a b Ha ->%list_elem_of_singleton. now apply Hle.
    + exact Hos.
    + repeat constructor.
  - intros [| a os] node os' Hos; [discriminate |]. intros [= <- <-].
    apply StronglySorted_inv in Hos as [Hos Hall]. split; [exact Hos |].
    intros m Hm. rewrite Forall_forall in Hall. now apply Hall.
Defined.

(** X26: a sequence breadth-first search returns is a shortest one: no
    sequence of move labels that leads from the initial state to the desired
    state is shorter. *)
Theorem breadth_first_shortest fuel initial_state desired_state n actions
    actions' :
  breadth_first fuel initial_state desired_state
  = Some (Ok (n, Some actions)) →
  replay initial_state actions' = Some desired_state →
  (length actions ≤ length actions')%nat.
Proof. apply (_search_shortest breadth_first_frontier). Qed.

Lemma breadth_first_shortest_witness :
  breadth_first 10%nat Examples.initial_a Examples.down_left
  = Some (Ok (5%nat, Some ["Left;"; "Down;"]))
  ∧ replay Examples.initial_a ["Down;"; "Up;"; "Down;"; "Left;"]
    = Some Examples.down_left
  ∧ (length ["Left;"; "Down;"]
     ≤ length ["Down;"; "Up;"; "Down;"; "Left;"])%nat.
Proof.
  assert (breadth_first 10%nat Examples.initial_a Examples.down_left
          = Some (Ok (5%nat, Some ["Left;"; "Down;"]))) as Hrun
    by (vm_compute; reflexivity).
  assert (replay Examples.initial_a ["Down;"; "Up;"; "Down;"; "Left;"]
          = Some Examples.down_left) as Hplay by (vm_compute; reflexivity).
  split; [exact Hrun |]. split; [exact Hplay |].
  exact (breadth_first_shortest _ _ _ _ _ _ Hrun Hplay).
Defined.

#[global, refine] Instance dijkstra_least desired_state :
  Least (a_star_frontier (λ _ _, Ok 0) desired_state) :=
  Build_Least (a_star_frontier (λ _ _, Ok 0) desired_state) _
    (λ os : list item,
       heap_ordered os ∧ Forall (λ it : item, it.1 = num_parents it.2) os)
    _ _ _.
Proof.
  - split; [| constructor]. intros i a b _ Ha. discriminate.
  - intros node os os' [Hord Hall] _ [= <-]. split.
    + now apply heappush_ordered.
    + apply heappush_Forall; [exact Hall | simpl; lia].
  - intros os node os' [Hord Hall]. simpl. unfold pq_get.
    destruct (heappop os) as [[[priority n] rest] |] eqn:Hpop; [| discriminate].
    intros [= <- <-].
    destruct (heappop_ordered _ _ _ Hord Hpop) as [Hord' Hmin].
    destruct (heappop_Forall _ _ _ _ Hall Hpop) as [Hp Hall'].
    split; [split; assumption |]. intros m [it [-> Hit]]%list_elem_of_fmap.
    simpl in Hp. rewrite Forall_forall in Hall'.
    rewrite <- (Hall' it Hit), <- Hp.
    apply (Hmin it). rewrite (heappop_Permutation _ _ _ Hpop). now right.
Defined.

(** X27: a sequence Dijkstra returns is a shortest one, too: its
    priority queue hands back a node of least depth. *)
Theorem dijkstra_shortest fuel initial_state desired_state n actions
    actions' :
  dijkstra fuel initial_state desired_state = Some (Ok (n, Some actions)) →
  replay initial_state actions' = Some desired_state →
  (length actions ≤ length actions')%nat.
Proof.
  apply (_search_shortest (a_star_frontier (λ _ _, Ok 0) desired_state)).
Qed.

Lemma dijkstra_shortest_witness :
  dijkstra 10%nat Examples.initial_a Examples.down_left
  = Some (Ok (5%nat, Some ["Left;"; "Down;"]))
  ∧ replay Examples.initial_a ["Down;"; "Up;"; "Down;"; "Left;"]
    = Some Examples.down_left
  ∧ (length ["Left;"; "Down;"]
     ≤ length ["Down;"; "Up;"; "Down;"; "Left;"])%nat.
Proof.
  assert (dijkstra 10%nat Examples.initial_a Examples.down_left
          = Some (Ok (5%nat, Some ["Left;"; "Down;"]))) as Hrun
    by (vm_compute; reflexivity).
  assert (replay Examples.initial_a ["Down;"; "Up;"; "Down;"; "Left;"]
          = Some Examples.down_left) as Hplay by (vm_compute; reflexivity).
  split; [exact Hrun |]. split; [exact Hplay |].
  exact (dijkstra_shortest _ _ _ _ _ _ Hrun Hplay).
Defined.

(** X28: on one instance, the sequences breadth-first search and Dijkstra
    return are equally long, whatever the order in which the two expand
    their nodes. *)
Theorem dijkstra_matches_breadth_first fuel fuel' initial_state desired_state
    n n' actions actions' :
  breadth_first fuel initial_state desired_state
  = Some (Ok (n, Some actions)) →
  dijkstra fuel' initial_state desired_state = Some (Ok (n', Some actions')) →
  length actions = length actions'.
Proof.
  intros Hb Hd.
  pose proof (_search_replay_rev breadth_first_frontier _ _ _ _ _ Hb) as Rb.
  pose proof (_search_replay_rev (a_star_frontier (λ _ _, Ok 0) desired_state)
                _ _ _ _ _ Hd) as Rd.
  pose proof (_search_shortest breadth_first_frontier _ _ _ _ _ _ Hb Rd) as H1.
  pose proof (_search_shortest (a_star_frontier (λ _ _, Ok 0) desired_state)
                _ _ _ _ _ _ Hd Rb) as H2.
  rewrite length_rev in H1, H2. lia.
Qed.

Lemma dijkstra_matches_breadth_first_witness :
  breadth_first 300%nat Examples.initial_b Examples.desired_b
  = Some (Ok (225%nat,
      Some ["Down;"; "Right;"; "Up;"; "Left;"; "Down;"; "Left;"; "Up;";
            "Right;"; "Down;"; "Right;"; "Up;"; "Left;"; "Down;"; "Left;"]))
  ∧ dijkstra 300%nat Examples.initial_b Examples.desired_b
    = Some (Ok (245%nat,
        Some ["Down;"; "Right;"; "Up;"; "Left;"; "Down;"; "Left;"; "Up;";
              "Right;"; "Down;"; "Right;"; "Up;"; "Left;"; "Down;"; "Left;"]))
  ∧ length ["Down;"; "Right;"; "Up;"; "Left;"; "Down;"; "Left;"; "Up;";
            "Right;"; "Down;"; "Right;"; "Up;"; "Left;"; "Down;"; "Left;"]
    = length ["Down;"; "Right;"; "Up;"; "Left;"; "Down;"; "Left;"; "Up;";
              "Right;"; "Down;"; "Right;"; "Up;"; "Left;"; "Down;"; "Left;"].
Proof.
  assert (breadth_first 300%nat Examples.initial_b Examples.desired_b
          = Some (Ok (225%nat,
              Some ["Down;"; "Right;"; "Up;"; "Left;"; "Down;"; "Left;"; "Up;";
                    "Right;"; "Down;"; "Right;"; "Up;"; "Left;"; "Down;";
                    "Left;"]))) as Hb by (vm_compute; reflexivity).
  assert (dijkstra 300%nat Examples.initial_b Examples.desired_b
          = Some (Ok (245%nat,
              Some ["Down;"; "Right;"; "Up;"; "Left;"; "Down;"; "Left;"; "Up;";
                    "Right;"; "Down;"; "Right;"; "Up;"; "Left;"; "Down;";
                    "Left;"]))) as Hd by (vm_compute; reflexivity).
  split; [exact Hb |]. split; [exact Hd |].
  exact (dijkstra_matches_breadth_first _ _ _ _ _ _ _ _ Hb Hd).
Defined.

(** ** [_state_is_valid], and a puzzle file that is too short *)

(** X29: on a sorted closed set [_state_is_valid] answers [True] exactly
    for a successor that is a state, not [None], and is not in the closed
    set. *)
Theorem state_is_valid_iff (s : option State) (closed_set : list State) :
  ordered closed_set →
  _state_is_valid s closed_set = true ↔ ∃ x, s = Some x ∧ x ∉ closed_set.
Proof.
  intros Hord. destruct s as [x |].
  - rewrite (_state_is_valid_spec closed_set x Hord). split.
    + intros Hn. eauto.
    + now intros (y & [= <-] & Hn).
  - simpl. split; [discriminate |]. now intros (y & [=] & _).
Qed.

Lemma state_is_valid_iff_witness :
  ordered (insort [] Examples.initial_a)
  ∧ (_state_is_valid (Some Examples.one_down) (insort [] Examples.initial_a)
     = true
     ↔ ∃ x, Some Examples.one_down = Some x
            ∧ x ∉ insort [] Examples.initial_a).
Proof.
  assert (ordered (insort [] Examples.initial_a)) as Hord
    by (apply insort_ordered, ordered_nil).
  split; [exact Hord |].
  exact (state_is_valid_iff (Some Examples.one_down) _ Hord).
Defined.

(** X30: [puzzle_from_file] on a file of fewer than three lines, whose
    first line gives two dimensions that [int] reads, raises [IndexError]:
    from the line it misses, or from [state_from_line] when the second line
    is there but too short. *)
Theorem puzzle_from_file_short (int : string → res Z)
    (files : string → option string) (filename text line0 : string)
    (rest dimensions : list string) (d0 d1 : string) (width height : Z) :
  files filename = Some text →
  split newline text = line0 :: rest → (length rest < 2)%nat →
  split "x" line0 = d0 :: d1 :: dimensions →
  int d0 = Ok width → int d1 = Ok height →
  puzzle_from_file int files filename = Raise IndexError.
Proof.
  intros Hfile Hsplit Hlen Hdim Hw Hh. unfold puzzle_from_file.
  rewrite Hfile, Hsplit. cbn [getitem lookup list_lookup]. rewrite bind_Ok, Hdim.
  cbn [getitem lookup list_lookup]. rewrite !bind_Ok, Hw, !bind_Ok, Hh, !bind_Ok.
  destruct rest as [| line1 rest]; [reflexivity |].
  destruct rest as [| line2 rest]; [| simpl in Hlen; lia].
  cbn [getitem lookup list_lookup]. rewrite bind_Ok.
  rewrite state_from_line_mapM. now destruct (mapM _ _).
Qed.

Lemma puzzle_from_file_short_witness :
  puzzle_from_file Examples.int_a (λ _, Some Examples.file_short) "puzzle.txt"
  = Raise IndexError.
Proof.
  apply (puzzle_from_file_short Examples.int_a (λ _, Some Examples.file_short)
           "puzzle.txt" Examples.file_short "2x3" ["1 2 3 4 0 5"] [] "2" "3"
           2 3).
  - reflexivity.
  - reflexivity.
  - simpl. lia.
  - reflexivity.
  - reflexivity.
  - reflexivity.
Defined.
